(** * Token merging for vision transformers: the patched block, attention,
      model prologue, patch installation and the throughput harness.

    Embedded sources:
      - [src/opentome/timm/tome.py]: [ToMeAttention.forward],
        [ToMeBlock.forward], [ToMeVisionTransformer.forward],
        [tome_apply_patch];
      - [src/evaluations/throughput/benchmark.py]: [ThroughputBenchmark.run].

    Conventions.
      - A tensor is a nested list; the scalar type [T] stands for the
        activation dtype and is only used through the operations of
        [TensorOps].  Shape errors of the tensor library are outside the
        model; statements that depend on a shape carry it as a hypothesis.
      - The dictionary [_tome_info] lives in a heap of dictionaries and is
        reached through a reference, so that aliasing between the model and
        its blocks is visible.
      - Python exceptions are values of [pyexn]; a computation that raises
        keeps the heap it has reached.
      - Every computation appends the steps it performs to a ghost [trace];
        the trace is only read by theorems about the order of steps. *)

From Stdlib Require Import ZArith List Lia Bool.
From stdpp Require Import base option list gmap strings.

Open Scope Z_scope.
Open Scope nat_scope.

(** ** Python exceptions and results *)

Inductive pyexn :=
| AssertionError (msg : string)
| IndexError
| AttributeError
| KeyError
| TypeError
| ValueError
| RuntimeError
| OutOfMemoryError
| KeyboardInterrupt
| SystemExit.

(** [isinstance(e, Exception)]: everything but the two [BaseException]-only
    classes. *)
Definition isinstance_Exception (e : pyexn) : bool :=
  match e with
  | KeyboardInterrupt | SystemExit => false
  | _ => true
  end.

Inductive result (A : Type) :=
| Ok (a : A)
| Raise (e : pyexn).
Arguments Ok {A} a.
Arguments Raise {A} e.

(** ** Computations: state passing with exceptions *)

Section StateExn.

Context {St : Type}.

Definition comp (A : Type) : Type := St → St * result A.

Definition ret {A : Type} (a : A) : comp A := λ s, (s, Ok a).
Definition raise {A : Type} (e : pyexn) : comp A := λ s, (s, Raise e).
Definition lift {A : Type} (r : result A) : comp A := λ s, (s, r).
Definition bind {A B : Type} (m : comp A) (k : A → comp B) : comp B :=
  λ s, match m s with
       | (s', Ok a) => k a s'
       | (s', Raise e) => (s', Raise e)
       end.

(** [try: body / except Exception as e: handler(e)] *)
Definition try_except {A : Type} (body : comp A) (handler : pyexn → comp A)
  : comp A :=
  λ s, match body s with
       | (s', Raise e) =>
           if isinstance_Exception e then handler e s' else (s', Raise e)
       | out => out
       end.

(** [for _ in range(n): body] *)
Fixpoint repeat_n (n : nat) (body : comp unit) : comp unit :=
  match n with
  | O => ret tt
  | S n' => bind body (λ _, repeat_n n' body)
  end.

End StateExn.

Notation "x <- m ;; k" := (bind m (λ x, k))
  (at level 100, m at next level, right associativity).
Notation "m ;;; k" := (bind m (λ _, k))
  (at level 100, right associativity).

(** ** Steps recorded in the ghost trace *)

Inductive event :=
| EvPrologue (schedule : list Z)   (* the model prologue installed a schedule *)
| EvAttend (size : option (list (list nat)))
                                   (* attention ran, with this size argument *)
| EvResidual1                      (* first residual addition *)
| EvPop (r : Z)                    (* [_tome_info["r"].pop(0)] returned [r] *)
| EvMatch (r : Z)                  (* [bipartite_soft_matching] ran *)
| EvTraceSource                    (* [merge_source] ran *)
| EvApply                          (* [merge_wavg] ran *)
| EvMlp.                           (* feed-forward sublayer and second residual *)

Definition is_attend (e : event) : bool :=
  match e with EvAttend _ => true | _ => false end.
Definition is_pop (e : event) : bool :=
  match e with EvPop _ => true | _ => false end.
Definition is_prologue (e : event) : bool :=
  match e with EvPrologue _ => true | _ => false end.
Definition is_merge_or_mlp (e : event) : bool :=
  match e with
  | EvMatch _ | EvTraceSource | EvApply | EvMlp => true
  | _ => false
  end.
Definition is_match_or_apply (e : event) : bool :=
  match e with
  | EvMatch _ | EvTraceSource | EvApply => true
  | _ => false
  end.

(** ** Scalars and tensors *)

Class TensorOps (T : Type) := {
  tzero : T;
  tadd : T → T → T;
  tmul : T → T → T;
  tdiv : T → T → T;
  tlog : T → T;
  tofnat : nat → T;                 (* whole number as a scalar *)
  tleb : T → T → bool;              (* score comparison *)
  softmax : list T → list T;        (* [softmax(dim=-1)] of one row *)
  similarity : list T → list T → T; (* similarity of two metric vectors *)
  (* [F.scaled_dot_product_attention] for one batch element and one head:
     queries, keys, values, additive mask row over the keys, dropout
     probability *)
  sdpa : list (list T) → list (list T) → list (list T) →
         option (list T) → T → list (list T)
}.

(** the size tensor is [batch, tokens, 1]; its entries are whole numbers *)
Abbreviation size_tensor := (list (list nat)) (only parsing).
(** the source tensor is [batch, tokens, original tokens], an indicator *)
Abbreviation source_tensor := (list (list (list bool))) (only parsing).

Section Tome.

Context {T : Type} `{TensorOps T}.

(** a token, and a [batch, tokens, channels] tensor *)
Abbreviation vec := (list T) (only parsing).
Abbreviation tensor3 := (list (list (list T))) (only parsing).

Definition tsum (l : list T) : T := foldr tadd tzero l.
Definition tmean (l : list T) : T := tdiv (tsum l) (tofnat (length l)).
Definition dot (u v : vec) : T := tsum (zip_with tmul u v).
Definition vadd (u v : vec) : vec := zip_with tadd u v.
Definition vscale (c : T) (v : vec) : vec := map (tmul c) v.
(** elementwise [x + y] of two tensors of one shape *)
Definition tensor_add (x y : tensor3) : tensor3 :=
  zip_with (zip_with vadd) x y.
(** a per-token layer applied to every token *)
Definition per_token (f : vec → vec) (x : tensor3) : tensor3 :=
  map (map f) x.
(** a per-sample, per-token layer (stochastic depth scales whole samples) *)
Definition per_sample (f : nat → vec → vec) (x : tensor3) : tensor3 :=
  imap (λ b, map (f b)) x.

(** ** Python values that an attention module may hand back as its metric *)

Inductive pyval :=
| PyNone
| PyInt (z : Z)
| PyFloat (t : T)
| PyStr (s : string)
| PyTensor (t : tensor3).

(** [isinstance(v, (float, torch.Tensor))] *)
Definition isinstance_float_or_Tensor (v : pyval) : bool :=
  match v with
  | PyFloat _ | PyTensor _ => true
  | _ => false
  end.

(** ** [ToMeAttention] *)

Record attention := {
  attn_num_heads : nat;                 (* self.num_heads *)
  attn_fused : bool;                    (* self.fused_attn *)
  attn_training : bool;                 (* self.training *)
  attn_scale : T;                       (* self.scale *)
  attn_qkv : vec → vec;                 (* self.qkv, a linear layer *)
  attn_drop_p : T;                      (* self.attn_drop.p *)
  attn_drop : list (list T) → list (list T);  (* self.attn_drop, one draw *)
  attn_proj : vec → vec;                (* self.proj *)
  attn_proj_drop : vec → vec            (* self.proj_drop, one draw *)
}.

(** [C] of [B, N, C = x.shape], read off the first token *)
Definition channels (x : tensor3) : nat :=
  match x with
  | (tok :: _) :: _ => length tok
  | _ => 0
  end.

(** Entry [[n, t, h, :]] of [qkv(x).reshape(B, N, 3, heads, C // heads)]:
    the flat offset of [(t, h, 0)] in a row of [3 * heads * hd] scalars. *)
Definition head_part (hd heads t h : nat) (row : vec) : vec :=
  take hd (drop ((t * heads + h) * hd) row).

(** [qkv[t]] for one batch element after [permute(2, 0, 3, 1, 4)]:
    [heads, N, C // heads] *)
Definition qkv_heads (a : attention) (C t : nat) (xb : list vec)
  : list (list vec) :=
  let heads := attn_num_heads a in
  map (λ h, map (λ tok, head_part (C / heads) heads t h (attn_qkv a tok)) xb)
      (seq 0 heads).

(** [size.log()[:, None, None, :, 0]] for batch element [b]: one additive
    term per key token, shared by all heads and all queries *)
Definition log_size_row (size : size_tensor) (b : nat) : list T :=
  map (λ s, tlog (tofnat s)) (default [] (size !! b)).

(** pre-softmax scores of one head: [(q @ k.transpose(-2, -1)) * self.scale],
    plus the size term when a size is given *)
Definition attn_scores (a : attention) (bias : option (list T))
    (q k : list vec) : list (list T) :=
  let attn := map (λ qi, map (λ kj, tmul (dot qi kj) (attn_scale a)) k) q in
  match bias with
  | Some lg => map (λ row, zip_with tadd row lg) attn
  | None => attn
  end.

(** [attn @ v] *)
Definition attn_apply (hd : nat) (attn : list (list T)) (v : list vec)
  : list vec :=
  map (λ row, foldr vadd (replicate hd tzero) (zip_with vscale row v)) attn.

(** the [else] branch: naive attention of one head *)
Definition naive_head (a : attention) (hd : nat) (bias : option (list T))
    (q k v : list vec) : list vec :=
  let attn := attn_scores a bias q k in
  let attn := map softmax attn in
  let attn := attn_drop a attn in
  attn_apply hd attn v.

(** the [if self.fused_attn] branch *)
Definition fused_head (a : attention) (bias : option (list T))
    (q k v : list vec) : list vec :=
  sdpa q k v bias (if attn_training a then attn_drop_p a else tzero).

(** [x.transpose(1, 2).reshape(B, N, C)] for one batch element: token [n]
    is the concatenation of its rows in all heads *)
Definition merge_heads (N : nat) (heads_out : list (list vec)) : list vec :=
  map (λ n, concat (map (λ ho, default [] (ho !! n)) heads_out)) (seq 0 N).

(** [k.mean(1)] for one batch element: [N, C // heads] *)
Definition mean_over_heads (N hd : nat) (k : list (list vec)) : list vec :=
  map (λ n,
         map (λ c, tmean (map (λ kh, default tzero (default [] (kh !! n) !! c)) k))
             (seq 0 hd))
      (seq 0 N).

Definition attention_sample (a : attention) (C : nat)
    (size : option size_tensor) (b : nat) (xb : list vec)
  : list vec * list vec :=
  let heads := attn_num_heads a in
  let hd := C / heads in
  let q := qkv_heads a C 0 xb in
  let k := qkv_heads a C 1 xb in
  let v := qkv_heads a C 2 xb in
  let bias := (λ s, log_size_row s b) <$> size in
  let outs :=
    map (λ h,
           let qh := default [] (q !! h) in
           let kh := default [] (k !! h) in
           let vh := default [] (v !! h) in
           if attn_fused a then fused_head a bias qh kh vh
           else naive_head a hd bias qh kh vh)
        (seq 0 heads) in
  let x := merge_heads (length xb) outs in
  let x := map (attn_proj a) x in
  let x := map (attn_proj_drop a) x in
  (x, mean_over_heads (length xb) hd k).

(** [ToMeAttention.forward(x, size)]: the output and the metric dictionary *)
Definition ToMeAttention_forward (a : attention)
    (x : tensor3) (size : option size_tensor)
  : tensor3 * gmap string pyval :=
  let C := channels x in
  let per := imap (attention_sample a C size) x in
  (map fst per, {[ "metric" := PyTensor (map snd per) ]}).

(** ** Bipartite matcher and merge applicator

    [bipartite_soft_matching], [merge_wavg] and [merge_source] are imported
    from [opentome.tome.tome], which is not among the embedded sources. *)

(** Modelled from the spec: the merge mapping that
    [bipartite_soft_matching] hands to the applicator, for one batch
    element: the positions that stay (in output order), the merged pairs
    (source position, destination position), and the destination positions
    (in output order). *)
Record merge_mapping := {
  mm_keep : list nat;
  mm_src : list (nat * nat);
  mm_dst : list nat
}.

(** Modelled from the spec: the number of protected leading positions of
    [bipartite_soft_matching] (one per protected-token flag). *)
Definition protected_count (class_token distill_token : bool) : nat :=
  (if class_token then 1 else 0) + (if distill_token then 1 else 0).

(** Modelled from the spec: the partition of [bipartite_soft_matching] by
    alternating parity; the first list holds positions 0, 2, 4, ... of its
    argument, the second positions 1, 3, 5, ... *)
Fixpoint alternate {X : Type} (l : list X) : list X * list X :=
  match l with
  | [] => ([], [])
  | x :: l' => let '(a, b) := alternate l' in (x :: b, a)
  end.

(** Modelled from the spec: the sets A and B of [bipartite_soft_matching]
    among [N] tokens of which the first [p] are protected. *)
Definition set_A (N p : nat) : list nat := (alternate (seq p (N - p))).1.
(** Modelled from the spec: the set B of [bipartite_soft_matching]. *)
Definition set_B (N p : nat) : list nat := (alternate (seq p (N - p))).2.

(** Modelled from the spec: the best-edge-per-source reduction of
    [bipartite_soft_matching]; the earliest destination wins a tie. *)
Fixpoint best_edge (m : list vec) (va : vec) (B : list nat)
  : option (nat * T) :=
  match B with
  | [] => None
  | b :: B' =>
      let s := similarity va (default [] (m !! b)) in
      match best_edge m va B' with
      | Some (b', s') => if tleb s' s then Some (b, s) else Some (b', s')
      | None => Some (b, s)
      end
  end.

(** Modelled from the spec: a best edge of [bipartite_soft_matching], an A
    token with its chosen destination and the score of that edge. *)
Definition edge : Type := nat * nat * T.
(** Modelled from the spec: the score of a best edge. *)
Definition edge_score (e : edge) : T := e.2.

(** Modelled from the spec: the ranking of [bipartite_soft_matching], a
    stable sort by descending best-edge score. *)
Fixpoint insert_desc (e : edge) (l : list edge) : list edge :=
  match l with
  | [] => [e]
  | e' :: l' =>
      if tleb (edge_score e') (edge_score e) then e :: l
      else e' :: insert_desc e l'
  end.

(** Modelled from the spec: the ranked edges of [bipartite_soft_matching];
    of two edges with one score the one of the earlier token comes first. *)
Definition rank_desc (l : list edge) : list edge := foldr insert_desc [] l.

(** Modelled from the spec: [bipartite_soft_matching] for one batch element
    with [N] metric vectors.  A count [r <= 0] gives the identity mapping;
    otherwise the [min(r, |A|, |B|)] best-ranked A tokens (no protected
    token is in A) are merged into their best B partner, and the output
    order is: protected tokens, unmerged A tokens in original order, all B
    tokens in original order. *)
Definition match_sample (r : Z) (class_token distill_token : bool)
    (m : list vec) : merge_mapping :=
  let N := length m in
  if (r <=? 0)%Z then {| mm_keep := seq 0 N; mm_src := []; mm_dst := [] |}
  else
    let p := protected_count class_token distill_token in
    let A := set_A N p in
    let B := set_B N p in
    let edges :=
      omap (λ a, (λ bs : nat * T, (a, bs.1, bs.2))
                   <$> best_edge m (default [] (m !! a)) B) A in
    let r' := Z.to_nat r `min` (length A `min` length B) in
    let src := (λ e : edge, (e.1.1, e.1.2)) <$> take r' (rank_desc edges) in
    let merged := src.*1 in
    {| mm_keep := seq 0 (p `min` N)
                  ++ filter (λ a, a ∉ merged) A;
       mm_src := src;
       mm_dst := B |}.

(** Modelled from the spec: [bipartite_soft_matching] on a
    [batch, tokens, channels] metric, one matching per batch element. *)
Definition bipartite_soft_matching (metric : tensor3) (r : Z)
    (class_token distill_token : bool) : list merge_mapping :=
  map (match_sample r class_token distill_token) metric.

(** Modelled from the spec: the merge of [opentome.tome.tome] applied to
    one per-token quantity of one batch element: kept tokens pass through,
    every destination is combined with all sources that chose it. *)
Definition apply_mapping {X : Type} (combine : X → X → X) (d : X)
    (mp : merge_mapping) (l : list X) : list X :=
  let get i := default d (l !! i) in
  map get (mm_keep mp) ++
  map (λ b, foldl combine (get b)
              (map (λ sd : nat * nat, get sd.1)
                   (filter (λ sd : nat * nat, sd.2 = b) (mm_src mp))))
      (mm_dst mp).

(** Modelled from the spec: the size [merge_wavg] starts from when none is
    set, one for every token. *)
Definition ones_like (x : tensor3) : size_tensor :=
  map (λ xb, replicate (length xb) 1) x.

(** Modelled from the spec: the trace [merge_source] starts from when none
    is set, every token standing for itself. *)
Definition eye (n : nat) : list (list bool) :=
  map (λ i, map (λ j, Nat.eqb i j) (seq 0 n)) (seq 0 n).

(** Modelled from the spec: the feature vector that [merge_wavg] gives a
    token standing for several, the size-weighted average of the vectors
    folded into it, carried as the pair (weighted sum, total size); a token
    that takes part in no merge is the average of itself. *)
Definition weighted (s : nat) (v : vec) : vec * nat := (vscale (tofnat s) v, s).
(** Modelled from the spec: two weighted sums of [merge_wavg] added up. *)
Definition wadd (a b : vec * nat) : vec * nat := (vadd a.1 b.1, a.2 + b.2).
(** Modelled from the spec: the weighted sum of [merge_wavg] divided by the
    total size. *)
Definition wavg (p : vec * nat) : vec := map (λ c, tdiv c (tofnat p.2)) p.1.

(** Modelled from the spec: [merge_wavg] of [opentome.tome.tome].  An
    uninitialised size is all ones; the new size of a destination is the sum
    of the merged sizes, untouched sizes pass through; features are the
    size-weighted averages. *)
Definition merge_wavg (merge : list merge_mapping) (x : tensor3)
    (size : option size_tensor) : tensor3 * size_tensor :=
  let size := default (ones_like x) size in
  let x' :=
    zip_with (λ mp (xs : list vec * list nat),
                wavg <$> apply_mapping wadd ([], 0) mp
                           (zip_with (λ v s, weighted s v) xs.1 xs.2))
             merge (zip x size) in
  let size' := zip_with (apply_mapping Nat.add 0) merge size in
  (x', size').

(** Modelled from the spec: [merge_source] of [opentome.tome.tome].  An
    uninitialised trace maps every token to itself; a destination's
    indicator is the union of the merged indicators. *)
Definition merge_source (merge : list merge_mapping) (x : tensor3)
    (source : option source_tensor) : source_tensor :=
  let source := default (map (λ xb, eye (length xb)) x) source in
  zip_with (apply_mapping (zip_with orb) []) merge source.

(** ** The shared dictionary [_tome_info] and the heap *)

(** values of [model.r] and of [_tome_info["r"]] *)
Inductive rval :=
| RInt (n : Z)
| RTuple (ratio inflect : T)
| RList (l : list Z).

Record tome_info := {
  ti_r : rval;
  ti_size : option size_tensor;
  ti_source : option source_tensor;
  ti_total_merge : option Z;
  ti_trace_source : bool;
  ti_prop_attn : bool;
  ti_class_token : bool;
  ti_distill_token : bool
}.

Definition set_r (v : rval) (i : tome_info) : tome_info :=
  {| ti_r := v; ti_size := ti_size i; ti_source := ti_source i;
     ti_total_merge := ti_total_merge i; ti_trace_source := ti_trace_source i;
     ti_prop_attn := ti_prop_attn i; ti_class_token := ti_class_token i;
     ti_distill_token := ti_distill_token i |}.
Definition set_size (v : option size_tensor) (i : tome_info) : tome_info :=
  {| ti_r := ti_r i; ti_size := v; ti_source := ti_source i;
     ti_total_merge := ti_total_merge i; ti_trace_source := ti_trace_source i;
     ti_prop_attn := ti_prop_attn i; ti_class_token := ti_class_token i;
     ti_distill_token := ti_distill_token i |}.
Definition set_source (v : option source_tensor) (i : tome_info) : tome_info :=
  {| ti_r := ti_r i; ti_size := ti_size i; ti_source := v;
     ti_total_merge := ti_total_merge i; ti_trace_source := ti_trace_source i;
     ti_prop_attn := ti_prop_attn i; ti_class_token := ti_class_token i;
     ti_distill_token := ti_distill_token i |}.

(** a reference to a dictionary object *)
Definition loc := nat.

Record world := {
  heap : gmap loc tome_info;
  trace : list event
}.

(** ** Computations over the heap and the trace *)

Definition M (A : Type) : Type := @comp world A.

Definition emit (e : event) : M unit :=
  λ w, ({| heap := heap w; trace := trace w ++ [e] |}, Ok tt).
(** [obj[...]] on the dictionary behind a reference *)
Definition get_info (l : loc) : M tome_info :=
  λ w, match heap w !! l with
       | Some i => (w, Ok i)
       | None => (w, Raise AttributeError)
       end.
(** item assignment on the dictionary behind a reference *)
Definition update_info (l : loc) (f : tome_info → tome_info) : M unit :=
  λ w, match heap w !! l with
       | Some i => ({| heap := <[l := f i]> (heap w); trace := trace w |}, Ok tt)
       | None => (w, Raise AttributeError)
       end.
Definition assert_ (b : bool) (msg : string) : M unit :=
  if b then ret tt else raise (AssertionError msg).
(** attribute access [self._tome_info] *)
Definition attr (o : option loc) : M loc :=
  match o with
  | Some l => ret l
  | None => raise AttributeError
  end.

(** ** Blocks *)

Inductive attn_class := CAttention | CTimmAttention | CToMeAttention.
Inductive block_class := CBlock | CTimmBlock | CToMeBlock | COtherModule.

Inductive attn_module :=
| Attn (cls : attn_class) (a : attention)
  (* an [Attention] or [TimmAttention] instance, patched or not *)
| ForeignAttn
    (f : tensor3 → option size_tensor → result (tensor3 * gmap string pyval)).
  (* any other module installed as [self.attn] *)

Record block := {
  blk_class : block_class;
  blk_tome_info : option loc;               (* self._tome_info, if set *)
  blk_parent_forward : tensor3 → result tensor3;
    (* [forward] of the class the module was built with; a parameter *)
  blk_norm1 : vec → vec;
  blk_attn : attn_module;
  blk_ls1 : vec → vec;
  blk_drop_path1 : option (nat → vec → vec);  (* present in newer timm *)
  blk_drop_path2 : option (nat → vec → vec);
  blk_drop_path : nat → vec → vec;            (* the older single attribute *)
  blk_norm2 : vec → vec;
  blk_mlp : vec → vec;
  blk_ls2 : vec → vec
}.

(** [ToMeBlock._drop_path1] *)
Definition _drop_path1 (self : block) (x : tensor3) : tensor3 :=
  match blk_drop_path1 self with
  | Some dp => per_sample dp x
  | None => per_sample (blk_drop_path self) x
  end.

(** [ToMeBlock._drop_path2] *)
Definition _drop_path2 (self : block) (x : tensor3) : tensor3 :=
  match blk_drop_path2 self with
  | Some dp => per_sample dp x
  | None => per_sample (blk_drop_path self) x
  end.

(** [self.attn(x, size)].  The patched class runs [ToMeAttention.forward].
    An [Attention] that was not patched is the parent class, whose forward
    is not the two-argument, two-result one the block relies on; the call
    is rendered as a [TypeError].  [tome_apply_patch] leaves no such
    attention inside a patched block. *)
Definition attn_result (m : attn_module) (x : tensor3)
    (size : option size_tensor) : result (tensor3 * gmap string pyval) :=
  match m with
  | Attn CToMeAttention a => Ok (ToMeAttention_forward a x size)
  | Attn _ _ => Raise TypeError
  | ForeignAttn f => f x size
  end.

Definition call_attn (m : attn_module) (x : tensor3)
    (size : option size_tensor) : M (tensor3 * gmap string pyval) :=
  r <- lift (attn_result m x size) ;;
  emit (EvAttend size) ;;;
  ret r.

(** [_tome_info["r"].pop(0)] *)
Definition pop_r (l : loc) : M Z :=
  info <- get_info l ;;
  match ti_r info with
  | RList (r :: rs) =>
      update_info l (set_r (RList rs)) ;;;
      emit (EvPop r) ;;;
      ret r
  | RList [] => raise IndexError
  | _ => raise AttributeError
  end.

(** The matcher is handed [metric['metric']]; a float passes the check of
    the block but has no token axis, which the matcher needs. *)
Definition call_matcher (v : pyval) (r : Z) (ct dt : bool)
  : M (list merge_mapping) :=
  match v with
  | PyTensor m => emit (EvMatch r) ;;; ret (bipartite_soft_matching m r ct dt)
  | _ => raise AttributeError
  end.

(** [x + self._drop_path1(self.ls1(x_attn))] *)
Definition residual1 (self : block) (x x_attn : tensor3) : tensor3 :=
  tensor_add x (_drop_path1 self (per_token (blk_ls1 self) x_attn)).

(** [x + self._drop_path2(self.ls2(self.mlp(self.norm2(x))))] *)
Definition residual2 (self : block) (x : tensor3) : tensor3 :=
  tensor_add x
    (_drop_path2 self
       (per_token (blk_ls2 self)
          (per_token (blk_mlp self) (per_token (blk_norm2 self) x)))).

(** [self._tome_info["size"] if self._tome_info["prop_attn"] else None] *)
Definition attn_size_arg (info : tome_info) : option size_tensor :=
  if ti_prop_attn info then ti_size info else None.

(** the first two statements of [ToMeBlock.forward]: the size argument
    and the attention call *)
Definition ToMeBlock_attend (self : block) (l : loc) (x : tensor3)
  : M (tensor3 * gmap string pyval) :=
  info <- get_info l ;;
  call_attn (blk_attn self) (per_token (blk_norm1 self) x) (attn_size_arg info).

(** [ToMeBlock.forward] *)
Definition ToMeBlock_forward (self : block) (x : tensor3) : M tensor3 :=
  l <- attr (blk_tome_info self) ;;
  am <- ToMeBlock_attend self l x ;;
  let '(x_attn, metric) := am in
  v <- match metric !! "metric" with
       | Some v => ret v
       | None => raise KeyError
       end ;;
  assert_ (isinstance_float_or_Tensor v) "metric not a float or torch.Tensor" ;;;
  let x := residual1 self x x_attn in
  emit EvResidual1 ;;;
  r <- pop_r l ;;
  x <- (if (0 <? r)%Z then
          info <- get_info l ;;
          merge <- call_matcher v r (ti_class_token info)
                                    (ti_distill_token info) ;;
          (if ti_trace_source info then
             info <- get_info l ;;
             update_info l (set_source (Some (merge_source merge x (ti_source info)))) ;;;
             emit EvTraceSource
           else ret tt) ;;;
          info <- get_info l ;;
          let xs := merge_wavg merge x (ti_size info) in
          update_info l (set_size (Some xs.2)) ;;;
          emit EvApply ;;;
          ret xs.1
        else ret x) ;;
  emit EvMlp ;;;
  ret (residual2 self x).

(** A module that is not a [ToMeBlock] runs the [forward] of the class it
    was built with: [Block] of [opentome.timm], [Block] of [timm], or
    whatever the module is.  None of them is among the sources, so this
    forward is a parameter of the block; it does not see [_tome_info]. *)
Definition Block_forward (self : block) (x : tensor3) : M tensor3 :=
  lift (blk_parent_forward self x).

(** Modelled from the spec: a block pass with merging disabled (section 8,
    idempotent zero-merge).  No class among the sources runs such a pass:
    [Block] and [Attention] of [opentome.timm], the parents of the patched
    classes, are missing.  Of the states of a block (section 4.4) the pass
    keeps Attend, size-agnostic (the attention sublayer of section 6 is
    called without a size), Residual-1 and MLP + Residual-2, and leaves out
    Merge-decide, Match and Apply. *)
Definition block_without_merging (self : block) (x : tensor3)
  : result tensor3 :=
  match attn_result (blk_attn self) (per_token (blk_norm1 self) x) None with
  | Ok am => Ok (residual2 self (residual1 self x am.1))
  | Raise e => Raise e
  end.

(** Modelled from the spec: the block stack with merging disabled, block
    after block in depth order (section 5). *)
Fixpoint blocks_without_merging (blocks : list block) (x : tensor3)
  : result tensor3 :=
  match blocks with
  | [] => Ok x
  | b :: bs =>
      match block_without_merging b x with
      | Ok x' => blocks_without_merging bs x'
      | Raise e => Raise e
      end
  end.

(** What the merge branch of [ToMeBlock.forward] leaves in the dictionary
    and in [x], as one function of the values it reads (used to state
    theorems; [ToMeBlock_forward] performs the same reads and writes one by
    one). *)
Definition merge_branch (info : tome_info) (m : tensor3) (r : Z)
    (x : tensor3) : tome_info * tensor3 :=
  let merge :=
    bipartite_soft_matching m r (ti_class_token info) (ti_distill_token info) in
  let info1 :=
    if ti_trace_source info
    then set_source (Some (merge_source merge x (ti_source info))) info
    else info in
  let xs := merge_wavg merge x (ti_size info) in
  (set_size (Some xs.2) info1, xs.1).

(** the world in which the dictionary at [l] holds the size [s] *)
Definition with_size (s : option size_tensor) (l : loc) (w : world) : world :=
  {| heap := alter (set_size s) l (heap w); trace := trace w |}.

(** calling a block dispatches on its class *)
Definition call_block (b : block) (x : tensor3) : M tensor3 :=
  match blk_class b with
  | CToMeBlock => ToMeBlock_forward b x
  | _ => Block_forward b x
  end.

(** [self.blocks(x)], a sequential container *)
Fixpoint run_blocks (blocks : list block) (x : tensor3) : M tensor3 :=
  match blocks with
  | [] => ret x
  | b :: bs => x' <- call_block b x ;; run_blocks bs x'
  end.

(** the entries of the dictionary that a forward pass only reads *)
Definition config (info : tome_info)
  : option Z * bool * bool * bool * bool :=
  (ti_total_merge info, ti_trace_source info, ti_prop_attn info,
   ti_class_token info, ti_distill_token info).

(** [w'] extends [w]: the read-only entries of every dictionary are the
    same and the trace grew by steps that are not prologues *)
Definition extends (w w' : world) : Prop :=
  (∀ l, config <$> heap w' !! l = config <$> heap w !! l) ∧
  ∃ evs, trace w' = trace w ++ evs ∧ Forall (λ e, is_prologue e = false) evs.

(** a computation that only extends the world *)
Definition frame {A : Type} (m : M A) : Prop :=
  ∀ w w' res, m w = (w', res) → extends w w'.

(** ** The model *)

Context {Image Output : Type}.

(** [parse_r] of [opentome.tome.tome] is not among the embedded sources; it
    is a parameter: any function from the number of blocks, [model.r] and
    the total merge target to a fresh schedule list, or an exception. *)
Variable parse_r : nat → rval → option Z → result (list Z).

Record vit := {
  vit_tome_classes : nat;           (* how many classes made by
                                       [make_tome_class] lie between the
                                       class of the model and the class it
                                       was built with *)
  vit_r : rval;                     (* self.r *)
  vit_tome_info : option loc;       (* self._tome_info, if set *)
  vit_cls_token : bool;             (* getattr(model, 'cls_token', None) is not None *)
  vit_dist_token : bool;            (* getattr(model, 'dist_token', None) is not None *)
  vit_embed : Image → tensor3;      (* everything before the blocks *)
  vit_blocks : list block;          (* self.blocks *)
  vit_head : tensor3 → Output       (* everything after the blocks *)
}.

(** [VisionTransformer.forward], the parent's forward *)
Definition VisionTransformer_forward (self : vit) (img : Image) : M Output :=
  x <- run_blocks (vit_blocks self) (vit_embed self img) ;;
  ret (vit_head self x).

(** the three assignments that open [ToMeVisionTransformer.forward] *)
Definition tome_prologue (self : vit) : M unit :=
  l <- attr (vit_tome_info self) ;;
  info <- get_info l ;;
  schedule <- lift (parse_r (length (vit_blocks self)) (vit_r self)
                            (ti_total_merge info)) ;;
  update_info l (set_r (RList schedule)) ;;;
  emit (EvPrologue schedule) ;;;
  update_info l (set_size None) ;;;
  update_info l (set_source None).

(** [make_tome_class(transformer_class)]: the [forward] of the class it
    returns; [super_forward] is the [forward] of [transformer_class] *)
Definition make_tome_class (super_forward : vit → Image → M Output)
    (self : vit) (img : Image) : M Output :=
  tome_prologue self ;;;
  super_forward self img.

(** [ToMeVisionTransformer.forward] of the class made from
    [VisionTransformer]: the class of a model that was patched once *)
Definition ToMeVisionTransformer_forward (self : vit) (img : Image)
  : M Output :=
  make_tome_class VisionTransformer_forward self img.

(** the [forward] of the class that [n] calls of [make_tome_class] stack on
    [VisionTransformer]; every call wraps the class the model has then *)
Fixpoint class_forward (n : nat) : vit → Image → M Output :=
  match n with
  | 0 => VisionTransformer_forward
  | S n => make_tome_class (class_forward n)
  end.

(** the dictionary as the prologue leaves it *)
Definition reset_info (schedule : list Z) (info : tome_info) : tome_info :=
  set_source None (set_size None (set_r (RList schedule) info)).

(** [model(x)] dispatches on the class of the model *)
Definition call_model (self : vit) (img : Image) : M Output :=
  class_forward (vit_tome_classes self) self img.

(** Modelled from the spec: a forward pass of the model with merging
    disabled: the block stack of [blocks_without_merging] between what the
    model does before and after its blocks; no prologue, no [_tome_info]. *)
Definition forward_without_merging (self : vit) (img : Image)
  : result Output :=
  match blocks_without_merging (vit_blocks self) (vit_embed self img) with
  | Ok x => Ok (vit_head self x)
  | Raise e => Raise e
  end.

(** the schedules that the prologues among [evs] installed, in order *)
Definition prologues (evs : list event) : list (list Z) :=
  omap (λ e, match e with EvPrologue s => Some s | _ => None end) evs.

(** C6 as the claim words it: a forward call of the model runs the prologue
    exactly once *)
Definition prologue_runs_once (self : vit) (img : Image) (w : world) : Prop :=
  ∃ evs, trace (call_model self img w).1 = trace w ++ evs ∧
         length (prologues evs) = 1.

(** ** [tome_apply_patch] *)

(** a dictionary display allocates a new dictionary object *)
Definition alloc (i : tome_info) : M loc :=
  λ w, let l := fresh (dom (heap w)) in
       ({| heap := <[l := i]> (heap w); trace := trace w |}, Ok l).

(** [isinstance(module, (Block, TimmBlock))]; [ToMeBlock] is a subclass *)
Definition isinstance_Block (c : block_class) : bool :=
  match c with
  | CBlock | CTimmBlock | CToMeBlock => true
  | COtherModule => false
  end.

(** the [elif] branch, reached in the traversal at the attention submodule *)
Definition patch_attn (m : attn_module) : attn_module :=
  match m with
  | Attn _ a => Attn CToMeAttention a
  | ForeignAttn f => ForeignAttn f
  end.

(** one step of [for module in model.modules()] at a member of
    [model.blocks] and at its attention submodule; modules that are
    instances of neither class are left as they are *)
Definition patch_module (l : loc) (b : block) : block :=
  {| blk_class := if isinstance_Block (blk_class b) then CToMeBlock
                  else blk_class b;
     blk_tome_info := if isinstance_Block (blk_class b) then Some l
                      else blk_tome_info b;
     blk_parent_forward := blk_parent_forward b;
     blk_norm1 := blk_norm1 b;
     blk_attn := patch_attn (blk_attn b);
     blk_ls1 := blk_ls1 b;
     blk_drop_path1 := blk_drop_path1 b;
     blk_drop_path2 := blk_drop_path2 b;
     blk_drop_path := blk_drop_path b;
     blk_norm2 := blk_norm2 b;
     blk_mlp := blk_mlp b;
     blk_ls2 := blk_ls2 b |}.

Definition set_distill_token (v : bool) (i : tome_info) : tome_info :=
  {| ti_r := ti_r i; ti_size := ti_size i; ti_source := ti_source i;
     ti_total_merge := ti_total_merge i; ti_trace_source := ti_trace_source i;
     ti_prop_attn := ti_prop_attn i; ti_class_token := ti_class_token i;
     ti_distill_token := v |}.

(** [tome_apply_patch(model, trace_source, prop_attn)]; the mutated model is
    returned *)
Definition tome_apply_patch (model : vit) (trace_source prop_attn : bool)
  : M vit :=
  l <- alloc {| ti_r := RInt 0;
                ti_size := None;
                ti_source := None;
                ti_total_merge := None;
                ti_trace_source := trace_source;
                ti_prop_attn := prop_attn;
                ti_class_token := vit_cls_token model;
                ti_distill_token := vit_dist_token model |} ;;
  (if vit_dist_token model then update_info l (set_distill_token true)
   else ret tt) ;;;
  ret {| vit_tome_classes := S (vit_tome_classes model);
         vit_r := RInt 0;
         vit_tome_info := Some l;
         vit_cls_token := vit_cls_token model;
         vit_dist_token := vit_dist_token model;
         vit_embed := vit_embed model;
         vit_blocks := map (patch_module l) (vit_blocks model);
         vit_head := vit_head model |}.

(** ** Patched blocks *)

(** a block as [tome_apply_patch] leaves a standard block whose attention
    is a standard attention, with [l] the shared dictionary *)
Definition patched_with (l : loc) (b : block) : Prop :=
  blk_class b = CToMeBlock ∧ blk_tome_info b = Some l ∧
  ∃ a, blk_attn b = Attn CToMeAttention a.

(** ** Forward passes that overlap

    A forward pass of the model is cut at the points where another pass of
    the same model can run in between: after the prologue and after every
    block. *)

Inductive pass :=
| Pending (img : Image)                          (* not started *)
| Running (x : tensor3) (rest : list block)      (* between two blocks *)
| Finished (out : result Output).                (* returned or raised *)

(** the next piece of a pass; an exception ends that pass only *)
Definition pass_step (self : vit) (p : pass) (w : world) : world * pass :=
  match p with
  | Pending img =>
      match tome_prologue self w with
      | (w', Ok _) => (w', Running (vit_embed self img) (vit_blocks self))
      | (w', Raise e) => (w', Finished (Raise e))
      end
  | Running x [] => (w, Finished (Ok (vit_head self x)))
  | Running x (b :: bs) =>
      match call_block b x w with
      | (w', Ok x') => (w', Running x' bs)
      | (w', Raise e) => (w', Finished (Raise e))
      end
  | Finished out => (w, Finished out)
  end.

(** two passes of one model; [order] says which pass moves next *)
Fixpoint interleave (self : vit) (order : list bool) (p1 p2 : pass)
    (w : world) : world * pass * pass :=
  match order with
  | [] => (w, p1, p2)
  | true :: order' =>
      let '(w', p1') := pass_step self p1 w in
      interleave self order' p1' p2 w'
  | false :: order' =>
      let '(w', p2') := pass_step self p2 w in
      interleave self order' p1 p2' w'
  end.

(** Isolation of two overlapping passes, the reading of C7 that is refuted
    below: whatever the order, each pass ends as it would have ended
    alone. *)
Definition passes_isolated (self : vit) (img1 img2 : Image) (w : world)
  : Prop :=
  ∀ order w' o1 o2,
    interleave self order (Pending img1) (Pending img2) w
      = (w', Finished o1, Finished o2) →
    o1 = (ToMeVisionTransformer_forward self img1 w).2 ∧
    o2 = (ToMeVisionTransformer_forward self img2 w).2.

(** ** Shapes *)

(** [t.shape == (B, N, C)] *)
Definition has_shape (t : tensor3) (B N C : nat) : Prop :=
  length t = B ∧
  Forall (λ xb : list vec, length xb = N ∧ Forall (λ v : vec, length v = C) xb) t.

(** [t[b, n, c]] *)
Definition tensor_entry (t : tensor3) (b n c : nat) : option T :=
  match t !! b with
  | Some xb => match xb !! n with
               | Some v => v !! c
               | None => None
               end
  | None => None
  end.

(** the tensor under the key ["metric"] of what attention returns *)
Definition metric_of (out : tensor3 * gmap string pyval) : option tensor3 :=
  match out.2 !! "metric" with
  | Some (PyTensor m) => Some m
  | _ => None
  end.

(** the key projection of a token for head [h], channel [c]: the entry of
    [self.qkv(token)] in the second third of the row *)
Definition key_entry (a : attention) (C : nat) (tok : vec) (h c : nat) : T :=
  let heads := attn_num_heads a in
  default tzero (attn_qkv a tok !! ((1 * heads + h) * (C / heads) + c)).

(** ** Well-formed matchings and the size invariant *)

(** every position below [N] is kept, merged away or a destination, exactly
    once; merged positions go to destinations *)
Definition wf_mapping (N : nat) (mp : merge_mapping) : Prop :=
  mm_keep mp ++ (mm_src mp).*1 ++ mm_dst mp ≡ₚ seq 0 N ∧
  (∀ sd, sd ∈ mm_src mp → sd.2 ∈ mm_dst mp) ∧
  NoDup (mm_dst mp).

(** the size vector in force: all ones until the first merge sets it *)
Definition current_size (info : tome_info) (x : tensor3) : size_tensor :=
  default (ones_like x) (ti_size info).

(** every sample has one size per token and the sizes add up to [N0] *)
Definition size_conserved (N0 : nat) (x : tensor3) (size : size_tensor) : Prop :=
  Forall2 (λ (xb : list vec) (row : list nat),
             length row = length xb ∧ sum_list row = N0) x size.

(** ** The metric with the shape of the input

    The reading of C8 in which the metric has the batch, token and channel
    counts of the tokens given to attention; it is refuted below. *)
Definition metric_has_input_shape (a : attention) (x : tensor3)
    (size : option size_tensor) : Prop :=
  ∀ B N C, has_shape x B N C →
    ∃ m, metric_of (ToMeAttention_forward a x size) = Some m ∧
         has_shape m B N C.

(** ** Reading a trace *)

(** the schedule entries popped along a trace, in the order of the pops *)
Definition popped (evs : list event) : list Z :=
  omap (λ e, match e with EvPop r => Some r | _ => None end) evs.

End Tome.

Abbreviation vec T := (list T) (only parsing).
Abbreviation tensor3 T := (list (list (list T))) (only parsing).
Arguments pyval T : clear implicits.
Arguments attention T : clear implicits.
Arguments rval T : clear implicits.
Arguments tome_info T : clear implicits.
Arguments world T : clear implicits.
Arguments M T A : clear implicits.
Arguments attn_module T : clear implicits.
Arguments block T : clear implicits.
Arguments vit T Image Output : clear implicits.

(** * The throughput harness: [ThroughputBenchmark.run] *)

Module Harness.

(** a cell of a result row *)
Inductive cell (F : Type) :=
| CStr (s : string)
| CInt (z : Z)
| CBool (b : bool)
| CFloat (x : F)
| CNone
| CNaN.                              (* np.nan *)
Arguments CStr {F} s.
Arguments CInt {F} z.
Arguments CBool {F} b.
Arguments CFloat {F} x.
Arguments CNone {F}.
Arguments CNaN {F}.

(** the dictionary appended to [self.results] *)
Record row (F : Type) := {
  model_name : string;
  algorithm : string;
  batch_size : Z;
  seq_len : Z;
  target_total_merge : Z;
  row_h : cell F;
  row_use_naive_local : cell F;
  latency_ms : cell F;
  throughput : cell F;               (* key 'throughput_samples/s' *)
  peak_mem_mb : cell F;
  status : string
}.
Arguments model_name {F} r.
Arguments algorithm {F} r.
Arguments batch_size {F} r.
Arguments seq_len {F} r.
Arguments target_total_merge {F} r.
Arguments row_h {F} r.
Arguments row_use_naive_local {F} r.
Arguments latency_ms {F} r.
Arguments throughput {F} r.
Arguments peak_mem_mb {F} r.
Arguments status {F} r.

(** the keyword arguments collected for the patch function *)
Record patch_kwargs := {
  kw_trace_source : option bool;
  kw_h : option (option Z);
  kw_use_naive_local : option bool;
  kw_prop_attn : option bool
}.

Section Run.

(** [F]: floats; [W]: the state of everything outside the harness (device,
    models, random generator); [Model], [Tensor], [Measurement]: handles. *)
Context {F W Model Tensor Measurement : Type}.

(** the harness object: the outside state and [self.results] *)
Record bench := {
  outside : W;
  results : list (row F)
}.

(** the operations of torch, timm, the patched model and the timer that the
    harness calls; each one acts on the outside state and may raise *)
Record env := {
  cuda_empty_cache : @comp W unit;
  cuda_synchronize : @comp W unit;
  patch_size_of : string → @comp W Z;
  create_model : string → Z → @comp W Model;
  patch_function : string → Model → patch_kwargs → @comp W unit;
  has_tome_info : Model → @comp W bool;
  num_blocks : Model → @comp W nat;
  check_parse_r : nat → Z → Z → F → @comp W F;
  configure_r : Model → F → F → Z → @comp W unit;
  init_kept_num_using_r : Model → nat → Z → @comp W unit;
  randn : Z → Z → @comp W Tensor;
  verbose_pass : Model → Tensor → @comp W unit;
  forward : Model → Tensor → @comp W unit;
  timeit : Model → Tensor → Z → @comp W Measurement;
  reset_peak_memory_stats : @comp W unit;
  max_memory_allocated_mb : @comp W F;
  mean_times_1000 : Measurement → F;
  batch_over_mean : Z → Measurement → @comp W F
}.

Variable E : env.

Definition ALGO_MAP_keys : list string :=
  ["none"; "tome"; "dtem"; "pitome"; "diffrate"].

Definition in_list (s : string) (l : list string) : bool :=
  bool_decide (s ∈ l).

(** an outside operation run from the harness *)
Definition call {A : Type} (m : @comp W A) : @comp bench A :=
  λ b, let '(w, r) := m (outside b) in
       ({| outside := w; results := results b |}, r).

Definition append_row (r : row F) : @comp bench unit :=
  λ b, ({| outside := outside b; results := results b ++ [r] |}, Ok tt).

(** what the [try] block leaves in the four local variables *)
Record outcome := {
  o_latency_ms : cell F;
  o_throughput : cell F;
  o_peak_mem_mb : cell F;
  o_status : string
}.

(** step 2: the keyword arguments of the patch function *)
Definition build_kwargs (algorithm : string) (h : option Z)
    (use_naive_local : bool) : patch_kwargs :=
  let tome := bool_decide (algorithm = "tome") in
  {| kw_trace_source :=
       if in_list algorithm ["tome"; "pitome"; "dtem"] then Some true else None;
     kw_h := if tome then Some h else None;
     kw_use_naive_local := if tome then Some use_naive_local else None;
     kw_prop_attn := if tome then Some false else None |}.

(** the body of the [try] block *)
Definition try_body (model_name : string) (batch_size seq_len : Z)
    (algorithm : string) (total_merge_num : Z)
    (warmup_iters : nat) (benchmark_iters : Z) (inflect : F)
    (h : option Z) (use_naive_local verbose : bool) : @comp bench outcome :=
  (* 1 *)
  patch_size <- call (patch_size_of E model_name) ;;
  (if (seq_len <? 0)%Z then raise ValueError else ret tt) ;;;
  let img_size := (Z.sqrt seq_len * patch_size)%Z in
  model <- call (create_model E model_name img_size) ;;
  (* 2 *)
  call (patch_function E algorithm model
          (build_kwargs algorithm h use_naive_local)) ;;;
  (* 3 *)
  (if (0 <? total_merge_num)%Z && negb (bool_decide (algorithm = "none")) then
     has <- call (has_tome_info E model) ;;
     (if has then ret tt else raise ValueError) ;;;
     n <- call (num_blocks E model) ;;
     if in_list algorithm ["tome"; "pitome"; "dtem"] then
       ratio <- call (check_parse_r E n total_merge_num seq_len inflect) ;;
       call (configure_r E model ratio inflect total_merge_num)
     else if bool_decide (algorithm = "diffrate") then
       call (init_kept_num_using_r E model n total_merge_num)
     else ret tt
   else ret tt) ;;;
  (* 4 *)
  x <- call (randn E batch_size img_size) ;;
  (* 5 *)
  (if verbose then call (verbose_pass E model x) else ret tt) ;;;
  (* 6 *)
  repeat_n warmup_iters (call (forward E model x)) ;;;
  call (cuda_synchronize E) ;;;
  call (reset_peak_memory_stats E) ;;;
  measurement <- call (timeit E model x benchmark_iters) ;;
  peak <- call (max_memory_allocated_mb E) ;;
  thr <- call (batch_over_mean E batch_size measurement) ;;
  ret {| o_latency_ms := CFloat (mean_times_1000 E measurement);
         o_throughput := CFloat thr;
         o_peak_mem_mb := CFloat peak;
         o_status := "success" |}.

(** the [except Exception] handler *)
Definition failed : outcome :=
  {| o_latency_ms := CNaN; o_throughput := CNaN; o_peak_mem_mb := CNaN;
     o_status := "failed" |}.

Definition make_row (model_name : string) (batch_size seq_len : Z)
    (algorithm : string) (total_merge_num : Z) (h : option Z)
    (use_naive_local : bool) (o : outcome) : row F :=
  let tome := bool_decide (algorithm = "tome") in
  {| model_name := model_name;
     algorithm := algorithm;
     batch_size := batch_size;
     seq_len := seq_len;
     target_total_merge := total_merge_num;
     row_h := if tome then match h with Some z => CInt z | None => CNone end
              else CNaN;
     row_use_naive_local :=
       if tome && bool_decide (is_Some h) then CBool use_naive_local else CNaN;
     latency_ms := o_latency_ms o;
     throughput := o_throughput o;
     peak_mem_mb := o_peak_mem_mb o;
     status := o_status o |}.

(** [ThroughputBenchmark.run] *)
Definition run (model_name : string) (batch_size seq_len : Z)
    (algorithm : string) (total_merge_num : Z)
    (warmup_iters : nat) (benchmark_iters : Z) (inflect : F)
    (h : option Z) (use_naive_local verbose : bool) : @comp bench unit :=
  if negb (in_list algorithm ALGO_MAP_keys) then ret tt
  else
    call (cuda_empty_cache E) ;;;
    call (cuda_synchronize E) ;;;
    o <- try_except
           (try_body model_name batch_size seq_len algorithm total_merge_num
                     warmup_iters benchmark_iters inflect h use_naive_local
                     verbose)
           (λ _, ret failed) ;;
    append_row (make_row model_name batch_size seq_len algorithm
                         total_merge_num h use_naive_local o).

(** a harness computation that leaves [self.results] as it is *)
Definition keeps_results {A : Type} (m : @comp bench A) : Prop :=
  ∀ b b' r, m b = (b', r) → results b' = results b.

(** Binding of keyword arguments to the signature
    [tome_apply_patch(model, trace_source=True, prop_attn=True)] of
    [src/opentome/timm/tome.py]: a keyword that names no parameter is a
    [TypeError]; a parameter that is not passed takes its default. *)
Definition bind_tome_kwargs (kw : patch_kwargs) : result (bool * bool) :=
  match kw_h kw, kw_use_naive_local kw with
  | None, None =>
      Ok (default true (kw_trace_source kw), default true (kw_prop_attn kw))
  | _, _ => Raise TypeError
  end.

(** [ALGO_MAP["tome"](model, **patch_kwargs)] with that [tome_apply_patch];
    [body] is what the function does once its arguments are bound *)
Definition call_tome_apply_patch (body : Model → bool → bool → @comp W unit)
    (model : Model) (kw : patch_kwargs) : @comp W unit :=
  match bind_tome_kwargs kw with
  | Ok (trace_source, prop_attn) => body model trace_source prop_attn
  | Raise e => raise e
  end.

(** C9 as the claim words it: whatever is raised while [run] works on a
    known algorithm, the call returns and has appended the row of the
    trial *)
Definition failures_are_recorded : Prop :=
  ∀ model_name batch_size seq_len algorithm total_merge_num
    warmup_iters benchmark_iters inflect h use_naive_local verbose b b' res,
    in_list algorithm ALGO_MAP_keys = true →
    run model_name batch_size seq_len algorithm total_merge_num
        warmup_iters benchmark_iters inflect h use_naive_local verbose b
      = (b', res) →
    res = Ok tt ∧ ∃ r, results b' = results b ++ [r].

(** the configuration a row echoes *)
Definition row_echoes (r : row F) (model_name : string) (batch_size seq_len : Z)
    (algorithm : string) (total_merge_num : Z) : Prop :=
  Harness.model_name r = model_name ∧ Harness.algorithm r = algorithm ∧
  Harness.batch_size r = batch_size ∧ Harness.seq_len r = seq_len ∧
  target_total_merge r = total_merge_num.

End Run.

End Harness.

(** * A small concrete model over integer scalars *)

Module Demo.

#[global] Instance Z_ops : TensorOps Z := {|
  tzero := 0%Z;
  tadd := Z.add;
  tmul := Z.mul;
  tdiv := Z.div;
  tlog := Z.log2;
  tofnat := Z.of_nat;
  tleb := Z.leb;
  softmax := λ row, row;
  similarity := λ u v, foldr Z.add 0%Z (zip_with Z.mul u v);
  sdpa := λ q k v bias p, v
|}.

(** two heads, naive path, [qkv] copies the token three times *)
Definition attn2 : attention Z := {|
  attn_num_heads := 2;
  attn_fused := false;
  attn_training := false;
  attn_scale := 1%Z;
  attn_qkv := λ tok, tok ++ tok ++ tok;
  attn_drop_p := 0%Z;
  attn_drop := λ m, m;
  attn_proj := λ v, v;
  attn_proj_drop := λ v, v
|}.

Definition mk_block (c : block_class) (o : option loc) (a : attn_module Z)
  : block Z := {|
  blk_class := c;
  blk_tome_info := o;
  blk_parent_forward := λ x, Ok x;     (* any forward will do here *)
  blk_norm1 := λ v, v;
  blk_attn := a;
  blk_ls1 := λ v, v;
  blk_drop_path1 := None;
  blk_drop_path2 := None;
  blk_drop_path := λ _ v, v;
  blk_norm2 := λ v, v;
  blk_mlp := λ v, v;
  blk_ls2 := λ v, v
|}.

(** a patched block that reads the dictionary at reference 0 *)
Definition blk : block Z := mk_block CToMeBlock (Some 0) (Attn CToMeAttention attn2).

(** one sample of four tokens with two channels *)
Definition x4 : tensor3 Z := [[ [1; 2]; [3; 4]; [5; 6]; [7; 9] ]]%Z.

Definition info0 (r : rval Z) : tome_info Z := {|
  ti_r := r;
  ti_size := None;
  ti_source := None;
  ti_total_merge := None;
  ti_trace_source := true;
  ti_prop_attn := true;
  ti_class_token := false;
  ti_distill_token := false
|}.

Definition world0 (r : rval Z) : world Z :=
  {| heap := {[ 0 := info0 r ]}; trace := [] |}.

(** what attention returns on [x4] without a size *)
Definition am4 : tensor3 Z * gmap string (pyval Z) :=
  ToMeAttention_forward attn2 x4 None.

(** the planner that asks for [k] merges in every block *)
Definition plan_const (k : Z) (n : nat) (r : rval Z) (total : option Z)
  : result (list Z) := Ok (replicate n k).

(** a patched model of [n] such blocks, images being token sequences *)
Definition vit_of (n : nat) : vit Z (tensor3 Z) (tensor3 Z) := {|
  vit_tome_classes := 1;
  vit_r := RInt 0;
  vit_tome_info := Some 0;
  vit_cls_token := false;
  vit_dist_token := false;
  vit_embed := λ img, img;
  vit_blocks := replicate n blk;
  vit_head := λ x, x
|}.

(** a block whose attention module hands back a string as its metric *)
Definition blk_str : block Z :=
  mk_block CToMeBlock (Some 0)
    (ForeignAttn (λ x _, Ok (x, {[ "metric" := PyStr "none" ]}))).

(** a harness environment in which timing runs out of memory *)
Definition env_oom : @Harness.env Z unit unit unit unit := {|
  Harness.cuda_empty_cache := ret tt;
  Harness.cuda_synchronize := ret tt;
  Harness.patch_size_of := λ _, ret 16%Z;
  Harness.create_model := λ _ _, ret tt;
  Harness.patch_function := λ _ _ _, ret tt;
  Harness.has_tome_info := λ _, ret true;
  Harness.num_blocks := λ _, ret 12;
  Harness.check_parse_r := λ _ _ _ _, ret 0%Z;
  Harness.configure_r := λ _ _ _ _, ret tt;
  Harness.init_kept_num_using_r := λ _ _ _, ret tt;
  Harness.randn := λ _ _, ret tt;
  Harness.verbose_pass := λ _ _, ret tt;
  Harness.forward := λ _ _, ret tt;
  Harness.timeit := λ _ _ _, raise OutOfMemoryError;
  Harness.reset_peak_memory_stats := ret tt;
  Harness.max_memory_allocated_mb := ret 0%Z;
  Harness.mean_times_1000 := λ _, 0%Z;
  Harness.batch_over_mean := λ _ _, ret 0%Z
|}.

Definition bench0 : @Harness.bench Z unit :=
  {| Harness.outside := tt; Harness.results := [] |}.

(** the dictionary with a size vector in place and an empty schedule *)
Definition info_sized (s : list (list nat)) : tome_info Z :=
  set_size (Some s) (info0 (RList [])).

Definition world_sized (s : list (list nat)) : world Z :=
  {| heap := {[ 0 := info_sized s ]}; trace := [] |}.


(** the dictionary and world with source tracing off *)
Definition info_quiet (r : rval Z) : tome_info Z := {|
  ti_r := r;
  ti_size := None;
  ti_source := None;
  ti_total_merge := None;
  ti_trace_source := false;
  ti_prop_attn := true;
  ti_class_token := false;
  ti_distill_token := false
|}.

Definition world_quiet (r : rval Z) : world Z :=
  {| heap := {[ 0 := info_quiet r ]}; trace := [] |}.

(** a world without any dictionary *)
Definition world_empty : world Z := {| heap := ∅; trace := [] |}.

(** a block whose attention module hands back an empty dictionary *)
Definition blk_nokey : block Z :=
  mk_block CToMeBlock (Some 0) (ForeignAttn (λ x _, Ok (x, ∅))).

(** a block whose attention module raises *)
Definition blk_raise : block Z :=
  mk_block CToMeBlock (Some 0) (ForeignAttn (λ _ _, Raise RuntimeError)).

(** the planner that rejects its arguments *)
Definition plan_fail (n : nat) (r : rval Z) (total : option Z)
  : result (list Z) := Raise ValueError.

(** a block and a model as timm builds them, before any patch *)
Definition blk_std : block Z := mk_block CBlock None (Attn CAttention attn2).

Definition vit_std (n : nat) : vit Z (tensor3 Z) (tensor3 Z) := {|
  vit_tome_classes := 0;
  vit_r := RInt 0;
  vit_tome_info := None;
  vit_cls_token := false;
  vit_dist_token := false;
  vit_embed := λ img, img;
  vit_blocks := replicate n blk_std;
  vit_head := λ x, x
|}.

(** [attn2] with another scale, dropout module and path *)
Definition attn2_with (fused : bool) (scale : Z)
    (drop : list (list Z) → list (list Z)) : attention Z := {|
  attn_num_heads := 2;
  attn_fused := fused;
  attn_training := false;
  attn_scale := scale;
  attn_qkv := λ tok, tok ++ tok ++ tok;
  attn_drop_p := 0%Z;
  attn_drop := drop;
  attn_proj := λ v, v;
  attn_proj_drop := λ v, v
|}.

(** an outside operation that leaves its name in a log *)
Definition log {A : Type} (name : string) (a : A) : @comp (list string) A :=
  λ w, (w ++ [name], Ok a).

Definition patch_log (algorithm : string) (model : unit)
    (kw : Harness.patch_kwargs) : @comp (list string) unit :=
  log "patch" tt.

(** [ALGO_MAP] with the [tome_apply_patch] of [opentome/timm/tome.py] under
    ["tome"] *)
Definition patch_src (algorithm : string) (model : unit)
    (kw : Harness.patch_kwargs) : @comp (list string) unit :=
  if String.eqb algorithm "tome" then
    Harness.call_tome_apply_patch (λ _ _ _, log "tome_apply_patch" tt) model kw
  else log "patch" tt.

(** a harness environment over a log of the outside calls *)
Definition env_log (empty_cache synchronize : @comp (list string) unit)
    (patch : string → unit → Harness.patch_kwargs → @comp (list string) unit)
    (has : bool) (timer : @comp (list string) unit)
  : @Harness.env Z (list string) unit unit unit := {|
  Harness.cuda_empty_cache := empty_cache;
  Harness.cuda_synchronize := synchronize;
  Harness.patch_size_of := λ _, log "patch_size" 16%Z;
  Harness.create_model := λ _ _, log "create_model" tt;
  Harness.patch_function := patch;
  Harness.has_tome_info := λ _, log "hasattr" has;
  Harness.num_blocks := λ _, log "len" 12;
  Harness.check_parse_r := λ _ _ _ _, log "check_parse_r" 0%Z;
  Harness.configure_r := λ _ _ _ _, log "configure" tt;
  Harness.init_kept_num_using_r := λ _ _ _, log "init_kept_num" tt;
  Harness.randn := λ _ _, log "randn" tt;
  Harness.verbose_pass := λ _ _, log "verbose" tt;
  Harness.forward := λ _ _, log "forward" tt;
  Harness.timeit := λ _ _ _, timer;
  Harness.reset_peak_memory_stats := log "reset_peak" tt;
  Harness.max_memory_allocated_mb := log "max_memory" 7%Z;
  Harness.mean_times_1000 := λ _, 3%Z;
  Harness.batch_over_mean := λ _ _, log "throughput" 5%Z
|}.

Definition bench_log : @Harness.bench Z (list string) :=
  {| Harness.outside := []; Harness.results := [] |}.

(** a model of one standard block after two calls of [tome_apply_patch] *)
Definition patched_twice
  : world Z * result (vit Z (tensor3 Z) (tensor3 Z)) :=
  (m1 <- tome_apply_patch (vit_std 1) true true ;;
   tome_apply_patch m1 true true) world_empty.

End Demo.


(** * Theorems *)

Section TomeTheory.

Context {T : Type} `{TensorOps T} {Image Output : Type}.
Variable parse_r : nat → rval T → option Z → result (list Z).

Lemma lookup_map {A B : Type} (f : A → B) (l : list A) i :
  map f l !! i = f <$> l !! i.
Proof. apply list_lookup_fmap. Qed.

Ltac munfold :=
  unfold ToMeBlock_forward, ToMeBlock_attend, call_attn, pop_r, call_matcher,
    assert_, attr, get_info, update_info, emit, bind, ret, raise, lift.

(** ** One block, step by step *)

Lemma attend_ok (self : block T) l x (w : world T) info r :
  heap w !! l = Some info →
  attn_result (blk_attn self) (per_token (blk_norm1 self) x) (attn_size_arg info)
    = Ok r →
  ToMeBlock_attend self l x w =
    ({| heap := heap w; trace := trace w ++ [EvAttend (attn_size_arg info)] |},
     Ok r).
Proof.
  intros Hl Ha. munfold. rewrite Hl. cbn. rewrite Ha. reflexivity.
Qed.

Lemma pop_r_cons l (w : world T) info r rs :
  heap w !! l = Some info →
  ti_r info = RList (r :: rs) →
  pop_r l w =
    ({| heap := <[l := set_r (RList rs) info]> (heap w);
        trace := trace w ++ [EvPop r] |}, Ok r).
Proof.
  intros Hl Hr. munfold. rewrite Hl. cbn. rewrite Hr. cbn. rewrite Hl.
  reflexivity.
Qed.

(** the block when the popped entry asks for no merge *)
Lemma forward_skip (self : block T) x (w : world T) l info r rs x_attn metric v :
  blk_tome_info self = Some l →
  heap w !! l = Some info →
  ti_r info = RList (r :: rs) →
  attn_result (blk_attn self) (per_token (blk_norm1 self) x) (attn_size_arg info)
    = Ok (x_attn, metric) →
  metric !! "metric" = Some v →
  isinstance_float_or_Tensor v = true →
  (r <= 0)%Z →
  ToMeBlock_forward self x w =
    ({| heap := <[l := set_r (RList rs) info]> (heap w);
        trace := trace w ++ [EvAttend (attn_size_arg info); EvResidual1;
                             EvPop r; EvMlp] |},
     Ok (residual2 self (residual1 self x x_attn))).
Proof.
  intros Hb Hl Hr Ha Hm Hv Hle.
  unfold ToMeBlock_forward. rewrite Hb. unfold attr, bind at 1, ret at 1.
  unfold bind at 1. rewrite (attend_ok self l x w info _ Hl Ha).
  rewrite Hm. unfold bind at 1, ret at 1. rewrite Hv.
  unfold assert_, bind at 1, ret at 1.
  unfold bind at 1, emit at 1. cbn [heap trace].
  unfold bind at 1.
  erewrite pop_r_cons; [| cbn; exact Hl | exact Hr ].
  assert ((0 <? r)%Z = false) as -> by lia.
  unfold bind, ret, emit. cbn. rewrite <- !app_assoc. reflexivity.
Qed.

(** the block when the popped entry asks for a merge *)
Lemma forward_merge (self : block T) x (w : world T) l info r rs x_attn metric m :
  blk_tome_info self = Some l →
  heap w !! l = Some info →
  ti_r info = RList (r :: rs) →
  attn_result (blk_attn self) (per_token (blk_norm1 self) x) (attn_size_arg info)
    = Ok (x_attn, metric) →
  metric !! "metric" = Some (PyTensor m) →
  (0 < r)%Z →
  let out := merge_branch (set_r (RList rs) info) m r (residual1 self x x_attn) in
  ToMeBlock_forward self x w =
    ({| heap := <[l := out.1]> (heap w);
        trace := trace w ++ [EvAttend (attn_size_arg info); EvResidual1;
                             EvPop r; EvMatch r]
                   ++ (if ti_trace_source info then [EvTraceSource] else [])
                   ++ [EvApply; EvMlp] |},
     Ok (residual2 self out.2)).
Proof.
  intros Hb Hl Hr Ha Hm Hlt out. subst out.
  unfold ToMeBlock_forward. rewrite Hb. unfold attr, bind at 1, ret at 1.
  unfold bind at 1. rewrite (attend_ok self l x w info _ Hl Ha).
  rewrite Hm. unfold bind at 1, ret at 1.
  unfold assert_, isinstance_float_or_Tensor, bind at 1, ret at 1.
  unfold bind at 1, emit at 1. cbn [heap trace].
  unfold bind at 1.
  erewrite pop_r_cons; [| cbn; exact Hl | exact Hr ].
  assert ((0 <? r)%Z = true) as -> by lia.
  unfold merge_branch, call_matcher, get_info, update_info, bind, ret, emit.
  cbn. rewrite !lookup_insert_eq. cbn.
  destruct (ti_trace_source info) eqn:Ets; cbn;
    repeat (rewrite lookup_insert_eq; cbn);
    rewrite !insert_insert_eq, <- !app_assoc; reflexivity.
Qed.

(** ** Shapes: the number of tokens of every sample *)

Lemma token_counts_imap {A B : Type} (g : nat → list A → list B) (x : list (list A)) :
  (∀ b xb, length (g b xb) = length xb) →
  map length (imap g x) = map length x.
Proof.
  intros Hg. revert g Hg. induction x as [| xb x IH]; intros g Hg; [done |].
  cbn. rewrite Hg. f_equal. apply IH. intros b xb'. apply Hg.
Qed.

Lemma token_counts_per_token (f : vec T → vec T) (x : tensor3 T) :
  map length (per_token f x) = map length x.
Proof.
  unfold per_token. rewrite map_map. apply map_ext. intros xb.
  apply length_map.
Qed.

Lemma token_counts_per_sample (f : nat → vec T → vec T) (x : tensor3 T) :
  map length (per_sample f x) = map length x.
Proof.
  unfold per_sample. apply token_counts_imap. intros b xb. apply length_map.
Qed.

Lemma token_counts_add (x y : tensor3 T) :
  map length y = map length x →
  map length (tensor_add x y) = map length x.
Proof.
  unfold tensor_add. revert y. induction x as [| xb x IH]; intros [| yb y] E;
    try discriminate; [done |].
  cbn in *. injection E as E1 E2. rewrite length_zip_with, E1, Nat.min_id.
  f_equal. by apply IH.
Qed.

Lemma token_counts_drop_path1 (self : block T) (x : tensor3 T) :
  map length (_drop_path1 self x) = map length x.
Proof.
  unfold _drop_path1. destruct (blk_drop_path1 self);
    apply token_counts_per_sample.
Qed.

Lemma token_counts_drop_path2 (self : block T) (x : tensor3 T) :
  map length (_drop_path2 self x) = map length x.
Proof.
  unfold _drop_path2. destruct (blk_drop_path2 self);
    apply token_counts_per_sample.
Qed.

Lemma token_counts_residual1 (self : block T) (x x_attn : tensor3 T) :
  map length x_attn = map length x →
  map length (residual1 self x x_attn) = map length x.
Proof.
  intros E. unfold residual1. apply token_counts_add.
  by rewrite token_counts_drop_path1, token_counts_per_token.
Qed.

Lemma token_counts_residual2 (self : block T) (x : tensor3 T) :
  map length (residual2 self x) = map length x.
Proof.
  unfold residual2. apply token_counts_add.
  by rewrite token_counts_drop_path2, !token_counts_per_token.
Qed.

(** the block when a merge is asked for and the metric is a scalar: the
    entry is consumed, then the matcher fails *)
Lemma forward_scalar (self : block T) x (w : world T) l info r rs x_attn metric t :
  blk_tome_info self = Some l →
  heap w !! l = Some info →
  ti_r info = RList (r :: rs) →
  attn_result (blk_attn self) (per_token (blk_norm1 self) x) (attn_size_arg info)
    = Ok (x_attn, metric) →
  metric !! "metric" = Some (PyFloat t) →
  (0 < r)%Z →
  ToMeBlock_forward self x w =
    ({| heap := <[l := set_r (RList rs) info]> (heap w);
        trace := trace w ++ [EvAttend (attn_size_arg info); EvResidual1;
                             EvPop r] |},
     Raise AttributeError).
Proof.
  intros Hb Hl Hr Ha Hm Hlt.
  unfold ToMeBlock_forward. rewrite Hb. unfold attr, bind at 1, ret at 1.
  unfold bind at 1. rewrite (attend_ok self l x w info _ Hl Ha).
  rewrite Hm. unfold bind at 1, ret at 1.
  unfold assert_, isinstance_float_or_Tensor, bind at 1, ret at 1.
  unfold bind at 1, emit at 1. cbn [heap trace].
  unfold bind at 1.
  erewrite pop_r_cons; [| cbn; exact Hl | exact Hr ].
  assert ((0 <? r)%Z = true) as -> by lia.
  unfold call_matcher, get_info, bind, ret, raise. cbn.
  rewrite lookup_insert_eq. cbn. rewrite <- !app_assoc. reflexivity.
Qed.

(** ** Schedule consumption *)

(** C2. A block whose attention hands back a float or tensor metric removes
    exactly the first entry of the shared schedule, whatever the entry is
    and whatever happens afterwards; the pop is recorded after the attention
    call and the first residual and no second pop follows.  When the entry
    is not positive (in particular 0) nothing but the feed-forward step
    follows: the dictionary is otherwise untouched and, for an attention
    output with the token counts of the input, the block returns a sequence
    with the token counts of its input. *)
Theorem block_pops_exactly_one_entry
    (self : block T) x (w : world T) l info r rs x_attn metric v :
  blk_tome_info self = Some l →
  heap w !! l = Some info →
  ti_r info = RList (r :: rs) →
  attn_result (blk_attn self) (per_token (blk_norm1 self) x) (attn_size_arg info)
    = Ok (x_attn, metric) →
  metric !! "metric" = Some v →
  isinstance_float_or_Tensor v = true →
  ∃ w' res rest,
    ToMeBlock_forward self x w = (w', res) ∧
    ti_r <$> heap w' !! l = Some (RList rs) ∧
    trace w' = trace w ++ [EvAttend (attn_size_arg info); EvResidual1; EvPop r]
                 ++ rest ∧
    Forall (λ e, is_pop e = false ∧ is_attend e = false) rest ∧
    ((r <= 0)%Z →
       rest = [EvMlp] ∧
       heap w' = <[l := set_r (RList rs) info]> (heap w) ∧
       res = Ok (residual2 self (residual1 self x x_attn)) ∧
       (map length x_attn = map length x →
        map length (residual2 self (residual1 self x x_attn)) = map length x)).
Proof.
  intros Hb Hl Hr Ha Hm Hv.
  destruct (Z_le_gt_dec r 0) as [Hle | Hgt].
  - eexists _, _, [EvMlp]. split.
    { eapply forward_skip; eauto. }
    cbn. rewrite lookup_insert_eq. cbn. split_and!; auto.
    intros _. split_and!; auto.
    intros E. rewrite token_counts_residual2.
    by apply token_counts_residual1.
  - destruct v as [| | t | | m]; try discriminate.
    + eexists _, _, []. split.
      { eapply forward_scalar; eauto. lia. }
      cbn. rewrite lookup_insert_eq. cbn. split_and!; auto. lia.
    + eexists _, _, ([EvMatch r]
                     ++ (if ti_trace_source info then [EvTraceSource] else [])
                     ++ [EvApply; EvMlp]).
      split.
      { eapply forward_merge; eauto. lia. }
      cbn [heap trace]. rewrite lookup_insert_eq. split_and!.
      * unfold merge_branch. cbn. by destruct (ti_trace_source info).
      * reflexivity.
      * destruct (ti_trace_source info); repeat constructor.
      * lia.
Qed.

(** ** A failed metric check *)

Lemma run_blocks_app (pre post : list (block T)) x (w : world T) :
  run_blocks (pre ++ post) x w =
    match run_blocks pre x w with
    | (w', Ok x') => run_blocks post x' w'
    | (w', Raise e) => (w', Raise e)
    end.
Proof.
  revert x w. induction pre as [| b pre IH]; intros x w; [done |].
  cbn [run_blocks app]. unfold bind.
  destruct (call_block b x w) as [w1 [x1 | e]]; [apply IH | done].
Qed.

(** C5. When the value under ["metric"] is neither a float nor a tensor,
    the block raises [AssertionError] right after the attention call: the
    schedule is not popped, the dictionary is untouched, and no match, merge
    or feed-forward step is recorded.  The exception leaves the block stack:
    the blocks after it do not run. *)
Theorem non_numeric_metric_aborts
    (self : block T) x (w : world T) l info x_attn metric v
    (pre post : list (block T)) x0 (w0 : world T) :
  blk_class self = CToMeBlock →
  blk_tome_info self = Some l →
  heap w !! l = Some info →
  attn_result (blk_attn self) (per_token (blk_norm1 self) x) (attn_size_arg info)
    = Ok (x_attn, metric) →
  metric !! "metric" = Some v →
  isinstance_float_or_Tensor v = false →
  run_blocks pre x0 w0 = (w, Ok x) →
  let w' := {| heap := heap w;
               trace := trace w ++ [EvAttend (attn_size_arg info)] |} in
  let err := AssertionError "metric not a float or torch.Tensor" in
  ToMeBlock_forward self x w = (w', Raise err) ∧
  run_blocks (pre ++ self :: post) x0 w0 = (w', Raise err) ∧
  Forall (λ e, is_merge_or_mlp e = false ∧ is_pop e = false)
         [EvAttend (attn_size_arg info)].
Proof.
  intros Hc Hb Hl Ha Hm Hv Hpre w' err.
  assert (ToMeBlock_forward self x w = (w', Raise err)) as Hfw.
  { unfold ToMeBlock_forward. rewrite Hb. unfold attr, bind at 1, ret at 1.
    unfold bind at 1. rewrite (attend_ok self l x w info _ Hl Ha).
    rewrite Hm. unfold bind at 1, ret at 1. rewrite Hv.
    reflexivity. }
  split_and!; [done | | repeat constructor].
  rewrite run_blocks_app, Hpre. cbn [run_blocks]. unfold bind at 1.
  unfold call_block. rewrite Hc, Hfw. reflexivity.
Qed.

(** ** Proportional attention *)

Lemma biased_scores (a : attention T) (sb : list nat) (q k : list (vec T)) :
  attn_scores a (Some (map (λ sj, tlog (tofnat sj)) sb)) q k =
    map (λ qi, zip_with (λ kj sj, tadd (tmul (dot qi kj) (attn_scale a))
                                       (tlog (tofnat sj))) k sb) q.
Proof.
  unfold attn_scores. rewrite map_map. apply map_ext. intros qi.
  revert sb. induction k as [| kj k IH]; intros [| sj sb]; cbn; try done.
  by rewrite IH.
Qed.

(** C3. With the mode on, the block hands the size stored in the dictionary
    to [ToMeAttention.forward] and returns what it returns.  For a size of
    the shape of the tokens, the output of that call at a sample is built
    from scores that are, for query [i] and key [j], the scaled dot product
    plus [log] of the size of key [j] (naive path, before the softmax), or
    from the kernel run with that row of logarithms as its additive mask
    (fused path).  With the mode off, the block calls attention without a
    size, and what it returns is the same whatever size the dictionary
    holds. *)
Theorem proportional_attention_bias
    (self : block T) (a : attention T) l x (w : world T) info :
  blk_attn self = Attn CToMeAttention a →
  heap w !! l = Some info →
  let xn := per_token (blk_norm1 self) x in
  (ti_prop_attn info = true →
     ToMeBlock_attend self l x w =
       ({| heap := heap w; trace := trace w ++ [EvAttend (ti_size info)] |},
        Ok (ToMeAttention_forward a xn (ti_size info)))) ∧
  (ti_prop_attn info = false →
     ToMeBlock_attend self l x w =
       ({| heap := heap w; trace := trace w ++ [EvAttend None] |},
        Ok (ToMeAttention_forward a xn None)) ∧
     ∀ s, (ToMeBlock_attend self l x (with_size s l w)).2 =
          Ok (ToMeAttention_forward a xn None)) ∧
  (∀ (s : size_tensor) b xb sb,
     xn !! b = Some xb →
     s !! b = Some sb →
     length sb = length xb →
     let heads := attn_num_heads a in
     let hd := channels xn / heads in
     let part t h := default [] (qkv_heads a (channels xn) t xb !! h) in
     let scores h :=
       map (λ qi, zip_with (λ kj sj, tadd (tmul (dot qi kj) (attn_scale a))
                                          (tlog (tofnat sj)))
                           (part 1 h) sb)
           (part 0 h) in
     let head_out h :=
       if attn_fused a
       then sdpa (part 0 h) (part 1 h) (part 2 h)
                 (Some (map (λ sj, tlog (tofnat sj)) sb))
                 (if attn_training a then attn_drop_p a else tzero)
       else attn_apply hd (attn_drop a (map softmax (scores h))) (part 2 h) in
     (ToMeAttention_forward a xn (Some s)).1 !! b =
       Some (map (attn_proj_drop a)
               (map (attn_proj a)
                  (merge_heads (length xb) (map head_out (seq 0 heads)))))).
Proof.
  intros Ha Hl xn. split_and!.
  - intros Hp. unfold ToMeBlock_attend, get_info, bind. rewrite Hl.
    unfold attn_size_arg. rewrite Hp.
    unfold call_attn, bind, lift, emit, ret. by rewrite Ha.
  - intros Hp. split.
    + unfold ToMeBlock_attend, get_info, bind. rewrite Hl.
      unfold attn_size_arg. rewrite Hp.
      unfold call_attn, bind, lift, emit, ret. by rewrite Ha.
    + intros s. unfold ToMeBlock_attend, get_info, bind, with_size.
      cbn [heap trace]. rewrite lookup_alter_eq, Hl. cbn.
      unfold attn_size_arg. cbn. rewrite Hp.
      unfold call_attn, bind, lift, emit, ret. by rewrite Ha.
  - intros s b xb sb Hb Hs _ heads hd part scores head_out.
    unfold ToMeAttention_forward. cbn [fst].
    rewrite lookup_map, list_lookup_imap, Hb. cbn [fmap option_fmap option_map].
    unfold attention_sample. cbn [fst fmap option_fmap option_map].
    do 4 f_equal. apply map_ext. intros h.
    unfold head_out, scores, part, hd, heads, log_size_row. rewrite Hs.
    cbn [default]. destruct (attn_fused a); [reflexivity |].
    unfold naive_head. by rewrite biased_scores.
Qed.

(** ** What a forward pass may change *)

Lemma extends_refl (w : world T) : extends w w.
Proof. split; [done |]. exists []. by rewrite app_nil_r. Qed.

Lemma extends_trans (w1 w2 w3 : world T) :
  extends w1 w2 → extends w2 w3 → extends w1 w3.
Proof.
  intros [H1 (e1 & E1 & F1)] [H2 (e2 & E2 & F2)]. split.
  - intros l. by rewrite H2, H1.
  - exists (e1 ++ e2). rewrite E2, E1, app_assoc. split; [done |].
    by apply Forall_app.
Qed.

Lemma frame_ret {A : Type} (a : A) : frame (ret a : M T A).
Proof. intros w w' res [= <- _]. apply extends_refl. Qed.

Lemma frame_raise {A : Type} (e : pyexn) : frame (raise e : M T A).
Proof. intros w w' res [= <- _]. apply extends_refl. Qed.

Lemma frame_lift {A : Type} (r : result A) : frame (lift r : M T A).
Proof. intros w w' res [= <- _]. apply extends_refl. Qed.

Lemma frame_bind {A B : Type} (m : M T A) (k : A → M T B) :
  frame m → (∀ a, frame (k a)) → frame (bind m k).
Proof.
  intros Hm Hk w w' res. unfold bind.
  destruct (m w) as [w1 [a | e]] eqn:Em.
  - intros Ek. eapply extends_trans; [by eapply Hm | by eapply Hk].
  - intros [= <- _]. by eapply Hm.
Qed.

Lemma frame_emit (e : event) : is_prologue e = false → frame (emit e : M T unit).
Proof.
  intros He w w' res [= <- _]. split; [done |]. exists [e]. cbn.
  split; [done |]. by constructor.
Qed.

Lemma frame_get_info l : frame (get_info l : M T (tome_info T)).
Proof.
  intros w w' res. unfold get_info.
  destruct (heap w !! l); intros [= <- _]; apply extends_refl.
Qed.

Lemma frame_update_info l (f : tome_info T → tome_info T) :
  (∀ i, config (f i) = config i) → frame (update_info l f).
Proof.
  intros Hf w w' res. unfold update_info.
  destruct (heap w !! l) as [i |] eqn:El; intros [= <- _];
    [| apply extends_refl].
  split; cbn.
  - intros l'. destruct (decide (l = l')) as [<- | Hne].
    + rewrite lookup_insert_eq, El. cbn. by rewrite Hf.
    + by rewrite lookup_insert_ne.
  - exists []. by rewrite app_nil_r.
Qed.

Lemma frame_attr (o : option loc) : frame (attr o : M T loc).
Proof. destruct o; [apply frame_ret | apply frame_raise]. Qed.

Lemma frame_assert (b : bool) msg : frame (assert_ b msg : M T unit).
Proof. destruct b; [apply frame_ret | apply frame_raise]. Qed.

Ltac frame_step :=
  first
    [ apply frame_ret | apply frame_raise | apply frame_lift
    | apply frame_get_info | apply frame_attr | apply frame_assert
    | apply frame_emit; reflexivity
    | apply frame_update_info; intros []; reflexivity
    | apply frame_bind; [| intros ?] ].

Lemma frame_pop_r l : frame (pop_r l : M T Z).
Proof.
  unfold pop_r. apply frame_bind; [frame_step |]. intros info.
  destruct (ti_r info) as [| | [| r rs]]; repeat frame_step.
Qed.

Lemma frame_ToMeBlock_forward (self : block T) x :
  frame (ToMeBlock_forward self x).
Proof.
  unfold ToMeBlock_forward, ToMeBlock_attend, call_attn, call_matcher.
  apply frame_bind; [frame_step |]. intros l.
  apply frame_bind; [repeat frame_step |]. intros [x_attn metric].
  apply frame_bind; [destruct (metric !! "metric"); frame_step |]. intros v.
  apply frame_bind; [frame_step |]. intros _.
  apply frame_bind; [frame_step |]. intros _.
  apply frame_bind; [apply frame_pop_r |]. intros r.
  apply frame_bind; [| intros ?; repeat frame_step].
  destruct (0 <? r)%Z; [| frame_step].
  apply frame_bind; [frame_step |]. intros info.
  apply frame_bind; [destruct v; repeat frame_step |]. intros merge.
  apply frame_bind; [destruct (ti_trace_source info); repeat frame_step |].
  intros _. repeat frame_step.
Qed.

Lemma frame_Block_forward (self : block T) x : frame (Block_forward self x).
Proof.
  unfold Block_forward. apply frame_lift.
Qed.

Lemma frame_call_block (b : block T) x : frame (call_block b x).
Proof.
  unfold call_block.
  destruct (blk_class b);
    first [apply frame_ToMeBlock_forward | apply frame_Block_forward].
Qed.

Lemma frame_run_blocks (blocks : list (block T)) x : frame (run_blocks blocks x).
Proof.
  revert x. induction blocks as [| b bs IH]; intros x; cbn [run_blocks].
  - frame_step.
  - apply frame_bind; [apply frame_call_block | intros x'; apply IH].
Qed.

(** ** The prologue of the model's forward *)

Lemma prologue_ok (self : vit T Image Output) (w : world T) l info sched :
  vit_tome_info self = Some l →
  heap w !! l = Some info →
  parse_r (length (vit_blocks self)) (vit_r self) (ti_total_merge info)
    = Ok sched →
  tome_prologue parse_r self w =
    ({| heap := <[l := reset_info sched info]> (heap w);
        trace := trace w ++ [EvPrologue sched] |}, Ok tt).
Proof.
  intros Hs Hl Hp. unfold tome_prologue. rewrite Hs.
  unfold attr, get_info, update_info, emit, lift, bind, ret. rewrite Hl, Hp.
  cbn. rewrite Hl. cbn. rewrite !lookup_insert_eq. cbn.
  rewrite !lookup_insert_eq. cbn. by rewrite !insert_insert_eq.
Qed.

Lemma frame_VisionTransformer_forward (self : vit T Image Output) img :
  frame (VisionTransformer_forward self img).
Proof.
  unfold VisionTransformer_forward.
  apply frame_bind; [apply frame_run_blocks | intros ?; apply frame_ret].
Qed.

Lemma reset_info_config (info info' : tome_info T) sched :
  config info' = config info → reset_info sched info' = reset_info sched info.
Proof.
  destruct info, info'. unfold config. cbn. intros Hc.
  unfold reset_info, set_source, set_size, set_r. cbn. congruence.
Qed.

Lemma class_forward_prologues (self : vit T Image Output) img l sched n :
  vit_tome_info self = Some l →
  ∀ (w : world T) info,
    heap w !! l = Some info →
    parse_r (length (vit_blocks self)) (vit_r self) (ti_total_merge info)
      = Ok sched →
    class_forward parse_r (S n) self img w =
      VisionTransformer_forward self img
        {| heap := <[l := reset_info sched info]> (heap w);
           trace := trace w ++ replicate (S n) (EvPrologue sched) |}.
Proof.
  intros Hs. induction n as [| n IH]; intros w info Hl Hp.
  - cbn [class_forward replicate]. unfold make_tome_class, bind.
    by rewrite (prologue_ok self w l info sched Hs Hl Hp).
  - change (class_forward parse_r (S (S n)) self img w)
      with (make_tome_class parse_r (class_forward parse_r (S n)) self img w).
    unfold make_tome_class, bind at 1.
    rewrite (prologue_ok self w l info sched Hs Hl Hp).
    rewrite (IH _ (reset_info sched info)); [| apply lookup_insert_eq | done].
    cbn [heap trace]. rewrite insert_insert_eq, <- app_assoc. reflexivity.
Qed.

Lemma prologues_app (e1 e2 : list event) :
  prologues (e1 ++ e2) = prologues e1 ++ prologues e2.
Proof. apply omap_app. Qed.

Lemma prologues_replicate n sched :
  prologues (replicate n (EvPrologue sched)) = replicate n sched.
Proof. induction n as [| n IH]; [done |]. cbn. by rewrite <- IH. Qed.

Lemma prologues_none (evs : list event) :
  Forall (λ e, is_prologue e = false) evs → prologues evs = [].
Proof.
  induction 1 as [| e evs He _ IH]; [done |].
  destruct e; try discriminate He; exact IH.
Qed.

(** C6. A forward call on a model whose class was made by [make_tome_class]
    first derives the schedule from the configuration, stores it, and
    resets size and source; the block stack then runs from that dictionary.
    Every class that [make_tome_class] stacked on the model contributes one
    run of the prologue, all of them before every other step and all with
    the same result: a model patched once runs the prologue exactly once, a
    model patched more often does not.  The dictionary the blocks start
    from is determined by the derived schedule and the read-only entries
    alone, so nothing of an earlier call is carried over; and when the call
    is over, a second call with the same configuration derives the same
    schedule. *)
Theorem forward_prologue_resets_state
    (self : vit T Image Output) img (w : world T) l info sched k :
  vit_tome_classes self = S k →
  vit_tome_info self = Some l →
  heap w !! l = Some info →
  parse_r (length (vit_blocks self)) (vit_r self) (ti_total_merge info)
    = Ok sched →
  let w0 := {| heap := <[l := reset_info sched info]> (heap w);
               trace := trace w ++ replicate (S k) (EvPrologue sched) |} in
  call_model parse_r self img w = VisionTransformer_forward self img w0 ∧
  (∃ evs, trace (call_model parse_r self img w).1 =
            trace w ++ replicate (S k) (EvPrologue sched) ++ evs ∧
          Forall (λ e, is_prologue e = false) evs) ∧
  (prologue_runs_once parse_r self img w ↔ k = 0) ∧
  (∀ info', config info' = config info →
            reset_info sched info' = reset_info sched info) ∧
  (∀ w1 res, call_model parse_r self img w = (w1, res) →
     ∃ evs1, trace (call_model parse_r self img w1).1 =
               trace w1 ++ replicate (S k) (EvPrologue sched) ++ evs1 ∧
             Forall (λ e, is_prologue e = false) evs1).
Proof.
  intros Hk Hs Hl Hp w0.
  assert (∀ (w : world T) info,
            heap w !! l = Some info →
            parse_r (length (vit_blocks self)) (vit_r self)
                    (ti_total_merge info) = Ok sched →
            call_model parse_r self img w =
              VisionTransformer_forward self img
                {| heap := <[l := reset_info sched info]> (heap w);
                   trace := trace w ++ replicate (S k) (EvPrologue sched) |})
    as Hfw.
  { intros w2 info2 Hl2 Hp2. unfold call_model. rewrite Hk.
    by apply class_forward_prologues. }
  assert (∀ (w : world T) info,
            heap w !! l = Some info →
            parse_r (length (vit_blocks self)) (vit_r self)
                    (ti_total_merge info) = Ok sched →
            ∃ evs, trace (call_model parse_r self img w).1 =
                     trace w ++ replicate (S k) (EvPrologue sched) ++ evs ∧
                   Forall (λ e, is_prologue e = false) evs) as Htr.
  { intros w2 info2 Hl2 Hp2. rewrite (Hfw w2 info2 Hl2 Hp2).
    destruct (VisionTransformer_forward self img _) as [w3 res] eqn:Ev.
    apply frame_VisionTransformer_forward in Ev as [_ (evs & Et & Hf)].
    exists evs. cbn [fst heap trace] in *. by rewrite Et, <- app_assoc. }
  split_and!.
  - by apply Hfw.
  - by apply (Htr w info).
  - destruct (Htr w info Hl Hp) as (evs & Et & Hf).
    assert (length (prologues (replicate (S k) (EvPrologue sched) ++ evs))
              = S k) as Hcount.
    { rewrite prologues_app, prologues_replicate, (prologues_none evs Hf).
      by rewrite app_nil_r, length_replicate. }
    split.
    + intros (evs' & Et' & Hn). rewrite Et in Et'.
      apply app_inv_head in Et'. rewrite <- Et', Hcount in Hn. lia.
    + intros ->. eexists. split; [exact Et | exact Hcount].
  - intros info'. apply reset_info_config.
  - intros w1 res Hrun. rewrite (Hfw w info Hl Hp) in Hrun.
    apply frame_VisionTransformer_forward in Hrun as [Hcfg _].
    specialize (Hcfg l). cbn in Hcfg. rewrite lookup_insert_eq in Hcfg.
    destruct (heap w1 !! l) as [info1 |] eqn:Hl1; [| done].
    apply (Htr w1 info1 Hl1). cbn in Hcfg.
    assert (ti_total_merge info1 = ti_total_merge info) as ->; [| done].
    unfold config in Hcfg. cbn in Hcfg. congruence.
Qed.

(** ** Installation of the patch *)

Lemma forward_pops_head
    (self : block T) x (w : world T) l info r rs x_attn metric v :
  blk_tome_info self = Some l →
  heap w !! l = Some info →
  ti_r info = RList (r :: rs) →
  attn_result (blk_attn self) (per_token (blk_norm1 self) x) (attn_size_arg info)
    = Ok (x_attn, metric) →
  metric !! "metric" = Some v →
  isinstance_float_or_Tensor v = true →
  ∃ info', heap (ToMeBlock_forward self x w).1 !! l = Some info' ∧
           ti_r info' = RList rs.
Proof.
  intros Hb Hl Hr Ha Hm Hv.
  destruct (Z_le_gt_dec r 0) as [Hle | Hgt].
  - erewrite forward_skip by eauto. cbn. rewrite lookup_insert_eq. eauto.
  - destruct v as [| | t | | m]; try discriminate.
    + erewrite forward_scalar by (eauto; lia). cbn.
      rewrite lookup_insert_eq. eauto.
    + erewrite forward_merge by (eauto; lia). cbn [fst heap].
      rewrite lookup_insert_eq. eexists; split; [done |].
      unfold merge_branch. cbn. by destruct (ti_trace_source info).
Qed.

Lemma patch_module_class l (b : block T) :
  blk_class (patch_module l b) = CToMeBlock →
  blk_tome_info (patch_module l b) = Some l.
Proof.
  unfold patch_module. cbn. destruct (blk_class b); cbn; congruence.
Qed.

Lemma tome_apply_patch_eq (model0 : vit T Image Output) ts pa (w0 : world T) :
  let l := fresh (dom (heap w0)) in
  ∃ info0,
    heap w0 !! l = None ∧
    tome_apply_patch model0 ts pa w0 =
      ({| heap := <[l := info0]> (heap w0); trace := trace w0 |},
       Ok {| vit_tome_classes := S (vit_tome_classes model0);
             vit_r := RInt 0;
             vit_tome_info := Some l;
             vit_cls_token := vit_cls_token model0;
             vit_dist_token := vit_dist_token model0;
             vit_embed := vit_embed model0;
             vit_blocks := map (patch_module l) (vit_blocks model0);
             vit_head := vit_head model0 |}).
Proof.
  intros l.
  assert (heap w0 !! l = None) as Hfresh.
  { apply not_elem_of_dom. apply is_fresh. }
  unfold tome_apply_patch, alloc, bind. fold l.
  destruct (vit_dist_token model0) eqn:Ed.
  - eexists. split; [done |]. unfold update_info, ret. cbn.
    rewrite lookup_insert_eq. cbn. rewrite insert_insert_eq. reflexivity.
  - eexists. split; [done |]. reflexivity.
Qed.

(** C10. [tome_apply_patch] creates one new dictionary; the model refers to
    it, every member of [model.blocks] that is a [Block] becomes a
    [ToMeBlock], and every [ToMeBlock] of the patched model refers to that
    same dictionary.  Hence the entry popped by one block is gone when the
    dictionary is read through any other block or through the model, and an
    assignment made through the model's reference is what a block reads
    through its own. *)
Theorem patched_blocks_share_tome_info
    (model0 : vit T Image Output) ts pa (w0 : world T) :
  ∃ l info0 model,
    tome_apply_patch model0 ts pa w0 =
      ({| heap := <[l := info0]> (heap w0); trace := trace w0 |}, Ok model) ∧
    heap w0 !! l = None ∧
    vit_tome_info model = Some l ∧
    (∀ i b0, vit_blocks model0 !! i = Some b0 →
             isinstance_Block (blk_class b0) = true →
             ∃ b, vit_blocks model !! i = Some b ∧
                  blk_class b = CToMeBlock ∧
                  blk_tome_info b = vit_tome_info model) ∧
    (∀ b, b ∈ vit_blocks model → blk_class b = CToMeBlock →
          blk_tome_info b = vit_tome_info model) ∧
    (∀ bi bj x (w : world T) info r rs x_attn metric v,
       bi ∈ vit_blocks model → bj ∈ vit_blocks model →
       blk_class bi = CToMeBlock → blk_class bj = CToMeBlock →
       heap w !! l = Some info →
       ti_r info = RList (r :: rs) →
       attn_result (blk_attn bi) (per_token (blk_norm1 bi) x)
                   (attn_size_arg info) = Ok (x_attn, metric) →
       metric !! "metric" = Some v →
       isinstance_float_or_Tensor v = true →
       let w' := (ToMeBlock_forward bi x w).1 in
       ∃ info',
         (lb <- attr (blk_tome_info bj) ;; get_info lb) w' = (w', Ok info') ∧
         (lm <- attr (vit_tome_info model) ;; get_info lm) w' = (w', Ok info') ∧
         ti_r info' = RList rs) ∧
    (∀ b f (w : world T) info,
       b ∈ vit_blocks model → blk_class b = CToMeBlock →
       heap w !! l = Some info →
       ((lm <- attr (vit_tome_info model) ;; update_info lm f) ;;;
        lb <- attr (blk_tome_info b) ;; get_info lb) w =
         ({| heap := <[l := f info]> (heap w); trace := trace w |},
          Ok (f info))).
Proof.
  destruct (tome_apply_patch_eq model0 ts pa w0) as (info0 & Hfresh & Heq).
  set (l := fresh (dom (heap w0))) in *.
  eexists l, info0, _. split; [exact Heq |]. cbn [vit_tome_info vit_blocks].
  assert (∀ b : block T, b ∈ map (patch_module l) (vit_blocks model0) →
            blk_class b = CToMeBlock → blk_tome_info b = Some l) as Hshare.
  { intros b Hin Hc. apply list_elem_of_fmap in Hin as (b0 & -> & _).
    by apply patch_module_class. }
  split_and!; try done.
  - intros i b0 Hi Hb0. exists (patch_module l b0). split_and!.
    + by rewrite list_lookup_fmap, Hi.
    + unfold patch_module. cbn. by rewrite Hb0.
    + unfold patch_module. cbn. by rewrite Hb0.
  - intros bi bj x w info r rs x_attn metric v Hi Hj Hci Hcj Hl Hr Ha Hm Hv.
    destruct (forward_pops_head bi x w l info r rs x_attn metric v)
      as (info' & Hl' & Hr'); auto.
    exists info'. rewrite (Hshare bj Hj Hcj).
    unfold attr, get_info, bind, ret. by rewrite Hl'.
  - intros b f w info Hb Hc Hl. rewrite (Hshare b Hb Hc).
    unfold attr, get_info, update_info, bind, ret. rewrite Hl. cbn.
    by rewrite lookup_insert_eq.
Qed.

(** ** A schedule of zeros *)

Lemma set_r_id (info : tome_info T) v : ti_r info = v → set_r v info = info.
Proof. intros <-. by destruct info. Qed.

Lemma set_r_set_r (info : tome_info T) u v : set_r v (set_r u info) = set_r v info.
Proof. reflexivity. Qed.

Lemma world_eta (w : world T) : {| heap := heap w; trace := trace w |} = w.
Proof. by destruct w. Qed.

Lemma attn_size_arg_None (info : tome_info T) :
  ti_size info = None → attn_size_arg info = None.
Proof. unfold attn_size_arg. intros ->. by destruct (ti_prop_attn info). Qed.

Lemma run_blocks_zeros l (blocks : list (block T)) :
  Forall (patched_with l) blocks →
  ∀ x (w : world T) info zeros rest,
    heap w !! l = Some info →
    ti_r info = RList (zeros ++ rest) →
    ti_size info = None →
    length zeros = length blocks →
    Forall (λ r, r = 0%Z) zeros →
    ∃ out evs,
      run_blocks blocks x w =
        ({| heap := <[l := set_r (RList rest) info]> (heap w);
            trace := trace w ++ evs |}, Ok out) ∧
      Forall (λ e, is_match_or_apply e = false ∧ is_prologue e = false ∧
                   ∀ s, e = EvAttend s → s = None) evs ∧
      blocks_without_merging blocks x = Ok out.
Proof.
  induction 1 as [| b blocks (Hc & Hb & a & Ha) _ IH];
    intros x w info zeros rest Hl Hr Hs Hlen Hz.
  - destruct zeros; [| done]. exists x, []. cbn. split_and!; [| done | done].
    rewrite set_r_id by done. rewrite insert_id by done.
    by rewrite app_nil_r, world_eta.
  - destruct zeros as [| r zeros]; [done |]. cbn in Hlen, Hr.
    apply Forall_cons in Hz as [-> Hz].
    pose proof (attn_size_arg_None info Hs) as Hnone.
    assert (ToMeBlock_forward b x w =
              ({| heap := <[l := set_r (RList (zeros ++ rest)) info]> (heap w);
                  trace := trace w ++ [EvAttend None; EvResidual1;
                                       EvPop 0; EvMlp] |},
               Ok (residual2 b (residual1 b x
                     (ToMeAttention_forward a (per_token (blk_norm1 b) x)
                                            None).1))))
      as Hstep.
    { pose (am := ToMeAttention_forward a (per_token (blk_norm1 b) x) None).
      pose proof (forward_skip b x w l info 0 (zeros ++ rest) am.1 am.2
                    (PyTensor (map snd (imap
                       (attention_sample a (channels (per_token (blk_norm1 b) x)) None)
                       (per_token (blk_norm1 b) x))))
                    Hb Hl Hr) as Hfs.
      rewrite Hnone, Ha in Hfs. apply Hfs; [| | done | lia].
      - reflexivity.
      - cbn. apply lookup_singleton_eq. }
    edestruct (IH (residual2 b (residual1 b x
                    (ToMeAttention_forward a (per_token (blk_norm1 b) x)
                                           None).1))
                  {| heap := <[l := set_r (RList (zeros ++ rest)) info]> (heap w);
                     trace := trace w ++ [EvAttend None; EvResidual1;
                                          EvPop 0; EvMlp] |}
                  (set_r (RList (zeros ++ rest)) info) zeros rest)
      as (out & evs & Hrun & Hev & Hplain); try done.
    { cbn. apply lookup_insert_eq. }
    { lia. }
    exists out, ([EvAttend None; EvResidual1; EvPop 0; EvMlp] ++ evs).
    split_and!.
    + cbn [run_blocks]. unfold bind, call_block. rewrite Hc, Hstep, Hrun.
      cbn [heap trace]. by rewrite insert_insert_eq, set_r_set_r, app_assoc.
    + apply Forall_app. split; [| done].
      repeat constructor; intros s [=]; congruence.
    + cbn [blocks_without_merging]. unfold block_without_merging.
      rewrite Ha. cbn [attn_result]. exact Hplain.
Qed.

Lemma zip_with_tadd_zero (row : list T) n :
  (∀ t, tadd t tzero = t) → length row ≤ n →
  zip_with tadd row (replicate n tzero) = row.
Proof.
  intros Hz. revert n. induction row as [| t row IH]; intros n Hn; [done |].
  destruct n as [| n]; cbn in *; [lia |]. rewrite Hz, IH; [done | lia].
Qed.

Lemma length_qkv_heads_lookup (a : attention T) C t (xb : list (vec T)) h :
  length (default [] (qkv_heads a C t xb !! h)) ≤ length xb.
Proof.
  unfold qkv_heads. rewrite list_lookup_fmap.
  destruct (seq 0 (attn_num_heads a) !! h); cbn; [| lia].
  by rewrite length_map.
Qed.

(** with every size equal to one the bias adds [log 1] to every score *)
Lemma ones_bias_noop (a : attention T) (x : tensor3 T) :
  attn_fused a = false →
  tlog (tofnat 1) = tzero →
  (∀ t, tadd t tzero = t) →
  ToMeAttention_forward a x (Some (ones_like x)) = ToMeAttention_forward a x None.
Proof.
  intros Hf Hlog Hz. unfold ToMeAttention_forward.
  assert (imap (attention_sample a (channels x) (Some (ones_like x))) x =
          imap (attention_sample a (channels x) None) x) as ->; [| done].
  apply imap_ext. intros b xb Hb. unfold attention_sample. rewrite Hf.
  f_equal. do 3 f_equal. apply list_fmap_ext. intros _ h _.
  unfold naive_head. do 3 f_equal. cbn.
  unfold log_size_row, ones_like. rewrite lookup_map, Hb. cbn.
  rewrite fmap_replicate, Hlog. unfold attn_scores.
  rewrite <- list_fmap_compose. apply list_fmap_ext. intros _ qi _. cbn.
  apply zip_with_tadd_zero; [done |]. rewrite length_map.
  apply length_qkv_heads_lookup.
Qed.

(** C4. When the derived schedule holds only zeros, a forward pass of the
    patched model returns what the pass with merging disabled returns; no
    match, source or merge step runs, attention is never handed a size, and
    at the end size and source are still unset and the schedule is used
    up.  In the naive attention path a size tensor of ones would not change
    anything either, because [log 1] is zero and adding zero leaves a score
    as it is. *)
Theorem zero_schedule_equals_merging_disabled
    (self : vit T Image Output) img (w : world T) l info sched k :
  vit_tome_classes self = S k →
  vit_tome_info self = Some l →
  Forall (patched_with l) (vit_blocks self) →
  heap w !! l = Some info →
  parse_r (length (vit_blocks self)) (vit_r self) (ti_total_merge info)
    = Ok sched →
  length sched = length (vit_blocks self) →
  Forall (λ r, r = 0%Z) sched →
  ∃ out evs,
    call_model parse_r self img w =
      ({| heap := <[l := reset_info [] info]> (heap w);
          trace := trace w ++ replicate (S k) (EvPrologue sched) ++ evs |},
       Ok out) ∧
    Forall (λ e, is_match_or_apply e = false ∧ is_prologue e = false ∧
                 ∀ s, e = EvAttend s → s = None) evs ∧
    forward_without_merging self img = Ok out ∧
    ti_r (reset_info [] info) = RList [] ∧
    ti_size (reset_info [] info) = None ∧
    ti_source (reset_info [] info) = None ∧
    (∀ (a : attention T) (x : tensor3 T),
       attn_fused a = false →
       tlog (tofnat 1) = tzero →
       (∀ t, tadd t tzero = t) →
       ToMeAttention_forward a x (Some (ones_like x))
         = ToMeAttention_forward a x None).
Proof.
  intros Hk Hs Hblocks Hl Hparse Hlen Hz.
  destruct (run_blocks_zeros l (vit_blocks self) Hblocks
              (vit_embed self img)
              {| heap := <[l := reset_info sched info]> (heap w);
                 trace := trace w ++ replicate (S k) (EvPrologue sched) |}
              (reset_info sched info) sched [])
    as (x' & evs & Hrun & Hev & Hplain); try done.
  { cbn. apply lookup_insert_eq. }
  { cbn. by rewrite app_nil_r. }
  exists (vit_head self x'), evs. split_and!; try done.
  - unfold call_model. rewrite Hk.
    rewrite (class_forward_prologues self img l sched k Hs w info Hl Hparse).
    unfold VisionTransformer_forward, bind, ret. rewrite Hrun.
    cbn [heap trace]. by rewrite insert_insert_eq, <- app_assoc.
  - unfold forward_without_merging. by rewrite Hplain.
  - intros a x. apply ones_bias_noop.
Qed.

(** ** Overlapping forward passes *)

Lemma interleave_finished (self : vit T Image Output) n out p2 (w : world T) :
  interleave parse_r self (replicate n true) (Finished out) p2 w
    = (w, Finished out, p2).
Proof. induction n as [| n IH]; [done | apply IH]. Qed.

Lemma interleave_running (self : vit T Image Output) bs :
  ∀ n x p2 (w : world T),
    length bs < n →
    interleave parse_r self (replicate n true) (Running x bs) p2 w =
      match run_blocks bs x w with
      | (w', Ok x') => (w', Finished (Ok (vit_head self x')), p2)
      | (w', Raise e) => (w', Finished (Raise e), p2)
      end.
Proof.
  induction bs as [| b bs IH]; intros n x p2 w Hn;
    (destruct n as [| n]; [cbn in Hn; lia |]); cbn [replicate interleave pass_step].
  - apply interleave_finished.
  - cbn [run_blocks]. unfold bind.
    destruct (call_block b x w) as [w1 [x1 | e]].
    + apply IH. cbn in Hn. lia.
    + apply interleave_finished.
Qed.

(** a pass that runs with nothing in between is the forward call *)
Lemma interleave_alone (self : vit T Image Output) img p2 (w : world T) :
  interleave parse_r self (replicate (2 + length (vit_blocks self)) true)
             (Pending img) p2 w =
    let '(w', res) := ToMeVisionTransformer_forward parse_r self img w in
    (w', Finished res, p2).
Proof.
  change (replicate (2 + length (vit_blocks self)) true)
    with (true :: replicate (S (length (vit_blocks self))) true).
  cbn [interleave pass_step].
  unfold ToMeVisionTransformer_forward, make_tome_class, bind at 1.
  destruct (tome_prologue parse_r self w) as [w1 [[] | e]].
  - rewrite interleave_running by lia.
    unfold VisionTransformer_forward, bind, ret.
    by destruct (run_blocks _ _ _) as [w2 [x2 | e]].
  - apply interleave_finished.
Qed.

(** C7, as the code has it.  The merge state of a forward pass is the one
    dictionary of the model.  Whatever a pass in flight has left there, the
    first step of another pass of the same model replaces schedule, size and
    source in that same dictionary, and the pass in flight goes on with
    them.  A pass that runs with nothing in between is exactly the forward
    call, which starts from the re-initialised dictionary. *)
Theorem merge_state_is_model_scoped
    (self : vit T Image Output) img (w : world T) l info sched :
  vit_tome_info self = Some l →
  heap w !! l = Some info →
  parse_r (length (vit_blocks self)) (vit_r self) (ti_total_merge info)
    = Ok sched →
  pass_step parse_r self (Pending img) w =
    ({| heap := <[l := reset_info sched info]> (heap w);
        trace := trace w ++ [EvPrologue sched] |},
     Running (vit_embed self img) (vit_blocks self)) ∧
  (∀ p1, interleave parse_r self [false] p1 (Pending img) w =
           ({| heap := <[l := reset_info sched info]> (heap w);
               trace := trace w ++ [EvPrologue sched] |},
            p1, Running (vit_embed self img) (vit_blocks self))) ∧
  (∀ p2, interleave parse_r self
           (replicate (2 + length (vit_blocks self)) true) (Pending img) p2 w =
         let '(w', res) := ToMeVisionTransformer_forward parse_r self img w in
         (w', Finished res, p2)).
Proof.
  intros Hs Hl Hp.
  assert (pass_step parse_r self (Pending img) w =
            ({| heap := <[l := reset_info sched info]> (heap w);
                trace := trace w ++ [EvPrologue sched] |},
             Running (vit_embed self img) (vit_blocks self))) as Hstep.
  { cbn [pass_step]. by rewrite (prologue_ok self w l info sched Hs Hl Hp). }
  split_and!; [done | |].
  - intros p1. cbn [interleave]. by rewrite Hstep.
  - intros p2. apply interleave_alone.
Qed.

(** ** The metric *)

Lemma channels_shape (x : tensor3 T) B N C b xb n :
  has_shape x B N C → x !! b = Some xb → n < N → channels x = C.
Proof.
  intros [_ Hall] Hb Hn. destruct x as [| x0 x]; [done |].
  apply Forall_cons in Hall as [[Hlen Hvs] _].
  destruct x0 as [| tok x0]; [cbn in Hlen; lia |].
  apply Forall_cons in Hvs as [Htok _]. exact Htok.
Qed.

Lemma head_part_lookup hd heads t h (row : vec T) c :
  c < hd → head_part hd heads t h row !! c = row !! ((t * heads + h) * hd + c).
Proof.
  intros Hc. unfold head_part. by rewrite lookup_take_lt, lookup_drop.
Qed.

(** C8, as the code has it.  Attention returns a dictionary with the one
    key ["metric"]; its value is a tensor with the batch and token counts of
    the input and [C // num_heads] channels (the width of one head), whose
    entry for token [n] and channel [c] is the mean over the heads of the
    key projections of that token; it is computed from the tokens given to
    this call and does not depend on the size argument. *)
Theorem metric_is_mean_of_keys_per_head
    (a : attention T) (x : tensor3 T) size B N C :
  has_shape x B N C →
  ∃ m,
    (ToMeAttention_forward a x size).2 = {[ "metric" := PyTensor m ]} ∧
    has_shape m B N (C / attn_num_heads a) ∧
    (∀ size', (ToMeAttention_forward a x size').2
                = (ToMeAttention_forward a x size).2) ∧
    (∀ b xb n tok c,
       x !! b = Some xb → xb !! n = Some tok → c < C / attn_num_heads a →
       tensor_entry m b n c =
         Some (tmean (map (λ h, key_entry a C tok h c)
                          (seq 0 (attn_num_heads a))))).
Proof.
  intros Hx. eexists. split; [reflexivity |]. split_and!.
  - destruct Hx as [HB Hall]. split.
    + by rewrite length_map, length_imap.
    + apply Forall_lookup. intros b mb Hmb.
      rewrite lookup_map, list_lookup_imap in Hmb.
      destruct (x !! b) as [xb |] eqn:Hb; [| done].
      cbn in Hmb. injection Hmb as <-.
      pose proof (proj1 (Forall_lookup _ _) Hall b xb Hb) as [Hlen Hvs].
      unfold mean_over_heads. split.
      * by rewrite length_map, length_seq.
      * apply Forall_lookup. intros n row Hrow. rewrite lookup_map in Hrow.
        destruct (seq 0 (length xb) !! n) as [n' |] eqn:Hn; [| done].
        cbn in Hrow. injection Hrow as <-.
        rewrite length_map, length_seq.
        apply lookup_seq in Hn as [-> Hn].
        destruct xb as [| tok xb']; [cbn in Hn; lia |].
        by rewrite (channels_shape x B N C b (tok :: xb') 0 (conj HB Hall) Hb)
          by (cbn in Hlen; lia).
  - intros size'. cbn. do 2 f_equal. apply list_eq. intros b.
    rewrite !lookup_map, !list_lookup_imap. by destruct (x !! b).
  - intros b xb n tok c Hb Hn Hc.
    assert (n < N) as HnN.
    { destruct Hx as [_ Hall].
      pose proof (proj1 (Forall_lookup _ _) Hall b xb Hb) as [<- _].
      by eapply lookup_lt_Some. }
    unfold tensor_entry. rewrite lookup_map, list_lookup_imap, Hb. cbn.
    rewrite (channels_shape x B N C b xb n Hx Hb HnN).
    unfold mean_over_heads. rewrite lookup_map.
    rewrite lookup_seq_lt by (by eapply lookup_lt_Some). cbn.
    rewrite lookup_map, lookup_seq_lt by done. cbn. do 2 f_equal.
    unfold qkv_heads. rewrite map_map. apply map_ext. intros h.
    rewrite lookup_map, Hn. cbn. rewrite head_part_lookup by done.
    reflexivity.
Qed.

(** ** The matcher produces well-formed matchings *)

Lemma alternate_perm {X : Type} (l : list X) :
  (alternate l).1 ++ (alternate l).2 ≡ₚ l.
Proof.
  induction l as [| x l IH]; [done |]. cbn.
  destruct (alternate l) as [a b]. cbn in *.
  constructor. rewrite <- IH. apply Permutation_app_comm.
Qed.

Lemma best_edge_in (m : list (vec T)) va B b s :
  best_edge m va B = Some (b, s) → b ∈ B.
Proof.
  revert b s. induction B as [| b0 B IH]; intros b s; [done |]. cbn.
  destruct (best_edge m va B) as [[b' s'] |].
  - destruct (tleb s' _); intros [= <- <-]; [left | right; by eapply IH].
  - intros [= <- <-]. left.
Qed.

Lemma insert_desc_perm (e : edge) l : insert_desc e l ≡ₚ e :: l.
Proof.
  induction l as [| e' l IH]; [done |]. cbn.
  destruct (tleb _ _); [done |]. rewrite IH. apply perm_swap.
Qed.

Lemma rank_desc_perm (l : list edge) : rank_desc l ≡ₚ l.
Proof.
  induction l as [| e l IH]; [done |]. cbn.
  rewrite insert_desc_perm. by constructor.
Qed.

Lemma seq_split_protected p N :
  seq 0 (p `min` N) ++ seq p (N - p) = seq 0 N.
Proof.
  destruct (le_lt_dec p N) as [Hle | Hgt].
  - rewrite Nat.min_l by done.
    replace N with (p + (N - p)) at 2 by lia. by rewrite seq_app.
  - rewrite Nat.min_r by lia. replace (N - p) with 0 by lia.
    by rewrite app_nil_r.
Qed.

Lemma edges_sources (m : list (vec T)) (A B : list nat) :
  (omap (λ a, (λ bs : nat * T, (a, bs.1, bs.2))
                <$> best_edge m (default [] (m !! a)) B) A).*1.*1
    `sublist_of` A.
Proof.
  induction A as [| a A IH]; [done |]. cbn.
  destruct (best_edge m _ B) as [[b s] |]; cbn.
  - by apply sublist_skip.
  - by apply sublist_cons.
Qed.

Lemma edges_destinations (m : list (vec T)) (A B : list nat) (e : edge) :
  e ∈ omap (λ a, (λ bs : nat * T, (a, bs.1, bs.2))
                   <$> best_edge m (default [] (m !! a)) B) A →
  e.1.2 ∈ B.
Proof.
  intros He. apply list_elem_of_omap in He as (a & _ & He).
  destruct (best_edge m _ B) as [[b s] |] eqn:Hbe; [| done].
  cbn in He. injection He as <-. cbn. by eapply best_edge_in.
Qed.

Lemma match_sample_wf r ct dt (m : list (vec T)) :
  wf_mapping (length m) (match_sample r ct dt m).
Proof.
  unfold match_sample. destruct (r <=? 0)%Z.
  { split_and!; cbn; [by rewrite app_nil_r | | constructor].
    intros sd Hsd. by apply elem_of_nil in Hsd. }
  set (N := length m). set (p := protected_count ct dt).
  set (A := set_A N p). set (B := set_B N p).
  set (edges := omap _ A).
  set (r' := Z.to_nat r `min` (length A `min` length B)).
  set (top := take r' (rank_desc edges)).
  assert (A ++ B ≡ₚ seq p (N - p)) as HAB by apply alternate_perm.
  assert (NoDup (A ++ B)) as Hnd.
  { rewrite HAB. apply NoDup_seq. }
  apply NoDup_app in Hnd as (HndA & _ & HndB).
  assert (NoDup (rank_desc edges).*1.*1) as Hndr.
  { rewrite (rank_desc_perm edges).
    eapply sublist_NoDup; [exact HndA | apply (edges_sources m A B)]. }
  assert (NoDup top.*1.*1) as Hndm.
  { eapply sublist_NoDup; [exact Hndr |].
    unfold top. rewrite !fmap_take. apply sublist_take. }
  assert (∀ e, e ∈ top → e ∈ edges) as Htop.
  { intros e He. rewrite <- (rank_desc_perm edges).
    eapply elem_of_sublist; [exact He | apply sublist_take]. }
  assert (∀ a, a ∈ top.*1.*1 → a ∈ A) as HsubA.
  { intros a Ha. apply list_elem_of_fmap in Ha as (ab & -> & Hab).
    apply list_elem_of_fmap in Hab as (e & -> & He).
    eapply elem_of_sublist; [| apply (edges_sources m A B)].
    apply list_elem_of_fmap. exists e.1. split; [done |].
    apply list_elem_of_fmap. exists e. split; [done |]. by apply Htop. }
  assert (((λ e : edge, (e.1.1, e.1.2)) <$> top).*1 = top.*1.*1) as Hsrc1.
  { rewrite <- !list_fmap_compose. reflexivity. }
  split_and!; cbn [mm_keep mm_src mm_dst].
  - rewrite Hsrc1. rewrite <- (seq_split_protected p N), <- HAB.
    rewrite <- !app_assoc. apply Permutation_app_head.
    rewrite app_assoc. apply Permutation_app_tail.
    rewrite <- (filter_app_complement (λ a, a ∉ top.*1.*1) A) at 2.
    apply Permutation_app_head.
    apply NoDup_Permutation; [done | by apply NoDup_filter |].
    intros a. rewrite list_elem_of_filter. split.
    + intros Ha. split; [| by apply HsubA]. by intros Hn.
    + intros [Hnn _]. by destruct (decide (a ∈ top.*1.*1)).
  - intros sd Hsd. apply list_elem_of_fmap in Hsd as (e & -> & He). cbn.
    apply (edges_destinations m A B e). by apply Htop.
  - exact HndB.
Qed.

(** ** The applicator conserves the sum of sizes *)

Lemma sum_list_map {A : Type} (f : A → nat) (l : list A) :
  sum_list (map f l) = sum_list_with f l.
Proof. induction l as [| a l IH]; [done |]. cbn. by rewrite IH. Qed.

Lemma foldl_add a (xs : list nat) : foldl Nat.add a xs = a + sum_list xs.
Proof.
  revert a. induction xs as [| x xs IH]; intros a; cbn; [lia |].
  rewrite IH. lia.
Qed.

Lemma sum_list_with_add {A : Type} (f g : A → nat) (l : list A) :
  sum_list_with (λ a, f a + g a) l = sum_list_with f l + sum_list_with g l.
Proof. induction l as [| a l IH]; [done |]. cbn. rewrite IH. lia. Qed.

Lemma sum_list_with_ext {A : Type} (f g : A → nat) (l : list A) :
  (∀ a, a ∈ l → f a = g a) → sum_list_with f l = sum_list_with g l.
Proof.
  induction l as [| a l IH]; intros Hfg; [done |]. cbn.
  rewrite (Hfg a) by left. rewrite IH; [done |].
  intros a' Ha'. apply Hfg. by right.
Qed.

Lemma sum_indicator (b0 : nat) (v : nat) (dst : list nat) :
  b0 ∈ dst → NoDup dst →
  sum_list_with (λ b, if decide (b0 = b) then v else 0) dst = v.
Proof.
  induction dst as [| b dst IH]; intros Hin Hnd.
  - by apply elem_of_nil in Hin.
  - apply NoDup_cons in Hnd as [Hnotin Hnd]. cbn.
    destruct (decide (b0 = b)) as [-> | Hne].
    + rewrite (sum_list_with_ext _ (λ _, 0)).
      * clear. induction dst as [| ? ? IH]; cbn; lia.
      * intros b' Hb'. destruct (decide (b = b')) as [<- | ?]; done.
    + apply elem_of_cons in Hin as [-> | Hin]; [done |].
      by rewrite IH.
Qed.

Lemma scatter_sum (g : nat → nat) (src : list (nat * nat)) (dst : list nat) :
  (∀ sd, sd ∈ src → sd.2 ∈ dst) → NoDup dst →
  sum_list_with
    (λ b, sum_list (map (λ sd : nat * nat, g sd.1)
                        (filter (λ sd : nat * nat, sd.2 = b) src))) dst
  = sum_list_with (λ sd : nat * nat, g sd.1) src.
Proof.
  intros Hsub Hnd. induction src as [| sd src IH].
  - cbn. clear. induction dst as [| ? ? IH]; cbn; lia.
  - cbn [sum_list_with]. rewrite <- IH.
    2:{ intros sd' Hsd'. apply Hsub. by right. }
    rewrite <- (sum_indicator sd.2 (g sd.1) dst);
      [| apply Hsub; by left | done ].
    rewrite <- sum_list_with_add. apply sum_list_with_ext. intros b _.
    rewrite filter_cons. destruct (decide (sd.2 = b)); cbn; lia.
Qed.

Lemma gather_seq (l : list nat) :
  map (λ i, default 0 (l !! i)) (seq 0 (length l)) = l.
Proof.
  apply list_eq. intros i. rewrite lookup_map.
  destruct (le_lt_dec (length l) i) as [Hge | Hlt].
  - rewrite lookup_ge_None_2 by (by rewrite length_seq).
    by rewrite lookup_ge_None_2.
  - rewrite lookup_seq_lt by done. cbn.
    by destruct (lookup_lt_is_Some_2 l i Hlt) as [v ->].
Qed.

Lemma apply_mapping_sizes (mp : merge_mapping) (l : list nat) :
  apply_mapping Nat.add 0 mp l =
    map (λ i, default 0 (l !! i)) (mm_keep mp) ++
    map (λ b, default 0 (l !! b)
              + sum_list (map (λ sd : nat * nat, default 0 (l !! sd.1))
                              (filter (λ sd : nat * nat, sd.2 = b) (mm_src mp))))
        (mm_dst mp).
Proof.
  unfold apply_mapping. f_equal. apply map_ext. intros b. apply foldl_add.
Qed.

Lemma apply_mapping_sum N (mp : merge_mapping) (l : list nat) :
  wf_mapping N mp → length l = N →
  sum_list (apply_mapping Nat.add 0 mp l) = sum_list l.
Proof.
  intros (Hperm & Hsub & Hnd) Hlen. rewrite apply_mapping_sizes.
  rewrite sum_list_with_app, !sum_list_map, sum_list_with_add.
  rewrite (scatter_sum (λ i, default 0 (l !! i))) by done.
  assert (sum_list l = sum_list_with (λ i, default 0 (l !! i)) (seq 0 N)) as ->.
  { rewrite <- Hlen. rewrite <- (gather_seq l) at 1. apply sum_list_map. }
  rewrite <- Hperm, !sum_list_with_app.
  assert (sum_list_with (λ i, default 0 (l !! i)) (mm_src mp).*1 =
          sum_list_with (λ sd : nat * nat, default 0 (l !! sd.1)) (mm_src mp))
    as ->; [| lia].
  clear. induction (mm_src mp) as [| sd src IH]; [done |]. cbn. by rewrite IH.
Qed.

Lemma apply_mapping_length {X : Type} (combine : X → X → X) d
    (mp : merge_mapping) (l : list X) :
  length (apply_mapping combine d mp l)
    = length (mm_keep mp) + length (mm_dst mp).
Proof. unfold apply_mapping. by rewrite length_app, !length_map. Qed.

Lemma apply_mapping_mono (mp : merge_mapping) (row : list nat) :
  Forall2 (λ new i, default 0 (row !! i) ≤ new)
          (apply_mapping Nat.add 0 mp row) (mm_keep mp ++ mm_dst mp).
Proof.
  rewrite apply_mapping_sizes. apply Forall2_app.
  - induction (mm_keep mp); constructor; [lia | done].
  - induction (mm_dst mp); constructor; [lia | done].
Qed.

(** ** Size conservation along the block stack *)

Lemma token_counts_attention_out (a : attention T) (x : tensor3 T) size :
  map length (ToMeAttention_forward a x size).1 = map length x.
Proof.
  cbn. apply list_eq. intros b.
  rewrite !lookup_map, list_lookup_imap. destruct (x !! b) as [xb |]; [| done].
  cbn. f_equal. unfold merge_heads. by rewrite !length_map, length_seq.
Qed.

Lemma token_counts_metric (a : attention T) (x : tensor3 T) size :
  map length (map snd (imap (attention_sample a (channels x) size) x))
    = map length x.
Proof.
  apply list_eq. intros b.
  rewrite !lookup_map, list_lookup_imap. destruct (x !! b) as [xb |]; [| done].
  cbn. f_equal. unfold mean_over_heads. by rewrite length_map, length_seq.
Qed.

Lemma ones_like_counts (x x' : tensor3 T) :
  map length x' = map length x → ones_like x' = ones_like x.
Proof.
  unfold ones_like. revert x'.
  induction x as [| xb x IH]; intros [| xb' x'] E; try done.
  cbn in *. injection E as -> E. f_equal. by apply IH.
Qed.

Lemma size_conserved_counts N0 (x x' : tensor3 T) size :
  map length x' = map length x →
  size_conserved N0 x size → size_conserved N0 x' size.
Proof.
  unfold size_conserved. intros E Hc. revert x' E.
  induction Hc as [| xb row x size [Hlen Hsum] _ IH]; intros [| xb' x'] E;
    try done.
  cbn in E. injection E as E1 E2. constructor; [| by apply IH].
  split; [congruence | done].
Qed.

Lemma current_size_counts (info : tome_info T) (x x' : tensor3 T) :
  map length x' = map length x → current_size info x' = current_size info x.
Proof. intros E. unfold current_size. by rewrite (ones_like_counts x x' E). Qed.

Lemma merge_wavg_conserves N0 r ct dt (x : tensor3 T) size0 :
  size_conserved N0 x size0 →
  ∀ metric : tensor3 T,
    map length metric = map length x →
    size_conserved N0
      (merge_wavg (bipartite_soft_matching metric r ct dt) x (Some size0)).1
      (merge_wavg (bipartite_soft_matching metric r ct dt) x (Some size0)).2.
Proof.
  unfold size_conserved, merge_wavg, bipartite_soft_matching. cbn.
  induction 1 as [| xb row x size0 [Hlen Hsum] _ IH]; intros [| mb metric] E;
    try done; cbn.
  cbn in E. injection E as E1 E2. constructor; [| by apply IH].
  split.
  - by rewrite length_fmap, !apply_mapping_length.
  - rewrite (apply_mapping_sum (length mb)); [done | | congruence].
    apply match_sample_wf.
Qed.

Lemma block_conserves N0 l (b : block T) x (w : world T) info r rs :
  patched_with l b →
  heap w !! l = Some info →
  ti_r info = RList (r :: rs) →
  size_conserved N0 x (current_size info x) →
  ∃ w' x' info',
    ToMeBlock_forward b x w = (w', Ok x') ∧
    heap w' !! l = Some info' ∧
    ti_r info' = RList rs ∧
    size_conserved N0 x' (current_size info' x').
Proof.
  intros (Hc & Hb & a & Ha) Hl Hr Hinv.
  set (xn := per_token (blk_norm1 b) x).
  set (am := ToMeAttention_forward a xn (attn_size_arg info)).
  set (m := map snd (imap (attention_sample a (channels xn) (attn_size_arg info)) xn)).
  assert (attn_result (blk_attn b) xn (attn_size_arg info) = Ok (am.1, am.2))
    as Hattn by (by rewrite Ha).
  assert (am.2 !! "metric" = Some (PyTensor m)) as Hm
    by apply lookup_singleton_eq.
  assert (map length am.1 = map length x) as Hcount.
  { unfold am, xn. by rewrite token_counts_attention_out, token_counts_per_token. }
  assert (map length m = map length x) as Hmcount.
  { unfold m, xn. by rewrite token_counts_metric, token_counts_per_token. }
  pose proof (token_counts_residual1 b x am.1 Hcount) as Hr1.
  destruct (Z_le_gt_dec r 0) as [Hle | Hgt].
  - eexists _, _, _. split; [by eapply forward_skip |].
    cbn [heap]. rewrite lookup_insert_eq. split_and!; [done | done |].
    assert (map length (residual2 b (residual1 b x am.1)) = map length x)
      as Hr2 by (rewrite token_counts_residual2; exact Hr1).
    eapply size_conserved_counts; [exact Hr2 |].
    unfold current_size in *. cbn [ti_size set_r].
    by rewrite (ones_like_counts x _ Hr2).
  - eexists _, _, _. split; [eapply forward_merge; eauto; lia |].
    cbn [heap]. rewrite lookup_insert_eq. split_and!; [done | |].
    + unfold merge_branch. cbn. by destruct (ti_trace_source info).
    + eapply size_conserved_counts; [apply token_counts_residual2 |].
      assert (∀ i : tome_info T,
                ti_size i = ti_size info →
                ti_class_token i = ti_class_token info →
                ti_distill_token i = ti_distill_token info →
                size_conserved N0
                  (merge_branch i m r (residual1 b x am.1)).2
                  (default (ones_like (merge_branch i m r (residual1 b x am.1)).2)
                     (ti_size (merge_branch i m r (residual1 b x am.1)).1)))
        as Hgen.
      { intros i Hsz Hct Hdt. unfold merge_branch. cbn [fst snd].
        assert (∀ j s, ti_size (set_size s j) = s) as -> by done.
        cbn [default]. rewrite Hsz, Hct, Hdt.
        apply (merge_wavg_conserves N0 r _ _ (residual1 b x am.1)
                 (current_size info (residual1 b x am.1)));
          [| by rewrite Hmcount, Hr1].
        rewrite (current_size_counts info x _ Hr1).
        by eapply size_conserved_counts. }
      apply Hgen; done.
Qed.

Lemma run_blocks_conserves N0 l (blocks : list (block T)) :
  Forall (patched_with l) blocks →
  ∀ x (w : world T) info sched,
    heap w !! l = Some info →
    ti_r info = RList sched →
    length blocks ≤ length sched →
    size_conserved N0 x (current_size info x) →
    ∃ w' x' info',
      run_blocks blocks x w = (w', Ok x') ∧
      heap w' !! l = Some info' ∧
      ti_r info' = RList (drop (length blocks) sched) ∧
      size_conserved N0 x' (current_size info' x').
Proof.
  induction 1 as [| b blocks Hb _ IH]; intros x w info sched Hl Hr Hlen Hinv.
  - exists w, x, info. by rewrite drop_0.
  - destruct sched as [| r rs]; [cbn in Hlen; lia |].
    destruct (block_conserves N0 l b x w info r rs Hb Hl Hr Hinv)
      as (w1 & x1 & info1 & Hstep & Hl1 & Hr1 & Hinv1).
    destruct (IH x1 w1 info1 rs Hl1 Hr1) as (w2 & x2 & info2 & Hrun & ?);
      [cbn in Hlen; lia | done |].
    exists w2, x2, info2. split; [| done].
    cbn [run_blocks]. unfold bind, call_block.
    destruct Hb as (-> & _). by rewrite Hstep.
Qed.

(** C1. Start from the dictionary as the prologue leaves it (size unset)
    and samples of [N0] tokens each.  Whatever the schedule, any number of
    patched blocks run to the end, and afterwards every sample has one size
    per token and its sizes add up to [N0] (before the first merge the size
    in force is the implicit all-ones vector).  In one merge every entry of
    the new size vector is at least the size of the token that stays at
    that position. *)
Theorem size_sum_is_conserved
    N0 l (blocks : list (block T)) (x : tensor3 T) (w : world T) info sched :
  Forall (patched_with l) blocks →
  heap w !! l = Some info →
  ti_r info = RList sched →
  length blocks ≤ length sched →
  ti_size info = None →
  Forall (λ xb, length xb = N0) x →
  (∃ w' x' info',
     run_blocks blocks x w = (w', Ok x') ∧
     heap w' !! l = Some info' ∧
     size_conserved N0 x' (current_size info' x')) ∧
  (∀ (mp : merge_mapping) (row : list nat),
     Forall2 (λ new i, default 0 (row !! i) ≤ new)
             (apply_mapping Nat.add 0 mp row) (mm_keep mp ++ mm_dst mp)).
Proof.
  intros Hblocks Hl Hr Hlen Hs Hx. split; [| apply apply_mapping_mono].
  destruct (run_blocks_conserves N0 l blocks Hblocks x w info sched Hl Hr Hlen)
    as (w' & x' & info' & Hrun & Hl' & _ & Hinv).
  - unfold current_size, size_conserved, ones_like. rewrite Hs. cbn.
    clear -Hx. induction Hx as [| xb x Hxb _ IH]; constructor; [| done].
    rewrite length_replicate, sum_list_replicate. split; [done | lia].
  - by exists w', x', info'.
Qed.

(** ** More on one block and on the block stack *)

Lemma patched_attn_ok l (b : block T) (xn : tensor3 T) s :
  patched_with l b →
  ∃ x_attn metric m,
    attn_result (blk_attn b) xn s = Ok (x_attn, metric) ∧
    metric !! "metric" = Some (PyTensor m) ∧
    map length x_attn = map length xn.
Proof.
  intros (_ & _ & a & Ha). rewrite Ha. cbn.
  eexists _, _, _. split_and!; [reflexivity | apply lookup_singleton_eq |].
  apply (token_counts_attention_out a xn s).
Qed.

Lemma forward_no_entry
    (self : block T) x (w : world T) l info x_attn metric v :
  blk_tome_info self = Some l →
  heap w !! l = Some info →
  (∀ r rs, ti_r info ≠ RList (r :: rs)) →
  attn_result (blk_attn self) (per_token (blk_norm1 self) x) (attn_size_arg info)
    = Ok (x_attn, metric) →
  metric !! "metric" = Some v →
  isinstance_float_or_Tensor v = true →
  ToMeBlock_forward self x w =
    ({| heap := heap w;
        trace := trace w ++ [EvAttend (attn_size_arg info); EvResidual1] |},
     Raise (match ti_r info with
            | RList _ => IndexError
            | _ => AttributeError
            end)).
Proof.
  intros Hb Hl Hne Ha Hm Hv.
  unfold ToMeBlock_forward. rewrite Hb. unfold attr, bind at 1, ret at 1.
  unfold bind at 1. rewrite (attend_ok self l x w info _ Hl Ha).
  rewrite Hm. unfold bind at 1, ret at 1. rewrite Hv.
  unfold assert_, bind at 1, ret at 1.
  unfold bind at 1, emit at 1. cbn [heap trace].
  unfold bind at 1, pop_r, get_info, bind at 1. cbn [heap]. rewrite Hl.
  destruct (ti_r info) as [n | ratio inflect | [| r rs]] eqn:Hr;
    unfold raise; rewrite <- ?app_assoc; try reflexivity.
  by destruct (Hne r rs).
Qed.

Lemma block_step l (b : block T) x (w : world T) info r rs :
  patched_with l b →
  heap w !! l = Some info →
  ti_r info = RList (r :: rs) →
  ∃ x' info' evs,
    ToMeBlock_forward b x w =
      ({| heap := <[l := info']> (heap w); trace := trace w ++ evs |}, Ok x') ∧
    ti_r info' = RList rs ∧
    config info' = config info ∧
    popped evs = [r] ∧
    (is_Some (ti_size info') ↔ is_Some (ti_size info) ∨ (0 < r)%Z) ∧
    (ti_trace_source info = false → ti_source info' = ti_source info) ∧
    (ti_trace_source info = true → (0 < r)%Z → is_Some (ti_source info')).
Proof.
  intros Hp Hl Hr.
  destruct (patched_attn_ok l b (per_token (blk_norm1 b) x) (attn_size_arg info) Hp)
    as (x_attn & metric & m & Ha & Hm & _).
  destruct Hp as (_ & Hb & _).
  destruct (Z_le_gt_dec r 0) as [Hle | Hgt].
  - eexists _, _, _. split; [by eapply forward_skip |].
    split_and!; try done.
    + cbn. split; [by left | intros [? | ?]; [done | lia]].
    + intros _ ?. lia.
  - eexists _, _, _. split; [eapply forward_merge; eauto; lia |].
    unfold merge_branch. cbn [fst snd ti_trace_source set_r].
    destruct (ti_trace_source info) eqn:Ets; cbn; split_and!; try done.
    all: try (split; [intros _; right; lia | intros _; by eexists]).
    all: try (intros _ _; by eexists).
Qed.

Lemma popped_app (e1 e2 : list event) : popped (e1 ++ e2) = popped e1 ++ popped e2.
Proof. apply omap_app. Qed.

Lemma run_blocks_steps l (blocks : list (block T)) :
  Forall (patched_with l) blocks →
  ∀ x (w : world T) info sched,
    heap w !! l = Some info →
    ti_r info = RList sched →
    length blocks ≤ length sched →
    ∃ x' info' evs,
      run_blocks blocks x w =
        ({| heap := <[l := info']> (heap w); trace := trace w ++ evs |}, Ok x') ∧
      ti_r info' = RList (drop (length blocks) sched) ∧
      config info' = config info ∧
      popped evs = take (length blocks) sched ∧
      (is_Some (ti_size info') ↔
         is_Some (ti_size info)
         ∨ Exists (λ r, (0 < r)%Z) (take (length blocks) sched)) ∧
      (ti_trace_source info = false → ti_source info' = ti_source info).
Proof.
  clear parse_r.
  induction 1 as [| b blocks Hb _ IH]; intros x w info sched Hl Hr Hlen.
  - exists x, info, []. cbn. rewrite insert_id by done.
    rewrite app_nil_r, world_eta, drop_0. split_and!; try done.
    split; [by left | intros [? | Hex]; [done | by apply Exists_nil in Hex]].
  - destruct sched as [| r rs]; [cbn in Hlen; lia |].
    destruct (block_step l b x w info r rs Hb Hl Hr)
      as (x1 & info1 & evs1 & Hstep & Hr1 & Hc1 & Hp1 & Hs1 & Hsrc1 & _).
    edestruct (IH x1 {| heap := <[l := info1]> (heap w);
                        trace := trace w ++ evs1 |} info1 rs)
      as (x2 & info2 & evs2 & Hrun & Hr2 & Hc2 & Hp2 & Hs2 & Hsrc2);
      [apply lookup_insert_eq | done | cbn in Hlen; lia |].
    exists x2, info2, (evs1 ++ evs2). split_and!.
    + cbn [run_blocks]. unfold bind, call_block.
      destruct Hb as (-> & _). rewrite Hstep, Hrun. cbn [heap trace].
      by rewrite insert_insert_eq, app_assoc.
    + done.
    + congruence.
    + rewrite popped_app, Hp1, Hp2. done.
    + cbn [length take]. rewrite Hs2, Hs1, Exists_cons. tauto.
    + intros Hts. rewrite Hsrc2, Hsrc1; [done | done |].
      unfold config in Hc1. congruence.
Qed.

(** X1. A stack of patched blocks with at least one schedule entry per
    block runs to the end; block [i] pops entry [i] (the pops recorded along
    the way are the first entries of the schedule, in order), the entries
    beyond the last block stay in the dictionary, and with exactly one entry
    per block the schedule is empty at the end. *)
Theorem blocks_pop_schedule_in_order
    l (blocks : list (block T)) x (w : world T) info sched :
  Forall (patched_with l) blocks →
  heap w !! l = Some info →
  ti_r info = RList sched →
  length blocks ≤ length sched →
  ∃ w' x' info' evs,
    run_blocks blocks x w = (w', Ok x') ∧
    trace w' = trace w ++ evs ∧
    popped evs = take (length blocks) sched ∧
    heap w' !! l = Some info' ∧
    ti_r info' = RList (drop (length blocks) sched) ∧
    (length sched = length blocks → ti_r info' = RList []).
Proof.
  intros Hb Hl Hr Hlen.
  destruct (run_blocks_steps l blocks Hb x w info sched Hl Hr Hlen)
    as (x' & info' & evs & Hrun & Hr' & _ & Hp & _).
  eexists _, x', info', evs. split; [exact Hrun |]. cbn [heap trace].
  rewrite lookup_insert_eq. split_and!; try done.
  intros E. rewrite Hr', <- E. by rewrite drop_all.
Qed.

(** X2. When the schedule has fewer entries than there are patched blocks,
    the blocks that find an entry run and pop it, and the first block
    without one raises [IndexError] after its attention and first residual;
    the schedule is empty then and the blocks behind do not run. *)
Theorem short_schedule_raises_IndexError
    l (blocks : list (block T)) x (w : world T) info sched :
  Forall (patched_with l) blocks →
  heap w !! l = Some info →
  ti_r info = RList sched →
  length sched < length blocks →
  ∃ w' info' evs s,
    run_blocks blocks x w = (w', Raise IndexError) ∧
    trace w' = trace w ++ evs ++ [EvAttend s; EvResidual1] ∧
    popped evs = sched ∧
    heap w' !! l = Some info' ∧
    ti_r info' = RList [].
Proof.
  intros Hb Hl Hr Hlen.
  rewrite <- (take_drop (length sched) blocks) in Hb |- *.
  apply Forall_app in Hb as [Hpre Hpost].
  destruct (drop (length sched) blocks) as [| b rest] eqn:Hd.
  { apply (f_equal length) in Hd. rewrite length_drop in Hd. cbn in Hd. lia. }
  apply Forall_cons in Hpost as [Hpb _].
  assert (length (take (length sched) blocks) = length sched) as Htl
    by (rewrite length_take; lia).
  destruct (run_blocks_steps l _ Hpre x w info sched Hl Hr)
    as (x1 & info1 & evs1 & Hrun & Hr1 & _ & Hp1 & _); [lia |].
  rewrite Htl, drop_all in Hr1. rewrite Htl, firstn_all in Hp1.
  destruct (patched_attn_ok l b (per_token (blk_norm1 b) x1)
              (attn_size_arg info1) Hpb)
    as (x_attn & metric & m & Ha & Hm & _).
  destruct Hpb as (Hc & Hbl & _).
  eexists _, info1, evs1, (attn_size_arg info1). split.
  - rewrite run_blocks_app, Hrun. cbn [run_blocks]. unfold bind, call_block.
    rewrite Hc.
    rewrite (forward_no_entry b x1 _ l info1 x_attn metric (PyTensor m));
      try done.
    + by rewrite Hr1.
    + cbn. apply lookup_insert_eq.
    + intros r rs. by rewrite Hr1.
  - cbn [heap trace]. rewrite lookup_insert_eq, <- app_assoc. done.
Qed.

(** X3. Along a stack of patched blocks the size entry of the dictionary is
    set at the end exactly when it was set at the start or one of the popped
    entries was positive: blocks that pop a non-positive entry never write a
    size, and once a size is there no block removes it. *)
Theorem size_is_set_iff_positive_entry
    l (blocks : list (block T)) x (w : world T) info sched :
  Forall (patched_with l) blocks →
  heap w !! l = Some info →
  ti_r info = RList sched →
  length blocks ≤ length sched →
  ∃ w' x' info',
    run_blocks blocks x w = (w', Ok x') ∧
    heap w' !! l = Some info' ∧
    (is_Some (ti_size info') ↔
       is_Some (ti_size info)
       ∨ Exists (λ r, (0 < r)%Z) (take (length blocks) sched)).
Proof.
  intros Hb Hl Hr Hlen.
  destruct (run_blocks_steps l blocks Hb x w info sched Hl Hr Hlen)
    as (x' & info' & evs & Hrun & _ & _ & _ & Hs & _).
  eexists _, x', info'. split; [exact Hrun |]. cbn [heap].
  by rewrite lookup_insert_eq.
Qed.

(** X4. With source tracing off, a stack of patched blocks leaves the
    source entry of the dictionary as it found it, whatever is merged; with
    tracing on, a block that pops a positive entry leaves a source tensor
    there. *)
Theorem source_is_written_only_when_tracing
    l (blocks : list (block T)) x (w : world T) info sched :
  Forall (patched_with l) blocks →
  heap w !! l = Some info →
  ti_r info = RList sched →
  length blocks ≤ length sched →
  (ti_trace_source info = false →
     ∃ w' x' info',
       run_blocks blocks x w = (w', Ok x') ∧
       heap w' !! l = Some info' ∧
       ti_source info' = ti_source info) ∧
  (ti_trace_source info = true →
     ∀ b r rs, patched_with l b → sched = r :: rs → (0 < r)%Z →
       ∃ w' x' info',
         ToMeBlock_forward b x w = (w', Ok x') ∧
         heap w' !! l = Some info' ∧
         is_Some (ti_source info')).
Proof.
  intros Hb Hl Hr Hlen. split.
  - intros Hts.
    destruct (run_blocks_steps l blocks Hb x w info sched Hl Hr Hlen)
      as (x' & info' & evs & Hrun & _ & _ & _ & _ & Hsrc).
    eexists _, x', info'. split; [exact Hrun |]. cbn [heap].
    rewrite lookup_insert_eq. split; [done | by apply Hsrc].
  - intros Hts b r rs Hpb -> Hpos.
    destruct (block_step l b x w info r rs Hpb Hl Hr)
      as (x' & info' & evs & Hstep & _ & _ & _ & _ & _ & Hsrc).
    eexists _, x', info'. split; [exact Hstep |]. cbn [heap].
    rewrite lookup_insert_eq. split; [done | by apply Hsrc].
Qed.

(** X5. When the attention module hands back a dictionary without the key
    ["metric"], the block raises [KeyError] right after the attention call:
    nothing is popped, the dictionary is untouched and no later step
    runs. *)
Theorem missing_metric_key_raises_KeyError
    (self : block T) x (w : world T) l info x_attn metric :
  blk_tome_info self = Some l →
  heap w !! l = Some info →
  attn_result (blk_attn self) (per_token (blk_norm1 self) x) (attn_size_arg info)
    = Ok (x_attn, metric) →
  metric !! "metric" = None →
  ToMeBlock_forward self x w =
    ({| heap := heap w; trace := trace w ++ [EvAttend (attn_size_arg info)] |},
     Raise KeyError).
Proof.
  intros Hb Hl Ha Hm.
  unfold ToMeBlock_forward. rewrite Hb. unfold attr, bind at 1, ret at 1.
  unfold bind at 1. rewrite (attend_ok self l x w info _ Hl Ha).
  rewrite Hm. reflexivity.
Qed.

(** X6. An exception raised by the attention module leaves the block as it
    is raised: the world is untouched (no pop, no trace entry of the
    block), and a block stack that reaches this block ends with the same
    exception. *)
Theorem attention_exception_propagates
    (self : block T) x (w : world T) l info e
    (pre post : list (block T)) x0 (w0 : world T) :
  blk_class self = CToMeBlock →
  blk_tome_info self = Some l →
  heap w !! l = Some info →
  attn_result (blk_attn self) (per_token (blk_norm1 self) x) (attn_size_arg info)
    = Raise e →
  run_blocks pre x0 w0 = (w, Ok x) →
  ToMeBlock_forward self x w = (w, Raise e) ∧
  run_blocks (pre ++ self :: post) x0 w0 = (w, Raise e).
Proof.
  intros Hc Hb Hl Ha Hpre.
  assert (ToMeBlock_forward self x w = (w, Raise e)) as Hfw.
  { unfold ToMeBlock_forward. rewrite Hb. unfold attr, bind at 1, ret at 1.
    unfold bind at 1, ToMeBlock_attend, get_info, bind at 1. rewrite Hl.
    unfold call_attn, bind at 1, lift. by rewrite Ha. }
  split; [done |].
  rewrite run_blocks_app, Hpre. cbn [run_blocks]. unfold bind, call_block.
  by rewrite Hc, Hfw.
Qed.

(** X7. When [parse_r] raises, the model's forward raises the same
    exception before any block runs, and the dictionary keeps the schedule,
    size and source it had: the resets of the prologue come after the
    planner call. *)
Theorem planner_failure_leaves_state
    (self : vit T Image Output) img (w : world T) l info e :
  vit_tome_info self = Some l →
  heap w !! l = Some info →
  parse_r (length (vit_blocks self)) (vit_r self) (ti_total_merge info)
    = Raise e →
  ToMeVisionTransformer_forward parse_r self img w = (w, Raise e).
Proof.
  intros Hs Hl Hp. unfold ToMeVisionTransformer_forward, make_tome_class, tome_prologue.
  rewrite Hs. unfold attr, get_info, lift, bind, ret. by rewrite Hl, Hp.
Qed.

(** ** More on the installation of the patch *)

Lemma tome_apply_patch_explicit
    (model0 : vit T Image Output) ts pa (w0 : world T) :
  let l := fresh (dom (heap w0)) in
  heap w0 !! l = None ∧
  tome_apply_patch model0 ts pa w0 =
    ({| heap := <[l := {| ti_r := RInt 0;
                          ti_size := None;
                          ti_source := None;
                          ti_total_merge := None;
                          ti_trace_source := ts;
                          ti_prop_attn := pa;
                          ti_class_token := vit_cls_token model0;
                          ti_distill_token := vit_dist_token model0 |}]>
                (heap w0);
        trace := trace w0 |},
     Ok {| vit_tome_classes := S (vit_tome_classes model0);
           vit_r := RInt 0;
           vit_tome_info := Some l;
           vit_cls_token := vit_cls_token model0;
           vit_dist_token := vit_dist_token model0;
           vit_embed := vit_embed model0;
           vit_blocks := map (patch_module l) (vit_blocks model0);
           vit_head := vit_head model0 |}).
Proof.
  intros l.
  assert (heap w0 !! l = None) as Hfresh.
  { apply not_elem_of_dom. apply is_fresh. }
  split; [done |].
  unfold tome_apply_patch, alloc, bind. fold l.
  destruct (vit_dist_token model0) eqn:Ed; [| reflexivity].
  unfold update_info, ret. cbn.
  rewrite lookup_insert_eq. cbn. by rewrite insert_insert_eq.
Qed.

(** X8. [tome_apply_patch] adds one dictionary at a reference that was not
    in use and changes no other dictionary; the new dictionary holds
    [r = 0], no size, no source, no total merge target, the two flags
    passed in and the two token flags of the model (the second assignment of
    ["distill_token"] changes nothing); the model's [r] is 0, and the blocks
    are as many as before, each with the residual branches it had. *)
Theorem patch_creates_fresh_dictionary
    (model0 : vit T Image Output) ts pa (w0 : world T) :
  ∃ l w1 model,
    tome_apply_patch model0 ts pa w0 = (w1, Ok model) ∧
    heap w0 !! l = None ∧
    heap w1 !! l = Some {| ti_r := RInt 0;
                           ti_size := None;
                           ti_source := None;
                           ti_total_merge := None;
                           ti_trace_source := ts;
                           ti_prop_attn := pa;
                           ti_class_token := vit_cls_token model0;
                           ti_distill_token := vit_dist_token model0 |} ∧
    (∀ l', l' ≠ l → heap w1 !! l' = heap w0 !! l') ∧
    trace w1 = trace w0 ∧
    vit_tome_info model = Some l ∧
    vit_r model = RInt 0 ∧
    length (vit_blocks model) = length (vit_blocks model0) ∧
    (∀ i b0, vit_blocks model0 !! i = Some b0 →
       ∃ b, vit_blocks model !! i = Some b ∧
            (∀ x xa, residual1 b x xa = residual1 b0 x xa) ∧
            (∀ x, residual2 b x = residual2 b0 x)).
Proof.
  destruct (tome_apply_patch_explicit model0 ts pa w0) as (Hfresh & Heq).
  eexists _, _, _. split; [exact Heq |]. cbn [heap trace vit_tome_info vit_r vit_blocks].
  split_and!; try done.
  - apply lookup_insert_eq.
  - intros l' Hne. by rewrite lookup_insert_ne.
  - by rewrite length_map.
  - intros i b0 Hi. exists (patch_module (fresh (dom (heap w0))) b0).
    split_and!; [by rewrite lookup_map, Hi | done | done].
Qed.

(** X9. Patching a model that is already patched creates a second
    dictionary at another reference: the model and every [ToMeBlock] refer
    to the new one, which holds the flags of the second call, and the first
    dictionary stays in the heap as it was. *)
Theorem repatch_moves_to_new_dictionary
    (model0 : vit T Image Output) ts pa ts' pa' (w0 : world T) :
  ∃ l1 l2 w1 w2 m1 m2 info2,
    tome_apply_patch model0 ts pa w0 = (w1, Ok m1) ∧
    tome_apply_patch m1 ts' pa' w1 = (w2, Ok m2) ∧
    vit_tome_info m1 = Some l1 ∧
    vit_tome_info m2 = Some l2 ∧
    l1 ≠ l2 ∧
    heap w2 !! l1 = heap w1 !! l1 ∧
    is_Some (heap w1 !! l1) ∧
    heap w2 !! l2 = Some info2 ∧
    ti_trace_source info2 = ts' ∧
    ti_prop_attn info2 = pa' ∧
    (∀ b, b ∈ vit_blocks m2 → blk_class b = CToMeBlock →
          blk_tome_info b = Some l2) ∧
    (∀ i b1, vit_blocks m1 !! i = Some b1 → blk_class b1 = CToMeBlock →
       ∃ b2, vit_blocks m2 !! i = Some b2 ∧ blk_class b2 = CToMeBlock).
Proof.
  destruct (tome_apply_patch_explicit model0 ts pa w0) as (Hf1 & Heq1).
  set (l1 := fresh (dom (heap w0))) in *.
  match type of Heq1 with
  | _ = (?ww, Ok ?mm) => set (w1 := ww) in *; set (m1 := mm) in *
  end.
  destruct (tome_apply_patch_explicit m1 ts' pa' w1) as (Hf2 & Heq2).
  set (l2 := fresh (dom (heap w1))) in *.
  assert (l1 ≠ l2) as Hne.
  { intros E. rewrite <- E in Hf2. unfold w1 in Hf2. cbn in Hf2.
    by rewrite lookup_insert_eq in Hf2. }
  eexists l1, l2, w1, _, m1, _, _. split; [exact Heq1 |].
  split; [exact Heq2 |]. cbn [heap vit_tome_info vit_blocks].
  split_and!.
  - reflexivity.
  - reflexivity.
  - exact Hne.
  - by rewrite lookup_insert_ne.
  - unfold w1. cbn. rewrite lookup_insert_eq. by eexists.
  - apply lookup_insert_eq.
  - reflexivity.
  - reflexivity.
  - intros b Hin Hc. apply list_elem_of_fmap in Hin as (b1 & -> & _).
    by apply patch_module_class.
  - intros i b1 Hi Hc. exists (patch_module l2 b1).
    split; [by rewrite lookup_map, Hi |].
    unfold patch_module. cbn. by rewrite Hc.
Qed.

(** X10. Right after [tome_apply_patch] the dictionary holds the integer 0
    under ["r"], not a list.  A patched block called on its own then runs
    its attention and first residual and raises [AttributeError] at the pop;
    only the model's forward installs a schedule. *)
Theorem patched_block_alone_raises_AttributeError
    (model0 : vit T Image Output) ts pa (w0 : world T) i b0 c a x :
  vit_blocks model0 !! i = Some b0 →
  isinstance_Block (blk_class b0) = true →
  blk_attn b0 = Attn c a →
  ∃ w1 model b,
    tome_apply_patch model0 ts pa w0 = (w1, Ok model) ∧
    vit_blocks model !! i = Some b ∧
    call_block b x w1 =
      ({| heap := heap w1;
          trace := trace w1 ++ [EvAttend None; EvResidual1] |},
       Raise AttributeError).
Proof.
  intros Hi Hb0 Ha.
  destruct (tome_apply_patch_explicit model0 ts pa w0) as (Hfresh & Heq).
  set (l := fresh (dom (heap w0))) in *.
  eexists _, _, (patch_module l b0). split; [exact Heq |].
  cbn [vit_blocks]. split; [by rewrite lookup_map, Hi |].
  unfold call_block. cbn [blk_class patch_module]. rewrite Hb0.
  set (info0 := {| ti_r := RInt 0; ti_size := None; ti_source := None;
                   ti_total_merge := None; ti_trace_source := ts;
                   ti_prop_attn := pa;
                   ti_class_token := vit_cls_token model0;
                   ti_distill_token := vit_dist_token model0 |} : tome_info T).
  set (am := ToMeAttention_forward a (per_token (blk_norm1 b0) x)
                                   (attn_size_arg info0)).
  rewrite (forward_no_entry (patch_module l b0) x _ l info0 am.1 am.2
             (PyTensor (map snd (imap (attention_sample a
                (channels (per_token (blk_norm1 b0) x)) (attn_size_arg info0))
                (per_token (blk_norm1 b0) x))))).
  - cbn [ti_r info0]. by rewrite (attn_size_arg_None info0).
  - cbn. by rewrite Hb0.
  - cbn. apply lookup_insert_eq.
  - done.
  - cbn. rewrite Ha. cbn. reflexivity.
  - cbn. apply lookup_singleton_eq.
  - reflexivity.
Qed.

(** ** More on attention *)

(** X12. The metric depends on the tokens, the head count and the [qkv]
    layer alone: two attention modules that agree on these return the same
    metric dictionary, whichever path each takes and whatever their scale,
    dropout, projection and size argument are. *)
Theorem metric_depends_on_keys_only
    (a a' : attention T) (x : tensor3 T) size size' :
  attn_num_heads a = attn_num_heads a' →
  attn_qkv a = attn_qkv a' →
  (ToMeAttention_forward a x size).2 = (ToMeAttention_forward a' x size').2.
Proof.
  intros Hh Hq. cbn. do 2 f_equal. apply list_eq. intros b.
  rewrite !lookup_map, !list_lookup_imap. destruct (x !! b) as [xb |]; [| done].
  cbn. unfold qkv_heads. by rewrite Hh, Hq.
Qed.

(** X13. In the fused path neither [self.scale] nor the [attn_drop] module
    is used: two attention modules on the fused path that agree on
    everything else return the same output and metric. *)
Theorem fused_path_ignores_scale_and_attn_drop
    (a a' : attention T) (x : tensor3 T) size :
  attn_fused a = true →
  attn_fused a' = true →
  attn_num_heads a = attn_num_heads a' →
  attn_training a = attn_training a' →
  attn_qkv a = attn_qkv a' →
  attn_drop_p a = attn_drop_p a' →
  attn_proj a = attn_proj a' →
  attn_proj_drop a = attn_proj_drop a' →
  ToMeAttention_forward a x size = ToMeAttention_forward a' x size.
Proof.
  intros Hf Hf' Hh Ht Hq Hp Hpr Hpd.
  unfold ToMeAttention_forward, attention_sample, fused_head, qkv_heads.
  by rewrite Hf, Hf', Hh, Ht, Hq, Hp, Hpr, Hpd.
Qed.

End TomeTheory.

(** ** The harness *)

Module HarnessTheory.
Import Harness.

Section RunTheory.

Context {F W Model Tensor Measurement : Type}.
Variable E : @env F W Model Tensor Measurement.

Lemma keeps_ret {A : Type} (a : A) : keeps_results (ret a : @comp (@bench F W) A).
Proof. by intros b b' r [= <- _]. Qed.

Lemma keeps_raise {A : Type} e : keeps_results (raise e : @comp (@bench F W) A).
Proof. by intros b b' r [= <- _]. Qed.

Lemma keeps_call {A : Type} (m : @comp W A) : keeps_results (call (F := F) m).
Proof.
  intros b b' r. unfold call. destruct (m (outside b)) as [w res].
  by intros [= <- _].
Qed.

Lemma keeps_bind {A B : Type} (m : @comp (@bench F W) A) (k : A → @comp (@bench F W) B) :
  keeps_results m → (∀ a, keeps_results (k a)) → keeps_results (bind m k).
Proof.
  intros Hm Hk b b' r. unfold bind.
  destruct (m b) as [b1 [a | e]] eqn:Em.
  - intros Ek. rewrite (Hk a _ _ _ Ek). by eapply Hm.
  - intros [= <- _]. by eapply Hm.
Qed.

Lemma keeps_repeat n (body : @comp (@bench F W) unit) :
  keeps_results body → keeps_results (repeat_n n body).
Proof.
  intros Hb. induction n as [| n IH]; cbn [repeat_n].
  - apply keeps_ret.
  - apply keeps_bind; [done | by intros _].
Qed.

Ltac keeps_step :=
  first
    [ apply keeps_ret | apply keeps_raise | apply keeps_call
    | apply keeps_repeat
    | apply keeps_bind; [| intros ?]
    | match goal with |- keeps_results (if ?c then _ else _) => destruct c end ].

Lemma keeps_try_body model_name batch_size seq_len algorithm total_merge_num
    warmup_iters benchmark_iters inflect h use_naive_local verbose :
  keeps_results
    (try_body E model_name batch_size seq_len algorithm total_merge_num
              warmup_iters benchmark_iters inflect h use_naive_local verbose).
Proof. unfold try_body. repeat keeps_step. Qed.

(** C9. When a step of the [try] block raises an instance of [Exception]
    (an out-of-memory error is one), [run] returns normally; it has
    appended one row for the configuration, with [nan] for latency,
    throughput and peak memory and status ['failed'], to the rows already
    there; whatever comes after the call runs next. *)
Theorem failed_trial_is_recorded
    model_name batch_size seq_len algorithm total_merge_num
    warmup_iters benchmark_iters inflect h use_naive_local verbose
    (b b1 b2 b3 : @bench F W) (e : pyexn) :
  in_list algorithm ALGO_MAP_keys = true →
  call (cuda_empty_cache E) b = (b1, Ok tt) →
  call (cuda_synchronize E) b1 = (b2, Ok tt) →
  try_body E model_name batch_size seq_len algorithm total_merge_num
           warmup_iters benchmark_iters inflect h use_naive_local verbose b2
    = (b3, Raise e) →
  isinstance_Exception e = true →
  let row := make_row model_name batch_size seq_len algorithm total_merge_num
                      h use_naive_local failed in
  let b' := {| outside := outside b3; results := results b ++ [row] |} in
  run E model_name batch_size seq_len algorithm total_merge_num
      warmup_iters benchmark_iters inflect h use_naive_local verbose b
    = (b', Ok tt) ∧
  latency_ms row = CNaN ∧ throughput row = CNaN ∧ peak_mem_mb row = CNaN ∧
  status row = "failed" ∧
  isinstance_Exception OutOfMemoryError = true ∧
  (∀ (A : Type) (next : @comp (@bench F W) A),
     (run E model_name batch_size seq_len algorithm total_merge_num
          warmup_iters benchmark_iters inflect h use_naive_local verbose ;;;
      next) b = next b').
Proof.
  intros Halg H1 H2 H3 He row b'.
  assert (results b3 = results b) as Hres.
  { rewrite (keeps_try_body _ _ _ _ _ _ _ _ _ _ _ _ _ _ H3).
    rewrite (keeps_call _ _ _ _ H2). by rewrite (keeps_call _ _ _ _ H1). }
  assert (run E model_name batch_size seq_len algorithm total_merge_num
              warmup_iters benchmark_iters inflect h use_naive_local verbose b
            = (b', Ok tt)) as Hrun.
  { unfold run. rewrite Halg. cbn [negb]. unfold bind at 1. rewrite H1.
    unfold bind at 1. rewrite H2. unfold bind at 1, try_except.
    rewrite H3, He. unfold ret, append_row. subst b'. by rewrite Hres. }
  split_and!; try done.
  intros A next. unfold bind. by rewrite Hrun.
Qed.

(** ** More on [run] *)

Lemma call_eq {A : Type} (m : @comp W A) (b : @bench F W) w r :
  m (outside b) = (w, r) →
  call m b = ({| outside := w; results := results b |}, r).
Proof. intros Hm. unfold call. by rewrite Hm. Qed.

Lemma bind_ok_inv {A B : Type} (m : @comp (@bench F W) A)
    (k : A → @comp (@bench F W) B) b b' y :
  bind m k b = (b', Ok y) →
  ∃ b1 x, m b = (b1, Ok x) ∧ k x b1 = (b', Ok y).
Proof.
  unfold bind. destruct (m b) as [b1 [x | e]]; [eauto | discriminate].
Qed.

Lemma try_body_success model_name batch_size seq_len algorithm total_merge_num
    warmup_iters benchmark_iters inflect h use_naive_local verbose
    (b b' : @bench F W) o :
  try_body E model_name batch_size seq_len algorithm total_merge_num
           warmup_iters benchmark_iters inflect h use_naive_local verbose b
    = (b', Ok o) →
  ∃ lat thr mem,
    o = {| o_latency_ms := CFloat lat; o_throughput := CFloat thr;
           o_peak_mem_mb := CFloat mem; o_status := "success" |}.
Proof.
  unfold try_body. intros Hb.
  do 13 (apply bind_ok_inv in Hb as (? & ? & _ & Hb)).
  injection Hb as _ <-. eauto.
Qed.

(** X14. For an algorithm that is not a key of [ALGO_MAP], [run] returns at
    once: no row is appended, nothing outside is called and no exception is
    raised. *)
Theorem unknown_algorithm_is_skipped
    model_name batch_size seq_len algorithm total_merge_num
    warmup_iters benchmark_iters inflect h use_naive_local verbose
    (b : @bench F W) :
  in_list algorithm ALGO_MAP_keys = false →
  run E model_name batch_size seq_len algorithm total_merge_num
      warmup_iters benchmark_iters inflect h use_naive_local verbose b
    = (b, Ok tt).
Proof. intros Halg. unfold run. by rewrite Halg. Qed.

(** X15. An exception of the [try] block that is not an instance of
    [Exception] (a keyboard interrupt, an interpreter exit) is not caught:
    [run] raises it and appends no row. *)
Theorem base_exception_is_not_caught
    model_name batch_size seq_len algorithm total_merge_num
    warmup_iters benchmark_iters inflect h use_naive_local verbose
    (b b1 b2 b3 : @bench F W) (e : pyexn) :
  in_list algorithm ALGO_MAP_keys = true →
  call (cuda_empty_cache E) b = (b1, Ok tt) →
  call (cuda_synchronize E) b1 = (b2, Ok tt) →
  try_body E model_name batch_size seq_len algorithm total_merge_num
           warmup_iters benchmark_iters inflect h use_naive_local verbose b2
    = (b3, Raise e) →
  isinstance_Exception e = false →
  run E model_name batch_size seq_len algorithm total_merge_num
      warmup_iters benchmark_iters inflect h use_naive_local verbose b
    = (b3, Raise e) ∧
  results b3 = results b.
Proof.
  intros Halg H1 H2 H3 He. split.
  - unfold run. rewrite Halg. cbn [negb]. unfold bind at 1. rewrite H1.
    unfold bind at 1. rewrite H2. unfold bind at 1, try_except.
    by rewrite H3, He.
  - rewrite (keeps_try_body _ _ _ _ _ _ _ _ _ _ _ _ _ _ H3).
    rewrite (keeps_call _ _ _ _ H2). by rewrite (keeps_call _ _ _ _ H1).
Qed.

(** X16. The two device calls that open [run] are outside the [try]: an
    exception of either, of whatever class, leaves [run] as it is raised
    and no row is appended. *)
Theorem device_calls_are_outside_try
    model_name batch_size seq_len algorithm total_merge_num
    warmup_iters benchmark_iters inflect h use_naive_local verbose
    (b : @bench F W) :
  in_list algorithm ALGO_MAP_keys = true →
  (∀ w e, cuda_empty_cache E (outside b) = (w, Raise e) →
     run E model_name batch_size seq_len algorithm total_merge_num
         warmup_iters benchmark_iters inflect h use_naive_local verbose b
       = ({| outside := w; results := results b |}, Raise e)) ∧
  (∀ w1 w2 e, cuda_empty_cache E (outside b) = (w1, Ok tt) →
     cuda_synchronize E w1 = (w2, Raise e) →
     run E model_name batch_size seq_len algorithm total_merge_num
         warmup_iters benchmark_iters inflect h use_naive_local verbose b
       = ({| outside := w2; results := results b |}, Raise e)).
Proof.
  intros Halg. split.
  - intros w e H1. unfold run. rewrite Halg. cbn [negb]. unfold bind at 1.
    by rewrite (call_eq _ _ _ _ H1).
  - intros w1 w2 e H1 H2. unfold run. rewrite Halg. cbn [negb].
    unfold bind at 1. rewrite (call_eq _ _ _ _ H1). unfold bind at 1.
    by rewrite (call_eq _ {| outside := w1; results := results b |} _ _ H2).
Qed.

(** X17. When the [try] block runs to its end, [run] appends one row with
    status ['success'] whose latency, throughput and peak memory are
    floats (not the [nan] sentinel), after the rows already there. *)
Theorem successful_trial_is_recorded
    model_name batch_size seq_len algorithm total_merge_num
    warmup_iters benchmark_iters inflect h use_naive_local verbose
    (b b1 b2 b3 : @bench F W) o :
  in_list algorithm ALGO_MAP_keys = true →
  call (cuda_empty_cache E) b = (b1, Ok tt) →
  call (cuda_synchronize E) b1 = (b2, Ok tt) →
  try_body E model_name batch_size seq_len algorithm total_merge_num
           warmup_iters benchmark_iters inflect h use_naive_local verbose b2
    = (b3, Ok o) →
  let row := make_row model_name batch_size seq_len algorithm total_merge_num
                      h use_naive_local o in
  run E model_name batch_size seq_len algorithm total_merge_num
      warmup_iters benchmark_iters inflect h use_naive_local verbose b
    = ({| outside := outside b3; results := results b ++ [row] |}, Ok tt) ∧
  status row = "success" ∧
  ∃ lat thr mem,
    latency_ms row = CFloat lat ∧ throughput row = CFloat thr ∧
    peak_mem_mb row = CFloat mem.
Proof.
  intros Halg H1 H2 H3 row.
  assert (results b3 = results b) as Hres.
  { rewrite (keeps_try_body _ _ _ _ _ _ _ _ _ _ _ _ _ _ H3).
    rewrite (keeps_call _ _ _ _ H2). by rewrite (keeps_call _ _ _ _ H1). }
  destruct (try_body_success _ _ _ _ _ _ _ _ _ _ _ _ _ _ H3)
    as (lat & thr & mem & Ho).
  split_and!.
  - unfold run. rewrite Halg. cbn [negb]. unfold bind at 1. rewrite H1.
    unfold bind at 1. rewrite H2. unfold bind at 1, try_except.
    rewrite H3. unfold append_row. by rewrite Hres.
  - subst row. by rewrite Ho.
  - exists lat, thr, mem. subst row. by rewrite Ho.
Qed.

(** X18. Whatever happens in a call of [run], the rows that were there stay
    as they are, in place; at most one row is added behind them, it carries
    the model name, algorithm, batch size, sequence length and merge target
    of the call and its status is ['success'] or ['failed']; and a call
    for a known algorithm that returns has added exactly one. *)
Theorem results_only_grow
    model_name batch_size seq_len algorithm total_merge_num
    warmup_iters benchmark_iters inflect h use_naive_local verbose
    (b b' : @bench F W) res :
  run E model_name batch_size seq_len algorithm total_merge_num
      warmup_iters benchmark_iters inflect h use_naive_local verbose b
    = (b', res) →
  ∃ rows,
    results b' = results b ++ rows ∧
    length rows ≤ 1 ∧
    Forall (λ r, row_echoes r model_name batch_size seq_len algorithm
                             total_merge_num ∧
                 (status r = "success" ∨ status r = "failed")) rows ∧
    (in_list algorithm ALGO_MAP_keys = true → res = Ok tt → length rows = 1).
Proof.
  unfold run. destruct (in_list algorithm ALGO_MAP_keys) eqn:Halg; cbn [negb].
  2:{ intros [= <- <-]. exists []. rewrite app_nil_r.
      split_and!; [done | cbn; lia | constructor | done]. }
  unfold bind at 1.
  destruct (call (cuda_empty_cache E) b) as [b1 [[] | e1]] eqn:H1.
  2:{ intros [= <- <-]. exists []. rewrite app_nil_r.
      rewrite (keeps_call _ _ _ _ H1).
      split_and!; [done | cbn; lia | constructor | done]. }
  unfold bind at 1.
  destruct (call (cuda_synchronize E) b1) as [b2 [[] | e2]] eqn:H2.
  2:{ intros [= <- <-]. exists []. rewrite app_nil_r.
      rewrite (keeps_call _ _ _ _ H2), (keeps_call _ _ _ _ H1).
      split_and!; [done | cbn; lia | constructor | done]. }
  unfold bind at 1, try_except.
  destruct (try_body E _ _ _ _ _ _ _ _ _ _ _ b2) as [b3 [o | e3]] eqn:H3.
  - unfold append_row. intros [= <- <-].
    destruct (try_body_success _ _ _ _ _ _ _ _ _ _ _ _ _ _ H3)
      as (lat & thr & mem & ->).
    eexists [_]. cbn [results].
    rewrite (keeps_try_body _ _ _ _ _ _ _ _ _ _ _ _ _ _ H3).
    rewrite (keeps_call _ _ _ _ H2), (keeps_call _ _ _ _ H1).
    split_and!; [done | cbn; lia | | done].
    constructor; [| constructor]. split; [by repeat split | by left].
  - destruct (isinstance_Exception e3).
    + unfold ret, append_row. intros [= <- <-].
      eexists [_]. cbn [results].
      rewrite (keeps_try_body _ _ _ _ _ _ _ _ _ _ _ _ _ _ H3).
      rewrite (keeps_call _ _ _ _ H2), (keeps_call _ _ _ _ H1).
      split_and!; [done | cbn; lia | | done].
      constructor; [| constructor]. split; [by repeat split | by right].
    + intros [= <- <-]. exists []. rewrite app_nil_r.
      rewrite (keeps_try_body _ _ _ _ _ _ _ _ _ _ _ _ _ _ H3).
      rewrite (keeps_call _ _ _ _ H2), (keeps_call _ _ _ _ H1).
      split_and!; [done | cbn; lia | constructor | done].
Qed.

Lemma call_at {A : Type} (m : @comp W A) w0 (rs : list (row F)) w r :
  m w0 = (w, r) →
  call m {| outside := w0; results := rs |}
    = ({| outside := w; results := rs |}, r).
Proof. intros Hm. unfold call. cbn. by rewrite Hm. Qed.

Ltac hstep H :=
  unfold bind at 1; rewrite (call_at _ _ _ _ _ H).

(** X19. With a positive merge target and an algorithm other than ["none"],
    a model that has no [_tome_info] after patching makes the [try] block
    raise [ValueError] before anything is configured; the trial is recorded
    as failed and [run] returns. *)
Theorem missing_tome_info_is_a_failed_trial
    model_name batch_size seq_len algorithm total_merge_num
    warmup_iters benchmark_iters inflect h use_naive_local verbose
    (b : @bench F W) w1 w2 w3 w4 w5 w6 ps m :
  in_list algorithm ALGO_MAP_keys = true →
  algorithm ≠ "none" →
  (0 < total_merge_num)%Z →
  (0 <= seq_len)%Z →
  cuda_empty_cache E (outside b) = (w1, Ok tt) →
  cuda_synchronize E w1 = (w2, Ok tt) →
  patch_size_of E model_name w2 = (w3, Ok ps) →
  create_model E model_name (Z.sqrt seq_len * ps)%Z w3 = (w4, Ok m) →
  patch_function E algorithm m (build_kwargs algorithm h use_naive_local) w4
    = (w5, Ok tt) →
  has_tome_info E m w5 = (w6, Ok false) →
  run E model_name batch_size seq_len algorithm total_merge_num
      warmup_iters benchmark_iters inflect h use_naive_local verbose b
    = ({| outside := w6;
          results := results b ++
            [make_row model_name batch_size seq_len algorithm total_merge_num
                      h use_naive_local failed] |}, Ok tt).
Proof.
  intros Halg Hnone Hpos Hseq H1 H2 H3 H4 H5 H6. destruct b as [w0 rs].
  cbn [outside results] in *.
  unfold run. rewrite Halg. cbn [negb]. hstep H1. hstep H2.
  unfold bind at 1, try_except, try_body.
  hstep H3. unfold bind at 1.
  assert ((seq_len <? 0)%Z = false) as -> by lia. unfold ret at 1.
  hstep H4. hstep H5. unfold bind at 1.
  assert ((0 <? total_merge_num)%Z = true) as -> by lia.
  rewrite bool_decide_eq_false_2 by done. cbn [negb andb].
  hstep H6. unfold bind at 1, raise at 1. cbn [isinstance_Exception].
  reflexivity.
Qed.

(** X20. A negative sequence length makes the square root of the [try]
    block raise [ValueError] before any model is created; the trial is
    recorded as failed and [run] returns. *)
Theorem negative_seq_len_is_a_failed_trial
    model_name batch_size seq_len algorithm total_merge_num
    warmup_iters benchmark_iters inflect h use_naive_local verbose
    (b : @bench F W) w1 w2 w3 ps :
  in_list algorithm ALGO_MAP_keys = true →
  (seq_len < 0)%Z →
  cuda_empty_cache E (outside b) = (w1, Ok tt) →
  cuda_synchronize E w1 = (w2, Ok tt) →
  patch_size_of E model_name w2 = (w3, Ok ps) →
  run E model_name batch_size seq_len algorithm total_merge_num
      warmup_iters benchmark_iters inflect h use_naive_local verbose b
    = ({| outside := w3;
          results := results b ++
            [make_row model_name batch_size seq_len algorithm total_merge_num
                      h use_naive_local failed] |}, Ok tt).
Proof.
  intros Halg Hneg H1 H2 H3. destruct b as [w0 rs].
  cbn [outside results] in *.
  unfold run. rewrite Halg. cbn [negb]. hstep H1. hstep H2.
  unfold bind at 1, try_except, try_body.
  hstep H3. unfold bind at 1.
  assert ((seq_len <? 0)%Z = true) as -> by lia. unfold raise at 1.
  cbn [isinstance_Exception]. reflexivity.
Qed.

(** X21. With a merge target that is not positive, or with the algorithm
    ["none"], the configuration step is skipped: [run] does not ask for
    [_tome_info], the number of blocks or a merge ratio and sets nothing on
    the model, so two environments that differ in these operations only
    give the same run. *)
Theorem no_configuration_without_budget
    (E' : @env F W Model Tensor Measurement)
    model_name batch_size seq_len algorithm total_merge_num
    warmup_iters benchmark_iters inflect h use_naive_local verbose
    (b : @bench F W) :
  ((total_merge_num <= 0)%Z ∨ algorithm = "none") →
  cuda_empty_cache E = cuda_empty_cache E' →
  cuda_synchronize E = cuda_synchronize E' →
  patch_size_of E = patch_size_of E' →
  create_model E = create_model E' →
  patch_function E = patch_function E' →
  randn E = randn E' →
  verbose_pass E = verbose_pass E' →
  forward E = forward E' →
  timeit E = timeit E' →
  reset_peak_memory_stats E = reset_peak_memory_stats E' →
  max_memory_allocated_mb E = max_memory_allocated_mb E' →
  mean_times_1000 E = mean_times_1000 E' →
  batch_over_mean E = batch_over_mean E' →
  run E model_name batch_size seq_len algorithm total_merge_num
      warmup_iters benchmark_iters inflect h use_naive_local verbose b
    = run E' model_name batch_size seq_len algorithm total_merge_num
          warmup_iters benchmark_iters inflect h use_naive_local verbose b.
Proof.
  intros Hskip H1 H2 H3 H4 H5 H6 H7 H8 H9 H10 H11 H12 H13.
  assert ((0 <? total_merge_num)%Z && negb (bool_decide (algorithm = "none"))
            = false) as Hcond.
  { destruct Hskip as [Hle | ->].
    - assert ((0 <? total_merge_num)%Z = false) as -> by lia. done.
    - rewrite bool_decide_eq_true_2 by done. apply andb_false_r. }
  unfold run, try_body. rewrite Hcond.
  by rewrite H1, H2, H3, H4, H5, H6, H7, H8, H9, H10, H11, H12, H13.
Qed.

(** X22. [run] hands [h] and [use_naive_local] to the patch function of
    the algorithm ["tome"].  With the [tome_apply_patch] of
    [src/opentome/timm/tome.py] as that function, whose parameters are
    [model], [trace_source] and [prop_attn], the call is a [TypeError]:
    the model is created but never patched, and the trial is recorded as
    failed. *)
Theorem tome_trial_fails_on_unknown_keywords
    (body : Model → bool → bool → @comp W unit)
    model_name batch_size seq_len total_merge_num
    warmup_iters benchmark_iters inflect h use_naive_local verbose
    (b : @bench F W) w1 w2 w3 w4 ps m :
  (∀ m kw, patch_function E "tome" m kw = call_tome_apply_patch body m kw) →
  (0 <= seq_len)%Z →
  cuda_empty_cache E (outside b) = (w1, Ok tt) →
  cuda_synchronize E w1 = (w2, Ok tt) →
  patch_size_of E model_name w2 = (w3, Ok ps) →
  create_model E model_name (Z.sqrt seq_len * ps)%Z w3 = (w4, Ok m) →
  bind_tome_kwargs (build_kwargs "tome" h use_naive_local) = Raise TypeError ∧
  run E model_name batch_size seq_len "tome" total_merge_num
      warmup_iters benchmark_iters inflect h use_naive_local verbose b
    = ({| outside := w4;
          results := results b ++
            [make_row model_name batch_size seq_len "tome" total_merge_num
                      h use_naive_local failed] |}, Ok tt).
Proof.
  intros Hpatch Hseq H1 H2 H3 H4. destruct b as [w0 rs].
  cbn [outside results] in *.
  assert (bind_tome_kwargs (build_kwargs "tome" h use_naive_local)
            = Raise TypeError) as Hkw by reflexivity.
  split; [exact Hkw |].
  assert (patch_function E "tome" m (build_kwargs "tome" h use_naive_local) w4
            = (w4, Raise TypeError)) as H5.
  { rewrite Hpatch. unfold call_tome_apply_patch. by rewrite Hkw. }
  unfold run.
  assert (in_list "tome" ALGO_MAP_keys = true) as -> by reflexivity.
  cbn [negb]. hstep H1. hstep H2.
  unfold bind at 1, try_except, try_body.
  hstep H3. unfold bind at 1.
  assert ((seq_len <? 0)%Z = false) as -> by lia. unfold ret at 1.
  hstep H4. hstep H5. cbn [isinstance_Exception]. reflexivity.
Qed.

End RunTheory.

End HarnessTheory.

(** * The theorems at concrete inputs *)

Import Demo.

Lemma demo_blocks_patched n : Forall (patched_with 0) (replicate n blk).
Proof.
  apply Forall_replicate. split_and!; [reflexivity | reflexivity |].
  eexists. reflexivity.
Defined.

(** C1 on two merging blocks over four tokens *)
Lemma size_sum_is_conserved_witness :
  Forall (patched_with 0) [blk; blk] ∧
  length [blk; blk] ≤ length [1%Z; 1%Z] ∧
  Forall (λ xb : list (list Z), length xb = 4) x4 ∧
  ((∃ w' x' info',
      run_blocks [blk; blk] x4 (world0 (RList [1%Z; 1%Z])) = (w', Ok x') ∧
      heap w' !! 0 = Some info' ∧
      size_conserved 4 x' (current_size info' x')) ∧
   (∀ (mp : merge_mapping) (row : list nat),
      Forall2 (λ new i, default 0 (row !! i) ≤ new)
              (apply_mapping Nat.add 0 mp row) (mm_keep mp ++ mm_dst mp))).
Proof.
  assert (Forall (patched_with 0) [blk; blk]) as H1
    by exact (demo_blocks_patched 2).
  assert (length [blk; blk] ≤ length [1%Z; 1%Z]) as H2 by (simpl; lia).
  assert (Forall (λ xb : list (list Z), length xb = 4) x4) as H3
    by (repeat constructor).
  split; [exact H1 | split; [exact H2 | split; [exact H3 |]]].
  apply (size_sum_is_conserved 4 0 [blk; blk] x4 (world0 (RList [1%Z; 1%Z]))
           (info0 (RList [1%Z; 1%Z])) [1%Z; 1%Z] H1);
    [reflexivity | reflexivity | exact H2 | reflexivity | exact H3].
Defined.

(** C2 on a block that pops a zero *)
Lemma block_pops_exactly_one_entry_witness :
  ti_r (info0 (RList [0%Z; 1%Z])) = RList (0%Z :: [1%Z]) ∧
  attn_result (blk_attn blk) (per_token (blk_norm1 blk) x4)
              (attn_size_arg (info0 (RList [0%Z; 1%Z]))) = Ok (am4.1, am4.2) ∧
  isinstance_float_or_Tensor
    (PyTensor (map snd (imap (attention_sample attn2 2 None) x4))) = true ∧
  ∃ w' res rest,
    ToMeBlock_forward blk x4 (world0 (RList [0%Z; 1%Z])) = (w', res) ∧
    ti_r <$> heap w' !! 0 = Some (RList [1%Z]) ∧
    trace w' = [] ++ [EvAttend None; EvResidual1; EvPop 0] ++ rest ∧
    Forall (λ e, is_pop e = false ∧ is_attend e = false) rest ∧
    ((0 <= 0)%Z →
       rest = [EvMlp] ∧
       heap w' = <[0 := set_r (RList [1%Z]) (info0 (RList [0%Z; 1%Z]))]>
                   (heap (world0 (RList [0%Z; 1%Z]))) ∧
       res = Ok (residual2 blk (residual1 blk x4 am4.1)) ∧
       (map length am4.1 = map length x4 →
        map length (residual2 blk (residual1 blk x4 am4.1)) = map length x4)).
Proof.
  split; [reflexivity | split; [reflexivity | split; [reflexivity |]]].
  apply (block_pops_exactly_one_entry blk x4 (world0 (RList [0%Z; 1%Z])) 0
           (info0 (RList [0%Z; 1%Z])) 0 [1%Z] am4.1 am4.2
           (PyTensor (map snd (imap (attention_sample attn2 2 None) x4))));
    reflexivity.
Defined.

(** C3 on a dictionary that holds sizes 1, 2, 1, 1 with the mode on: the
    output of attention with these sizes, and without a size *)
Lemma proportional_attention_bias_witness :
  heap (world_sized [[1; 2; 1; 1]]) !! 0 = Some (info_sized [[1; 2; 1; 1]]) ∧
  ti_prop_attn (info_sized [[1; 2; 1; 1]]) = true ∧
  length [1; 2; 1; 1] = length [[1; 2]; [3; 4]; [5; 6]; [7; 9]]%Z ∧
  ToMeBlock_attend blk 0 x4 (world_sized [[1; 2; 1; 1]]) =
    ({| heap := heap (world_sized [[1; 2; 1; 1]]);
        trace := [] ++ [EvAttend (Some [[1; 2; 1; 1]])] |},
     Ok (ToMeAttention_forward attn2 x4 (Some [[1; 2; 1; 1]]))) ∧
  (ToMeAttention_forward attn2 x4 (Some [[1; 2; 1; 1]])).1 !! 0
    = Some [[87; 278]; [255; 552]; [423; 826]; [591; 1237]]%Z ∧
  (ToMeAttention_forward attn2 x4 None).1 !! 0
    = Some [[84; 274]; [252; 548]; [420; 822]; [588; 1233]]%Z.
Proof.
  assert (heap (world_sized [[1; 2; 1; 1]]) !! 0
            = Some (info_sized [[1; 2; 1; 1]])) as Hl by reflexivity.
  destruct (proportional_attention_bias blk attn2 0 x4
              (world_sized [[1; 2; 1; 1]]) (info_sized [[1; 2; 1; 1]])
              eq_refl Hl) as (Hon & _ & Hout).
  split; [exact Hl |]. split; [reflexivity |]. split; [reflexivity |].
  split; [exact (Hon eq_refl) |].
  split; [| reflexivity].
  exact (Hout [[1; 2; 1; 1]] 0 [[1; 2]; [3; 4]; [5; 6]; [7; 9]]%Z [1; 2; 1; 1]
              eq_refl eq_refl eq_refl).
Defined.

(** C4 on two blocks and the all-zero schedule *)
Lemma zero_schedule_equals_merging_disabled_witness :
  vit_tome_classes (vit_of 2) = 1 ∧
  plan_const 0 (length (vit_blocks (vit_of 2))) (vit_r (vit_of 2)) None
    = Ok [0%Z; 0%Z] ∧
  Forall (λ r, r = 0%Z) [0%Z; 0%Z] ∧
  ∃ out evs,
    call_model (plan_const 0) (vit_of 2) x4 (world0 (RInt 0)) =
      ({| heap := <[0 := reset_info [] (info0 (RInt 0))]>
                    (heap (world0 (RInt 0)));
          trace := [] ++ replicate 1 (EvPrologue [0%Z; 0%Z]) ++ evs |},
       Ok out) ∧
    forward_without_merging (vit_of 2) x4 = Ok out.
Proof.
  assert (Forall (λ r, r = 0%Z) [0%Z; 0%Z]) as Hz by (repeat constructor).
  split; [reflexivity | split; [reflexivity | split; [exact Hz |]]].
  destruct (zero_schedule_equals_merging_disabled (plan_const 0) (vit_of 2) x4
              (world0 (RInt 0)) 0 (info0 (RInt 0)) [0%Z; 0%Z] 0
              eq_refl eq_refl (demo_blocks_patched 2) eq_refl eq_refl eq_refl Hz)
    as (out & evs & Hrun & _ & Hplain & _).
  exists out, evs. split; [exact Hrun | exact Hplain].
Defined.

(** C5 on a block whose attention hands back a string *)
Lemma non_numeric_metric_aborts_witness :
  isinstance_float_or_Tensor (PyStr "none" : pyval Z) = false ∧
  ToMeBlock_forward blk_str x4 (world0 (RList [1%Z])) =
    ({| heap := heap (world0 (RList [1%Z])); trace := [] ++ [EvAttend None] |},
     Raise (AssertionError "metric not a float or torch.Tensor")) ∧
  run_blocks ([] ++ blk_str :: [blk]) x4 (world0 (RList [1%Z])) =
    ({| heap := heap (world0 (RList [1%Z])); trace := [] ++ [EvAttend None] |},
     Raise (AssertionError "metric not a float or torch.Tensor")).
Proof.
  split; [reflexivity |].
  destruct (non_numeric_metric_aborts blk_str x4 (world0 (RList [1%Z])) 0
              (info0 (RList [1%Z])) x4 {[ "metric" := PyStr "none" ]}
              (PyStr "none") [] [blk] x4 (world0 (RList [1%Z]))
              eq_refl eq_refl eq_refl eq_refl eq_refl eq_refl eq_refl)
    as (Hfw & Hrun & _).
  split; [exact Hfw | exact Hrun].
Defined.

(** C6 at a model of one block that was patched twice: a forward call
    runs the prologue twice *)
Lemma prologue_runs_once_counterexample :
  ¬ (∀ w m, patched_twice = (w, Ok m) →
            prologue_runs_once (plan_const 0) m x4 w).
Proof.
  intros Hc.
  destruct patched_twice as [w r] eqn:E. vm_compute in E.
  injection E as <- <-.
  destruct (Hc _ _ eq_refl) as (evs & Ht & Hn).
  vm_compute in Ht. subst evs. discriminate Hn.
Qed.

(** the amended C6 on two blocks and the schedule 1, 1, patched once *)
Lemma forward_prologue_resets_state_witness :
  vit_tome_classes (vit_of 2) = 1 ∧
  plan_const 1 (length (vit_blocks (vit_of 2))) (vit_r (vit_of 2)) None
    = Ok [1%Z; 1%Z] ∧
  call_model (plan_const 1) (vit_of 2) x4 (world0 (RInt 0)) =
    VisionTransformer_forward (vit_of 2) x4
      {| heap := <[0 := reset_info [1%Z; 1%Z] (info0 (RInt 0))]>
                   (heap (world0 (RInt 0)));
         trace := [] ++ replicate 1 (EvPrologue [1%Z; 1%Z]) |} ∧
  prologue_runs_once (plan_const 1) (vit_of 2) x4 (world0 (RInt 0)).
Proof.
  split; [reflexivity | split; [reflexivity |]].
  destruct (forward_prologue_resets_state (plan_const 1) (vit_of 2) x4
              (world0 (RInt 0)) 0 (info0 (RInt 0)) [1%Z; 1%Z] 0
              eq_refl eq_refl eq_refl eq_refl) as (Hfw & _ & Honce & _).
  split; [exact Hfw | exact (proj2 Honce eq_refl)].
Defined.

(** C7 at a model with one block: the two passes are not isolated; the
    order below lets the first pass pop the entry that the prologue of the
    second has just installed, and the second finds the schedule empty *)
Lemma passes_isolated_counterexample :
  ¬ passes_isolated (plan_const 0) (vit_of 1) x4 x4 (world0 (RInt 0)).
Proof.
  intros Hiso.
  specialize (Hiso [true; false; true; false; true; false]).
  destruct (interleave (plan_const 0) (vit_of 1)
              [true; false; true; false; true; false]
              (Pending x4) (Pending x4) (world0 (RInt 0)))
    as [[w' p1] p2] eqn:E.
  vm_compute in E. injection E as <- <- <-.
  destruct (Hiso _ _ _ eq_refl) as [_ H2]. vm_compute in H2. discriminate H2.
Qed.

(** the amended C7 at the same model *)
Lemma merge_state_is_model_scoped_witness :
  plan_const 0 (length (vit_blocks (vit_of 1))) (vit_r (vit_of 1)) None
    = Ok [0%Z] ∧
  pass_step (plan_const 0) (vit_of 1) (Pending x4) (world0 (RList [])) =
    ({| heap := <[0 := reset_info [0%Z] (info0 (RList []))]>
                  (heap (world0 (RList [])));
        trace := [] ++ [EvPrologue [0%Z]] |},
     Running x4 [blk]).
Proof.
  split; [reflexivity |].
  apply (merge_state_is_model_scoped (plan_const 0) (vit_of 1) x4
           (world0 (RList [])) 0 (info0 (RList [])) [0%Z]
           eq_refl eq_refl eq_refl).
Defined.

Lemma x4_shape : has_shape x4 1 4 2.
Proof. split; [reflexivity |]. repeat constructor. Defined.

(** C8 at two heads and two channels: the metric has one channel *)
Lemma metric_has_input_shape_counterexample :
  ¬ metric_has_input_shape attn2 x4 None.
Proof.
  intros Hc. destruct (Hc 1 4 2 x4_shape) as (m & Hm & Hs).
  vm_compute in Hm. injection Hm as <-.
  destruct Hs as [_ Hf].
  inversion Hf as [| ? ? [_ Hv] _]. inversion Hv as [| ? ? Hlen _].
  discriminate Hlen.
Qed.

(** the amended C8 at the same input *)
Lemma metric_is_mean_of_keys_per_head_witness :
  has_shape x4 1 4 2 ∧
  ∃ m, (ToMeAttention_forward attn2 x4 None).2 = {[ "metric" := PyTensor m ]} ∧
       has_shape m 1 4 (2 / attn_num_heads attn2).
Proof.
  split; [exact x4_shape |].
  destruct (metric_is_mean_of_keys_per_head attn2 x4 None 1 4 2 x4_shape)
    as (m & Hm & Hs & _).
  exists m. split; [exact Hm | exact Hs].
Defined.

(** C9 when the device cannot be synchronised at the start of [run]: the
    exception leaves [run] *)
Lemma failures_are_recorded_counterexample :
  ¬ Harness.failures_are_recorded
      (env_log (log "empty_cache" tt) (raise RuntimeError) patch_log true
               (log "timeit" tt)).
Proof.
  intros Hc.
  destruct (Harness.run
              (env_log (log "empty_cache" tt) (raise RuntimeError) patch_log
                       true (log "timeit" tt))
              "vit_base_patch16_224" 8 196 "tome" 0 1 1 0%Z None false false
              bench_log) as [b' res] eqn:E.
  assert (Harness.in_list "tome" Harness.ALGO_MAP_keys = true) as Halg
    by reflexivity.
  destruct (Hc _ _ _ _ _ _ _ _ _ _ _ _ _ _ Halg E) as [Hres _].
  vm_compute in E. injection E as _ <-. discriminate Hres.
Qed.

(** the amended C9 when the timer runs out of memory *)
Lemma failed_trial_is_recorded_witness :
  Harness.try_body env_oom "vit_base_patch16_224" 8 196 "tome" 0 1 1 0%Z
                   None false false bench0
    = (bench0, Raise OutOfMemoryError) ∧
  Harness.run env_oom "vit_base_patch16_224" 8 196 "tome" 0 1 1 0%Z
              None false false bench0
    = ({| Harness.outside := tt;
          Harness.results :=
            [] ++ [Harness.make_row "vit_base_patch16_224" 8 196 "tome" 0
                                    None false Harness.failed] |}, Ok tt).
Proof.
  split; [reflexivity |].
  apply (HarnessTheory.failed_trial_is_recorded env_oom
           "vit_base_patch16_224" 8%Z 196%Z "tome" 0%Z 1 1%Z 0%Z None false false
           bench0 bench0 bench0 bench0 OutOfMemoryError
           eq_refl eq_refl eq_refl eq_refl eq_refl).
Defined.

(** X1 on two blocks and a schedule of three entries *)
Lemma blocks_pop_schedule_in_order_witness :
  Forall (patched_with 0) [blk; blk] ∧
  length [blk; blk] ≤ length [1%Z; 0%Z; 2%Z] ∧
  ∃ w' x' info' evs,
    run_blocks [blk; blk] x4 (world0 (RList [1%Z; 0%Z; 2%Z])) = (w', Ok x') ∧
    trace w' = [] ++ evs ∧
    popped evs = [1%Z; 0%Z] ∧
    heap w' !! 0 = Some info' ∧
    ti_r info' = RList [2%Z].
Proof.
  assert (length [blk; blk] ≤ length [1%Z; 0%Z; 2%Z]) as Hlen by (simpl; lia).
  split; [exact (demo_blocks_patched 2) | split; [exact Hlen |]].
  destruct (blocks_pop_schedule_in_order 0 [blk; blk] x4
              (world0 (RList [1%Z; 0%Z; 2%Z])) (info0 (RList [1%Z; 0%Z; 2%Z]))
              [1%Z; 0%Z; 2%Z] (demo_blocks_patched 2) eq_refl eq_refl Hlen)
    as (w' & x' & info' & evs & Hrun & Htr & Hp & Hl & Hr & _).
  exists w', x', info', evs.
  split; [exact Hrun | split; [exact Htr | split; [exact Hp |
    split; [exact Hl | exact Hr]]]].
Defined.

(** X2 on three blocks and a schedule of one entry *)
Lemma short_schedule_raises_IndexError_witness :
  Forall (patched_with 0) [blk; blk; blk] ∧
  length [1%Z] < length [blk; blk; blk] ∧
  ∃ w' info' evs s,
    run_blocks [blk; blk; blk] x4 (world0 (RList [1%Z])) = (w', Raise IndexError) ∧
    trace w' = [] ++ evs ++ [EvAttend s; EvResidual1] ∧
    popped evs = [1%Z] ∧
    heap w' !! 0 = Some info' ∧
    ti_r info' = RList [].
Proof.
  assert (length [1%Z] < length [blk; blk; blk]) as Hlen by (simpl; lia).
  split; [exact (demo_blocks_patched 3) | split; [exact Hlen |]].
  apply (short_schedule_raises_IndexError 0 [blk; blk; blk] x4
           (world0 (RList [1%Z])) (info0 (RList [1%Z])) [1%Z]
           (demo_blocks_patched 3) eq_refl eq_refl Hlen).
Defined.

(** X3 on two blocks: no size after two zeros *)
Lemma size_is_set_iff_positive_entry_witness :
  Forall (patched_with 0) [blk; blk] ∧
  length [blk; blk] ≤ length [0%Z; 0%Z] ∧
  ∃ w' x' info',
    run_blocks [blk; blk] x4 (world0 (RList [0%Z; 0%Z])) = (w', Ok x') ∧
    heap w' !! 0 = Some info' ∧
    (is_Some (ti_size info') ↔
       is_Some (ti_size (info0 (RList [0%Z; 0%Z])))
       ∨ Exists (λ r, (0 < r)%Z) (take (length [blk; blk]) [0%Z; 0%Z])).
Proof.
  assert (length [blk; blk] ≤ length [0%Z; 0%Z]) as Hlen by (simpl; lia).
  split; [exact (demo_blocks_patched 2) | split; [exact Hlen |]].
  apply (size_is_set_iff_positive_entry 0 [blk; blk] x4
           (world0 (RList [0%Z; 0%Z])) (info0 (RList [0%Z; 0%Z])) [0%Z; 0%Z]
           (demo_blocks_patched 2) eq_refl eq_refl Hlen).
Defined.

(** X4 on two blocks that merge, with tracing off and with tracing on *)
Lemma source_is_written_only_when_tracing_witness :
  Forall (patched_with 0) [blk; blk] ∧
  length [blk; blk] ≤ length [1%Z; 1%Z] ∧
  ti_trace_source (info_quiet (RList [1%Z; 1%Z])) = false ∧
  ti_trace_source (info0 (RList [1%Z; 1%Z])) = true ∧
  (∃ w' x' info',
     run_blocks [blk; blk] x4 (world_quiet (RList [1%Z; 1%Z])) = (w', Ok x') ∧
     heap w' !! 0 = Some info' ∧
     ti_source info' = None) ∧
  (∃ w' x' info',
     ToMeBlock_forward blk x4 (world0 (RList [1%Z; 1%Z])) = (w', Ok x') ∧
     heap w' !! 0 = Some info' ∧
     is_Some (ti_source info')).
Proof.
  assert (length [blk; blk] ≤ length [1%Z; 1%Z]) as Hlen by (simpl; lia).
  assert (patched_with 0 blk) as Hblk.
  { split; [reflexivity | split; [reflexivity | eexists; reflexivity]]. }
  split; [exact (demo_blocks_patched 2) | split; [exact Hlen |]].
  split; [reflexivity | split; [reflexivity |]].
  split.
  - destruct (source_is_written_only_when_tracing 0 [blk; blk] x4
                (world_quiet (RList [1%Z; 1%Z])) (info_quiet (RList [1%Z; 1%Z]))
                [1%Z; 1%Z] (demo_blocks_patched 2) eq_refl eq_refl Hlen)
      as [Hoff _].
    exact (Hoff eq_refl).
  - destruct (source_is_written_only_when_tracing 0 [blk; blk] x4
                (world0 (RList [1%Z; 1%Z])) (info0 (RList [1%Z; 1%Z]))
                [1%Z; 1%Z] (demo_blocks_patched 2) eq_refl eq_refl Hlen)
      as [_ Hon].
    apply (Hon eq_refl blk 1%Z [1%Z] Hblk eq_refl). reflexivity.
Defined.

(** X5 on a block whose attention hands back an empty dictionary *)
Lemma missing_metric_key_raises_KeyError_witness :
  attn_result (blk_attn blk_nokey) (per_token (blk_norm1 blk_nokey) x4)
              (attn_size_arg (info0 (RList [1%Z]))) = Ok (x4, ∅) ∧
  (∅ : gmap string (pyval Z)) !! "metric" = None ∧
  ToMeBlock_forward blk_nokey x4 (world0 (RList [1%Z])) =
    ({| heap := heap (world0 (RList [1%Z])); trace := [] ++ [EvAttend None] |},
     Raise KeyError).
Proof.
  split; [reflexivity | split; [reflexivity |]].
  apply (missing_metric_key_raises_KeyError blk_nokey x4 (world0 (RList [1%Z]))
           0 (info0 (RList [1%Z])) x4 ∅ eq_refl eq_refl eq_refl eq_refl).
Defined.

(** X6 on a block whose attention raises, behind a block that runs *)
Lemma attention_exception_propagates_witness :
  run_blocks [blk] x4 (world0 (RList [0%Z; 1%Z])) =
    ({| heap := {[ 0 := info0 (RList [1%Z]) ]};
        trace := [EvAttend None; EvResidual1; EvPop 0; EvMlp] |},
     Ok (residual2 blk (residual1 blk x4 am4.1))) ∧
  run_blocks ([blk] ++ blk_raise :: [blk]) x4 (world0 (RList [0%Z; 1%Z])) =
    ({| heap := {[ 0 := info0 (RList [1%Z]) ]};
        trace := [EvAttend None; EvResidual1; EvPop 0; EvMlp] |},
     Raise RuntimeError).
Proof.
  assert (run_blocks [blk] x4 (world0 (RList [0%Z; 1%Z])) =
            ({| heap := {[ 0 := info0 (RList [1%Z]) ]};
                trace := [EvAttend None; EvResidual1; EvPop 0; EvMlp] |},
             Ok (residual2 blk (residual1 blk x4 am4.1)))) as Hpre
    by (vm_compute; reflexivity).
  assert (heap {| heap := {[ 0 := info0 (RList [1%Z]) ]};
                  trace := [EvAttend None; EvResidual1; EvPop 0; EvMlp] |} !! 0
            = Some (info0 (RList [1%Z]))) as Hl by reflexivity.
  split; [exact Hpre |].
  destruct (attention_exception_propagates blk_raise
              (residual2 blk (residual1 blk x4 am4.1))
              {| heap := {[ 0 := info0 (RList [1%Z]) ]};
                 trace := [EvAttend None; EvResidual1; EvPop 0; EvMlp] |}
              0 (info0 (RList [1%Z])) RuntimeError [blk] [blk] x4
              (world0 (RList [0%Z; 1%Z]))
              eq_refl eq_refl Hl eq_refl Hpre) as [_ Hrun].
  exact Hrun.
Defined.

(** X7 with a planner that rejects its arguments *)
Lemma planner_failure_leaves_state_witness :
  plan_fail (length (vit_blocks (vit_of 2))) (vit_r (vit_of 2)) None
    = Raise ValueError ∧
  ToMeVisionTransformer_forward plan_fail (vit_of 2) x4 (world0 (RList [3%Z]))
    = (world0 (RList [3%Z]), Raise ValueError).
Proof.
  split; [reflexivity |].
  apply (planner_failure_leaves_state plan_fail (vit_of 2) x4
           (world0 (RList [3%Z])) 0 (info0 (RList [3%Z])) ValueError
           eq_refl eq_refl eq_refl).
Defined.

(** X10 on the first block of a freshly patched model *)
Lemma patched_block_alone_raises_AttributeError_witness :
  vit_blocks (vit_std 2) !! 0 = Some blk_std ∧
  isinstance_Block (blk_class blk_std) = true ∧
  ∃ w1 model b,
    tome_apply_patch (vit_std 2) true true world_empty = (w1, Ok model) ∧
    vit_blocks model !! 0 = Some b ∧
    call_block b x4 w1 =
      ({| heap := heap w1; trace := trace w1 ++ [EvAttend None; EvResidual1] |},
       Raise AttributeError).
Proof.
  split; [reflexivity | split; [reflexivity |]].
  apply (patched_block_alone_raises_AttributeError (vit_std 2) true true
           world_empty 0 blk_std CAttention attn2 x4 eq_refl eq_refl eq_refl).
Defined.

(** X12 on the naive and the fused path, with and without sizes *)
Lemma metric_depends_on_keys_only_witness :
  attn_num_heads attn2 = attn_num_heads (attn2_with true 5%Z (λ _, [])) ∧
  (ToMeAttention_forward attn2 x4 None).2
    = (ToMeAttention_forward (attn2_with true 5%Z (λ _, [])) x4
         (Some [[1; 2; 1; 1]])).2.
Proof.
  split; [reflexivity |].
  apply (metric_depends_on_keys_only attn2 (attn2_with true 5%Z (λ _, [])) x4
           None (Some [[1; 2; 1; 1]]) eq_refl eq_refl).
Defined.

(** X13 on two fused modules with different scales and dropout modules *)
Lemma fused_path_ignores_scale_and_attn_drop_witness :
  attn_fused (attn2_with true 1%Z (λ m, m)) = true ∧
  attn_fused (attn2_with true 5%Z (λ _, [])) = true ∧
  ToMeAttention_forward (attn2_with true 1%Z (λ m, m)) x4 (Some [[1; 2; 1; 1]])
    = ToMeAttention_forward (attn2_with true 5%Z (λ _, [])) x4
        (Some [[1; 2; 1; 1]]).
Proof.
  split; [reflexivity | split; [reflexivity |]].
  apply (fused_path_ignores_scale_and_attn_drop
           (attn2_with true 1%Z (λ m, m)) (attn2_with true 5%Z (λ _, [])) x4
           (Some [[1; 2; 1; 1]])
           eq_refl eq_refl eq_refl eq_refl eq_refl eq_refl eq_refl eq_refl).
Defined.

(** X14 on an algorithm that [ALGO_MAP] does not hold *)
Lemma unknown_algorithm_is_skipped_witness :
  Harness.in_list "evit" Harness.ALGO_MAP_keys = false ∧
  Harness.run (env_log (log "empty_cache" tt) (log "synchronize" tt)
                       patch_log true (log "timeit" tt))
              "vit_base_patch16_224" 8 196 "evit" 4 1 1 0%Z None false false
              bench_log
    = (bench_log, Ok tt).
Proof.
  split; [reflexivity |].
  apply (HarnessTheory.unknown_algorithm_is_skipped
           (env_log (log "empty_cache" tt) (log "synchronize" tt)
                    patch_log true (log "timeit" tt))
           "vit_base_patch16_224" 8%Z 196%Z "evit" 4%Z 1 1%Z 0%Z None false false
           bench_log eq_refl).
Defined.

(** X15 when the timer is interrupted from the keyboard *)
Lemma base_exception_is_not_caught_witness :
  isinstance_Exception KeyboardInterrupt = false ∧
  Harness.run (env_log (log "empty_cache" tt) (log "synchronize" tt)
                       patch_log true (raise KeyboardInterrupt))
              "vit_base_patch16_224" 8 196 "none" 0 1 1 0%Z None false false
              bench_log
    = ({| Harness.outside :=
            ["empty_cache"; "synchronize"; "patch_size"; "create_model";
             "patch"; "randn"; "forward"; "synchronize"; "reset_peak"];
          Harness.results := [] |},
       Raise KeyboardInterrupt).
Proof.
  split; [reflexivity |].
  destruct (HarnessTheory.base_exception_is_not_caught
              (env_log (log "empty_cache" tt) (log "synchronize" tt)
                       patch_log true (raise KeyboardInterrupt))
              "vit_base_patch16_224" 8%Z 196%Z "none" 0%Z 1 1%Z 0%Z
              None false false
              bench_log
              {| Harness.outside := ["empty_cache"]; Harness.results := [] |}
              {| Harness.outside := ["empty_cache"; "synchronize"];
                 Harness.results := [] |}
              {| Harness.outside :=
                   ["empty_cache"; "synchronize"; "patch_size"; "create_model";
                    "patch"; "randn"; "forward"; "synchronize"; "reset_peak"];
                 Harness.results := [] |}
              KeyboardInterrupt
              eq_refl eq_refl eq_refl eq_refl eq_refl) as [Hrun _].
  exact Hrun.
Defined.

(** X16 when the cache cannot be emptied, and when the device cannot be
    synchronised *)
Lemma device_calls_are_outside_try_witness :
  Harness.run (env_log (raise RuntimeError) (log "synchronize" tt)
                       patch_log true (log "timeit" tt))
              "vit_base_patch16_224" 8 196 "tome" 0 1 1 0%Z None false false
              bench_log
    = (bench_log, Raise RuntimeError) ∧
  Harness.run (env_log (log "empty_cache" tt) (raise RuntimeError)
                       patch_log true (log "timeit" tt))
              "vit_base_patch16_224" 8 196 "tome" 0 1 1 0%Z None false false
              bench_log
    = ({| Harness.outside := ["empty_cache"]; Harness.results := [] |},
       Raise RuntimeError).
Proof.
  split.
  - destruct (HarnessTheory.device_calls_are_outside_try
                (env_log (raise RuntimeError) (log "synchronize" tt)
                         patch_log true (log "timeit" tt))
                "vit_base_patch16_224" 8%Z 196%Z "tome" 0%Z 1 1%Z 0%Z
                None false false bench_log eq_refl) as [H1 _].
    exact (H1 [] RuntimeError eq_refl).
  - destruct (HarnessTheory.device_calls_are_outside_try
                (env_log (log "empty_cache" tt) (raise RuntimeError)
                         patch_log true (log "timeit" tt))
                "vit_base_patch16_224" 8%Z 196%Z "tome" 0%Z 1 1%Z 0%Z
                None false false bench_log eq_refl) as [_ H2].
    exact (H2 ["empty_cache"] ["empty_cache"] RuntimeError eq_refl eq_refl).
Defined.

(** X17 on a trial that runs to its end *)
Lemma successful_trial_is_recorded_witness :
  Harness.run (env_log (log "empty_cache" tt) (log "synchronize" tt)
                       patch_log true (log "timeit" tt))
              "vit_base_patch16_224" 8 196 "dtem" 4 1 1 0%Z None false false
              bench_log
    = ({| Harness.outside :=
            ["empty_cache"; "synchronize"; "patch_size"; "create_model";
             "patch"; "hasattr"; "len"; "check_parse_r"; "configure"; "randn";
             "forward"; "synchronize"; "reset_peak"; "timeit"; "max_memory";
             "throughput"];
          Harness.results :=
            [] ++ [Harness.make_row "vit_base_patch16_224" 8 196 "dtem" 4
                     None false
                     {| Harness.o_latency_ms := Harness.CFloat 3%Z;
                        Harness.o_throughput := Harness.CFloat 5%Z;
                        Harness.o_peak_mem_mb := Harness.CFloat 7%Z;
                        Harness.o_status := "success" |}] |},
       Ok tt).
Proof.
  destruct (HarnessTheory.successful_trial_is_recorded
              (env_log (log "empty_cache" tt) (log "synchronize" tt)
                       patch_log true (log "timeit" tt))
              "vit_base_patch16_224" 8%Z 196%Z "dtem" 4%Z 1 1%Z 0%Z
              None false false
              bench_log
              {| Harness.outside := ["empty_cache"]; Harness.results := [] |}
              {| Harness.outside := ["empty_cache"; "synchronize"];
                 Harness.results := [] |}
              {| Harness.outside :=
                   ["empty_cache"; "synchronize"; "patch_size"; "create_model";
                    "patch"; "hasattr"; "len"; "check_parse_r"; "configure";
                    "randn"; "forward"; "synchronize"; "reset_peak"; "timeit";
                    "max_memory"; "throughput"];
                 Harness.results := [] |}
              {| Harness.o_latency_ms := Harness.CFloat 3%Z;
                 Harness.o_throughput := Harness.CFloat 5%Z;
                 Harness.o_peak_mem_mb := Harness.CFloat 7%Z;
                 Harness.o_status := "success" |}
              eq_refl eq_refl eq_refl eq_refl) as [Hrun _].
  exact Hrun.
Defined.

(** X18 on a trial that fails behind a row that is already there *)
Lemma results_only_grow_witness :
  ∃ rows : list (Harness.row Z),
    [Harness.make_row "vit_base_patch16_224" 8 196 "none" 0 None false
                      Harness.failed;
     Harness.make_row "vit_base_patch16_224" 8 196 "tome" 0 None false
                      Harness.failed]
      = [Harness.make_row "vit_base_patch16_224" 8 196 "none" 0 None false
                          Harness.failed] ++ rows ∧
    length rows = 1.
Proof.
  destruct (HarnessTheory.results_only_grow env_oom
              "vit_base_patch16_224" 8%Z 196%Z "tome" 0%Z 1 1%Z 0%Z
              None false false
              {| Harness.outside := tt;
                 Harness.results :=
                   [Harness.make_row "vit_base_patch16_224" 8 196 "none" 0
                                     None false Harness.failed] |}
              {| Harness.outside := tt;
                 Harness.results :=
                   [Harness.make_row "vit_base_patch16_224" 8 196 "none" 0
                                     None false Harness.failed;
                    Harness.make_row "vit_base_patch16_224" 8 196 "tome" 0
                                     None false Harness.failed] |}
              (Ok tt) eq_refl) as (rows & Hrows & _ & _ & Hone).
  exists rows. split; [exact Hrows | exact (Hone eq_refl eq_refl)].
Defined.

(** X19 on a patch that leaves no [_tome_info] *)
Lemma missing_tome_info_is_a_failed_trial_witness :
  "dtem" ≠ "none" ∧ (0 < 4)%Z ∧ (0 <= 196)%Z ∧
  Harness.run (env_log (log "empty_cache" tt) (log "synchronize" tt)
                       patch_log false (log "timeit" tt))
              "vit_base_patch16_224" 8 196 "dtem" 4 1 1 0%Z None false false
              bench_log
    = ({| Harness.outside :=
            ["empty_cache"; "synchronize"; "patch_size"; "create_model";
             "patch"; "hasattr"];
          Harness.results :=
            [] ++ [Harness.make_row "vit_base_patch16_224" 8 196 "dtem" 4
                                    None false Harness.failed] |},
       Ok tt).
Proof.
  assert ("dtem" ≠ "none") as Hne by discriminate.
  assert (0 < 4)%Z as Hpos by reflexivity.
  assert (0 <= 196)%Z as Hseq by discriminate.
  split; [exact Hne | split; [exact Hpos | split; [exact Hseq |]]].
  apply (HarnessTheory.missing_tome_info_is_a_failed_trial
           (env_log (log "empty_cache" tt) (log "synchronize" tt)
                    patch_log false (log "timeit" tt))
           "vit_base_patch16_224" 8%Z 196%Z "dtem" 4%Z 1 1%Z 0%Z
           None false false bench_log
           ["empty_cache"]
           ["empty_cache"; "synchronize"]
           ["empty_cache"; "synchronize"; "patch_size"]
           ["empty_cache"; "synchronize"; "patch_size"; "create_model"]
           ["empty_cache"; "synchronize"; "patch_size"; "create_model"; "patch"]
           ["empty_cache"; "synchronize"; "patch_size"; "create_model"; "patch";
            "hasattr"]
           16%Z tt eq_refl Hne Hpos Hseq
           eq_refl eq_refl eq_refl eq_refl eq_refl eq_refl).
Defined.

(** X20 on a negative sequence length *)
Lemma negative_seq_len_is_a_failed_trial_witness :
  (-1 < 0)%Z ∧
  Harness.run (env_log (log "empty_cache" tt) (log "synchronize" tt)
                       patch_log true (log "timeit" tt))
              "vit_base_patch16_224" 8 (-1) "none" 0 1 1 0%Z None false false
              bench_log
    = ({| Harness.outside := ["empty_cache"; "synchronize"; "patch_size"];
          Harness.results :=
            [] ++ [Harness.make_row "vit_base_patch16_224" 8 (-1) "none" 0
                                    None false Harness.failed] |},
       Ok tt).
Proof.
  assert (-1 < 0)%Z as Hneg by reflexivity.
  split; [exact Hneg |].
  apply (HarnessTheory.negative_seq_len_is_a_failed_trial
           (env_log (log "empty_cache" tt) (log "synchronize" tt)
                    patch_log true (log "timeit" tt))
           "vit_base_patch16_224" 8%Z (-1)%Z "none" 0%Z 1 1%Z 0%Z
           None false false bench_log
           ["empty_cache"]
           ["empty_cache"; "synchronize"]
           ["empty_cache"; "synchronize"; "patch_size"]
           16%Z eq_refl Hneg eq_refl eq_refl eq_refl).
Defined.

(** X21 on two environments that differ in [hasattr(model, '_tome_info')] *)
Lemma no_configuration_without_budget_witness :
  ((0 <= 0)%Z ∨ "tome" = "none") ∧
  Harness.run (env_log (log "empty_cache" tt) (log "synchronize" tt)
                       patch_log true (log "timeit" tt))
              "vit_base_patch16_224" 8 196 "tome" 0 1 1 0%Z None false false
              bench_log
    = Harness.run (env_log (log "empty_cache" tt) (log "synchronize" tt)
                           patch_log false (log "timeit" tt))
                  "vit_base_patch16_224" 8 196 "tome" 0 1 1 0%Z None false false
                  bench_log.
Proof.
  assert ((0 <= 0)%Z ∨ "tome" = "none") as Hskip by (left; discriminate).
  split; [exact Hskip |].
  apply (HarnessTheory.no_configuration_without_budget
           (env_log (log "empty_cache" tt) (log "synchronize" tt)
                    patch_log true (log "timeit" tt))
           (env_log (log "empty_cache" tt) (log "synchronize" tt)
                    patch_log false (log "timeit" tt))
           "vit_base_patch16_224" 8%Z 196%Z "tome" 0%Z 1 1%Z 0%Z
           None false false bench_log Hskip
           eq_refl eq_refl eq_refl eq_refl eq_refl eq_refl eq_refl eq_refl
           eq_refl eq_refl eq_refl eq_refl eq_refl).
Defined.

(** X22 with the [tome_apply_patch] of the source under ["tome"] *)
Lemma tome_trial_fails_on_unknown_keywords_witness :
  (0 <= 196)%Z ∧
  Harness.run (env_log (log "empty_cache" tt) (log "synchronize" tt)
                       patch_src true (log "timeit" tt))
              "vit_base_patch16_224" 8 196 "tome" 4 1 1 0%Z None false false
              bench_log
    = ({| Harness.outside :=
            ["empty_cache"; "synchronize"; "patch_size"; "create_model"];
          Harness.results :=
            [] ++ [Harness.make_row "vit_base_patch16_224" 8 196 "tome" 4
                                    None false Harness.failed] |},
       Ok tt).
Proof.
  assert (0 <= 196)%Z as Hseq by discriminate.
  split; [exact Hseq |].
  destruct (HarnessTheory.tome_trial_fails_on_unknown_keywords
              (env_log (log "empty_cache" tt) (log "synchronize" tt)
                       patch_src true (log "timeit" tt))
              (λ _ _ _, log "tome_apply_patch" tt)
              "vit_base_patch16_224" 8%Z 196%Z 4%Z 1 1%Z 0%Z
              None false false bench_log
              ["empty_cache"]
              ["empty_cache"; "synchronize"]
              ["empty_cache"; "synchronize"; "patch_size"]
              ["empty_cache"; "synchronize"; "patch_size"; "create_model"]
              16%Z tt (λ _ _, eq_refl) Hseq
              eq_refl eq_refl eq_refl eq_refl) as [_ Hrun].
  exact Hrun.
Defined.
